(** * imagefiltercpp: the buffer hand-off between an export chain and an
    import chain, with the crosshair overlay drawn in between.

    The development follows [src/imagefiltercpp.cpp]:
    - [Machine]: the fixed-width unsigned arithmetic of the loops;
    - [Transform]: the crosshair drawn by the worker (lines 123-144);
    - [Json]: the JSON values [main] inspects;
    - [Handoff]: the shared state, the export callback (lines 158-182)
      and one worker iteration (lines 119-147);
    - [Worker]: the worker loop and the threads around it as a step
      relation over the mutex-protected state (lines 108-156, 190-195);
    - [Startup]: configuration checks and the construction of the chain
      registry in [main] (lines 58-106, 156-201).

    The SDK ([iffwrapper.hpp]) and the JSON library are outside the
    sources: their calls appear as events, what they return is an input of
    the function that makes the call. Undefined operations (a null chain
    pointer, a store or copy outside a buffer) end an execution. *)

From Stdlib Require Import ZArith Lia List String Ascii Decimal DecimalString.
From stdpp Require Import base option list gmap strings.

Local Open Scope Z_scope.
Set Warnings "-register-all".

(** ** Fixed-width unsigned arithmetic *)

Module Machine.

(** [uint32_t] values are integers modulo [2^32]; [size_t] is taken to be
    64 bits wide (the targets of the sample are x86-64 and aarch64). *)
Definition wrap32 (z : Z) : Z := z mod 2 ^ 32.
Definition wrap64 (z : Z) : Z := z mod 2 ^ 64.

Definition u32 (z : Z) : Prop := 0 ≤ z < 2 ^ 32.

(** [for(uint32_t i = init; i < bound; ++i) body(i)], threading a state.
    The counter is incremented modulo [2^32] as in the source. *)
Fixpoint for_loop {S : Type} (fuel : nat) (i bound : Z)
    (body : Z → S → S) (s : S) : S :=
  match fuel with
  | O => s
  | Datatypes.S fuel' =>
      if i <? bound
      then for_loop fuel' (wrap32 (i + 1)) bound body (body i s)
      else s
  end.

(** A loop from [init] to [bound] runs its body at most [bound - init]
    times ([for_loop_fuel_enough] below shows more fuel changes nothing). *)
Definition for_u32 {S : Type} (init bound : Z) (body : Z → S → S) (s : S) : S :=
  for_loop (Z.to_nat (bound - init)) init bound body s.

End Machine.

(** ** The crosshair overlay *)

Module Transform.
Import Machine.

(** Modelled from the spec: [iff::image_metadata] is declared by the SDK
    header, which is not among the sources. These are the fields the
    program reads: width, height and the padding bytes appended to each
    row. They are taken to be [uint32_t], like the loop counters that range
    over them ([metadata_wf]). *)
Record image_metadata : Type := {
  width : Z;
  height : Z;
  padding : Z;
}.

Definition metadata_wf (md : image_metadata) : Prop :=
  u32 (width md) ∧ u32 (height md) ∧ u32 (padding md).

(** [constexpr size_t bpp = 3;] *)
Definition bpp : Z := 3.

(** [const auto stride = metadata.width * bpp + metadata.padding;]
    evaluated in [size_t]. *)
Definition stride (md : image_metadata) : Z :=
  wrap64 (wrap64 (width md * bpp) + padding md).

(** The subscript [y * stride + x * bpp + c], evaluated in [size_t]. *)
Definition index (md : image_metadata) (y x c : Z) : Z :=
  wrap64 (wrap64 (wrap64 (y * stride md) + wrap64 (x * bpp)) + c).

(** One store [char_ptr[i] = v]. *)
Abbreviation store_op := (Z * Z)%type (only parsing).

(** The three assignments of either inner loop body, for the pixel in row
    [y] and column [x]. *)
Definition cell (md : image_metadata) (y x : Z) : list store_op :=
  [(index md y x 0, 0); (index md y x 1, 0); (index md y x 2, 255)].

Definition paint (md : image_metadata) (y x : Z) (acc : list store_op) : list store_op :=
  acc ++ cell md y x.

(** The stores issued by the two nested loops, in program order. The
    transform reads nothing from the buffer. *)
Definition crosshair_stores (md : image_metadata) : list store_op :=
  let w := width md in
  let h := height md in
  let vertical :=
    for_u32 (wrap32 (h / 2 - 100)) (wrap32 (h / 2 + 100))
      (λ y acc,
         for_u32 (wrap32 (w / 2 - 2)) (wrap32 (w / 2 + 2))
           (λ x acc, paint md y x acc) acc)
      [] in
  for_u32 (wrap32 (w / 2 - 100)) (wrap32 (w / 2 + 100))
    (λ x acc,
       for_u32 (wrap32 (h / 2 - 2)) (wrap32 (h / 2 + 2))
         (λ y acc, paint md y x acc) acc)
    vertical.

(** A buffer is the sequence of its bytes; its length is its capacity. *)
Abbreviation buffer := (list Z) (only parsing).

(** [char_ptr[i] = v]; a store outside the buffer is undefined behaviour,
    reported as [None]. *)
Definition store (buf : buffer) (op : store_op) : option buffer :=
  if decide (0 ≤ op.1 < Z.of_nat (length buf))
  then Some (<[Z.to_nat op.1 := op.2]> buf)
  else None.

Fixpoint run_stores (ops : list store_op) (buf : buffer) : option buffer :=
  match ops with
  | [] => Some buf
  | op :: ops' =>
      match store buf op with
      | Some buf' => run_stores ops' buf'
      | None => None
      end
  end.

(** Lines 123-144 applied to the buffer [buf]. *)
Definition draw_crosshair (md : image_metadata) (buf : buffer) : option buffer :=
  run_stores (crosshair_stores md) buf.

(** The value stored to channel [c] of a painted pixel. *)
Definition colour (c : Z) : Z := if decide (c = 2) then 255 else 0.

(** Rows and columns visited by the vertical bar (first loop nest). *)
Definition vertical_rows (md : image_metadata) : list Z :=
  seqZ (wrap32 (height md / 2 - 100))
       (wrap32 (height md / 2 + 100) - wrap32 (height md / 2 - 100)).
Definition vertical_cols (md : image_metadata) : list Z :=
  seqZ (wrap32 (width md / 2 - 2))
       (wrap32 (width md / 2 + 2) - wrap32 (width md / 2 - 2)).

(** Columns and rows visited by the horizontal bar (second loop nest). *)
Definition horizontal_cols (md : image_metadata) : list Z :=
  seqZ (wrap32 (width md / 2 - 100))
       (wrap32 (width md / 2 + 100) - wrap32 (width md / 2 - 100)).
Definition horizontal_rows (md : image_metadata) : list Z :=
  seqZ (wrap32 (height md / 2 - 2))
       (wrap32 (height md / 2 + 2) - wrap32 (height md / 2 - 2)).

(** The pixels the crosshair covers: the vertical bar is 4 pixels wide and
    200 high, the horizontal bar 200 wide and 4 high, both centred; a bar
    whose start would be negative is not drawn at all (the unsigned start
    wraps above the bound). *)
Definition in_vertical_bar (md : image_metadata) (y x : Z) : Prop :=
  100 ≤ height md / 2 ∧ 2 ≤ width md / 2 ∧
  height md / 2 - 100 ≤ y < height md / 2 + 100 ∧
  width md / 2 - 2 ≤ x < width md / 2 + 2.

Definition in_horizontal_bar (md : image_metadata) (y x : Z) : Prop :=
  100 ≤ width md / 2 ∧ 2 ≤ height md / 2 ∧
  width md / 2 - 100 ≤ x < width md / 2 + 100 ∧
  height md / 2 - 2 ≤ y < height md / 2 + 2.

Definition in_crosshair (md : image_metadata) (y x : Z) : Prop :=
  in_vertical_bar md y x ∨ in_horizontal_bar md y x.

(** The frame of the end-to-end scenario: 640x480, three bytes per pixel,
    no row padding, hence 921600 bytes with a stride of 1920. *)
Definition vga : image_metadata :=
  {| width := 640; height := 480; padding := 0 |}.

End Transform.

(** ** JSON values, as far as [main] inspects them *)

Module Json.

Inductive json : Type :=
  | JNull
  | JBool (b : bool)
  | JNumber (z : Z)
  | JString (s : string)
  | JArray (items : list json)
  | JObject (fields : list (string * json)).

Fixpoint assoc (key : string) (fields : list (string * json)) : option json :=
  match fields with
  | [] => None
  | (k, v) :: rest => if decide (k = key) then Some v else assoc key rest
  end.

(** [j.find(key)]: an iterator to the member, [end()] for a missing key
    and for every value that is not an object. *)
Definition find (key : string) (j : json) : option json :=
  match j with
  | JObject fields => assoc key fields
  | _ => None
  end.

Definition is_array (j : json) : bool :=
  match j with JArray _ => true | _ => false end.

(** [j.empty()] *)
Definition empty (j : json) : bool :=
  match j with
  | JNull => true
  | JArray [] => true
  | JObject [] => true
  | _ => false
  end.

(** The elements a range-based [for] visits. *)
Definition items_of (j : json) : list json :=
  match j with
  | JArray items => items
  | JObject fields => fields.*2
  | JNull => []
  | _ => [j]
  end.

(** [j[key].get<std::string>()] on a constant [j]: the string stored under
    [key]. The call throws when [j] is not an object or the member is not
    a string, and is undefined for a missing key; all three are [None]. *)
Definition get_string (key : string) (j : json) : option string :=
  match find key j with
  | Some (JString s) => Some s
  | _ => None
  end.

End Json.

(** ** Shared state, events, and the two ends of the hand-off *)

Module Handoff.
Import Machine Transform Json.

(** A non-null [void*] buffer pointer, and a chain object. *)
Abbreviation handle := positive (only parsing).
Abbreviation chain := nat (only parsing).

Inductive log_level : Type := error | info.

(** Calls into the SDK and the standard library, and the accesses to the
    shared variables, in the order the program performs them. *)
Inductive event : Type :=
  | Stderr (msg : string)
  | Initialize (cfg : json)
  | ChainCreate (c : chain) (cfg : json)
  | ChainDestroy (c : chain)
  | ThreadStart
  | SetExportCallback (c : chain) (element : string)
  | Execute (c : chain) (command : json)
  | Log (level : log_level) (component message : string)
  | Getchar
  | ThreadJoin
  | Finalize
  | Lock
  | Unlock
  | NotifyAll
  | Wait
  | SetStop
  | GetImportBuffer (c : chain) (element : string)
  | Memcpy (dst : handle) (n : Z)
  | Emplace (buffer : handle) (metadata : image_metadata)
  | ReleaseBuffer (c : chain) (element : string) (buffer : handle)
  | Pop (buffer : handle) (metadata : image_metadata)
  | PushImportBuffer (c : chain) (element : string) (buffer : handle)
      (metadata : image_metadata)
  | WorkerReturn.

(** The variables of [main] captured by reference in the two lambdas, the
    memory behind the leased buffers, and the events so far. A registry
    value [None] is a null [shared_ptr]. *)
Record world : Type := {
  chains : gmap string (option chain);
  heap : gmap handle buffer;
  processing_queue : list (handle * image_metadata);
  stop_processing : bool;
  events : list event;
}.

Definition emit (evs : list event) (w : world) : world :=
  {| chains := chains w; heap := heap w;
     processing_queue := processing_queue w;
     stop_processing := stop_processing w;
     events := events w ++ evs |}.

Definition set_heap (hp : gmap handle buffer) (w : world) : world :=
  {| chains := chains w; heap := hp;
     processing_queue := processing_queue w;
     stop_processing := stop_processing w;
     events := events w |}.

Definition set_queue (q : list (handle * image_metadata)) (w : world) : world :=
  {| chains := chains w; heap := heap w;
     processing_queue := q;
     stop_processing := stop_processing w;
     events := events w |}.

Definition set_stop (b : bool) (w : world) : world :=
  {| chains := chains w; heap := heap w;
     processing_queue := processing_queue w;
     stop_processing := b;
     events := events w |}.

(** What makes an execution undefined. *)
Inductive fault : Type :=
  | NullChain (key : string)
  | OutOfBounds (buffer : handle).

Inductive outcome (A : Type) : Type :=
  | Done (a : A)
  | Undefined (f : fault).
Arguments Done {A} a.
Arguments Undefined {A} f.

#[global] Instance outcome_bind : MBind outcome := λ A B k m,
  match m with
  | Done a => k a
  | Undefined f => Undefined f
  end.

(** [chains[key]->...]: [operator[]] yields the registered pointer, or
    inserts and yields a null pointer when the key is missing;
    dereferencing a null pointer is undefined. *)
Definition chain_at (key : string) (w : world) : outcome chain :=
  match chains w !! key with
  | Some (Some c) => Done c
  | _ => Undefined (NullChain key)
  end.

(** [std::memcpy(dst, src, n)]: the first [n] bytes of [dst] are replaced
    by the first [n] bytes of [src]; undefined when either is shorter. *)
Definition memcpy (dst : buffer) (src : list Z) (n : Z) : option buffer :=
  if decide (0 ≤ n ≤ Z.of_nat (length dst) ∧ n ≤ Z.of_nat (length src))
  then Some (take (Z.to_nat n) src ++ drop (Z.to_nat n) dst)
  else None.

(** [ostream << size_t]: decimal digits. *)
Definition decimal (z : Z) : string :=
  NilZero.string_of_uint (N.to_uint (Z.to_N z)).

(** The message built at lines 176-177. *)
Definition size_mismatch_message (buffer_size size : Z) : string :=
  "Got import buffer size less than export buffer size ("
    +:+ decimal buffer_size +:+ " < " +:+ decimal size +:+ ")".

(** [needle] occurs in [hay]. *)
Definition contains (needle hay : string) : Prop :=
  ∃ pre post, hay = pre +:+ needle +:+ post.

(** What one invocation of the export callback has left to do once it has
    dealt with the lease. *)
Inductive pending : Type :=
  | ToEnqueue (buffer : handle) (metadata : image_metadata)
  | ToNotify
  | Finished.

(** Lines 161-167 and 174-180: the lease and what follows from it, up to
    (not including) the critical section. [lease] is what
    [get_import_buffer] returned: [None] for a null pointer, otherwise the
    buffer and the capacity stored into [buffer_size]. *)
Definition callback_lease (lease : option (handle * Z))
    (data : list Z) (size : Z) (metadata : image_metadata) (w : world)
    : outcome (pending * world) :=
  c ← chain_at "import" w;
  let w := emit [GetImportBuffer c "importer"] w in
  match lease with
  | None => Done (Finished, w)
  | Some (buffer, buffer_size) =>
      if decide (size ≤ buffer_size)
      then
        match memcpy (default [] (heap w !! buffer)) data size with
        | Some filled =>
            let w := set_heap (alter (λ _, filled) buffer (heap w)) w in
            Done (ToEnqueue buffer metadata, emit [Memcpy buffer size] w)
        | None => Undefined (OutOfBounds buffer)
        end
      else
        let w := emit [Log error "imagefiltercpp"
                         (size_mismatch_message buffer_size size)] w in
        c ← chain_at "import" w;
        Done (Finished, emit [ReleaseBuffer c "importer" buffer] w)
  end.

(** Lines 168-171: the critical section of the callback. *)
Definition callback_enqueue (buffer : handle) (metadata : image_metadata)
    (w : world) : world :=
  let w := emit [Lock] w in
  let w := set_queue (processing_queue w ++ [(buffer, metadata)]) w in
  let w := emit [Emplace buffer metadata] w in
  emit [Unlock] w.

(** Line 172. *)
Definition callback_notify (w : world) : world := emit [NotifyAll] w.

(** One whole invocation of the export callback, run without
    interruption. *)
Definition export_callback (lease : option (handle * Z))
    (data : list Z) (size : Z) (metadata : image_metadata) (w : world)
    : outcome world :=
  r ← callback_lease lease data size metadata w;
  match r.1 with
  | ToEnqueue buffer metadata =>
      Done (callback_notify (callback_enqueue buffer metadata r.2))
  | _ => Done r.2
  end.

(** Lines 119-121: take the front entry and release the lock. *)
Definition worker_pop (w : world) : option ((handle * image_metadata) * world) :=
  match processing_queue w with
  | [] => None
  | (buffer, metadata) :: rest =>
      Some ((buffer, metadata),
            emit [Pop buffer metadata; Unlock] (set_queue rest w))
  end.

(** Lines 123-146: draw on the buffer and forward it. *)
Definition worker_process (buffer : handle) (metadata : image_metadata)
    (w : world) : outcome world :=
  match draw_crosshair metadata (default [] (heap w !! buffer)) with
  | Some drawn =>
      let w := set_heap (alter (λ _, drawn) buffer (heap w)) w in
      c ← chain_at "import" w;
      Done (emit [PushImportBuffer c "importer" buffer metadata] w)
  | None => Undefined (OutOfBounds buffer)
  end.

(** Line 147. *)
Definition worker_relock (w : world) : world := emit [Lock] w.

(** One pass through the body of the inner [while], run without
    interruption; [None] when the queue is empty. *)
Definition worker_iteration (w : world) : option (outcome world) :=
  match worker_pop w with
  | None => None
  | Some ((buffer, metadata), w) =>
      Some (w ← worker_process buffer metadata w; Done (worker_relock w))
  end.

(** A frame handed to the callback and then taken through one worker
    iteration, each run without interruption. *)
Definition deliver (lease : option (handle * Z))
    (data : list Z) (size : Z) (metadata : image_metadata) (w : world)
    : outcome world :=
  w ← export_callback lease data size metadata w;
  match worker_iteration w with
  | Some r => r
  | None => Done w
  end.

(** The central 200x200 pixels of a 640x480 frame. *)
Definition vga_central_square (y x : Z) : Prop :=
  140 ≤ y < 340 ∧ 220 ≤ x < 420.

(** The crosshair of a 640x480 frame: a bar 4 pixels wide and 200 high
    and a bar 200 wide and 4 high, both centred. *)
Definition vga_crosshair (y x : Z) : Prop :=
  (140 ≤ y < 340 ∧ 318 ≤ x < 322) ∨ (238 ≤ y < 242 ∧ 220 ≤ x < 420).

(** The world in which the callback reaches its critical section. *)
Definition filled_world (c : chain) (buffer : handle) (size : Z)
    (filled : list Z) (w : world) : world :=
  emit [Memcpy buffer size]
    (set_heap (<[buffer := filled]> (heap w))
       (emit [GetImportBuffer c "importer"] w)).

(** A world in which the import chain is registered and owns one 8-byte
    buffer; used to run the callback on concrete inputs. *)
Definition sample_world : world :=
  {| chains := {[ "import" := Some 0%nat; "export" := Some 1%nat ]};
     heap := {[ 1%positive := [10; 11; 12; 13; 14; 15; 16; 17] ]};
     processing_queue := [];
     stop_processing := false;
     events := [] |}.

Definition sample_metadata : image_metadata :=
  {| width := 2; height := 1; padding := 0 |}.

(** A uniformly grey 640x480 frame, and a world whose import chain owns
    one zeroed buffer of the same size. *)
Definition grey_frame : list Z := replicate (Z.to_nat 921600) 7.
Definition blank_buffer : list Z := replicate (Z.to_nat 921600) 0.

Definition vga_world : world :=
  {| chains := {[ "import" := Some 0%nat; "export" := Some 1%nat ]};
     heap := {[ 1%positive := blank_buffer ]};
     processing_queue := [];
     stop_processing := false;
     events := [] |}.

End Handoff.

(** ** The worker loop among the other threads *)

Module Worker.
Import Transform Handoff.

(** Where the worker thread stands in [process] (lines 112-155). *)
Inductive worker_pc : Type :=
  | Relocking       (* lines 114, 147 and the return from [cv.wait]: taking the mutex *)
  | AtQueueCheck    (* line 117, mutex held *)
  | Processing (buffer : handle) (metadata : image_metadata)
                    (* lines 123-146, mutex released *)
  | AtStopCheck     (* line 149, mutex held, reached from a false line 117 *)
  | Waiting         (* line 153, blocked in [cv.wait], mutex released *)
  | Returned.       (* line 151 *)

(** Where the main thread stands in its shutdown (lines 189-195). *)
Inductive main_pc : Type :=
  | Serving         (* up to line 189 *)
  | StopSet         (* after line 193, before line 194 *)
  | Joining         (* line 195 *)
  | Joined.

(** The threads around the shared state: the worker, the invocations of the
    export callback in flight (any number, on threads of the exporter), and
    the main thread. *)
Record system : Type := {
  shared : world;
  worker : worker_pc;
  callbacks : list pending;
  main : main_pc;
}.

(** The worker owns the mutex exactly between taking it and either leaving
    with an entry, waiting, or returning. The critical sections of the other
    threads (lines 168-171 and 190-193) are single steps, enabled only while
    the worker does not own it. *)
Definition holds_mutex (pc : worker_pc) : bool :=
  match pc with
  | AtQueueCheck | AtStopCheck => true
  | _ => false
  end.

(** [cv.notify_all()] as the worker sees it. *)
Definition wake (pc : worker_pc) : worker_pc :=
  match pc with
  | Waiting => Relocking
  | _ => pc
  end.

(** The steps the threads take, in any order. An invocation of the callback
    is three steps: what it does before its critical section (which touches
    neither the queue nor the stop flag), the critical section, and the
    notification; [k] numbers the invocations in the order they started.
    The exporter may invoke the callback at any time and with any lease.
    [cv.wait] may return without a notification. *)
Inductive action : Type :=
  | CallbackStart (lease : option (handle * Z)) (data : list Z) (size : Z)
      (metadata : image_metadata)       (* lines 161-167, 174-180 *)
  | CallbackEnqueue (k : nat)           (* lines 168-171 *)
  | CallbackNotify (k : nat)            (* line 172 *)
  | MainStop                            (* lines 190-193 *)
  | MainNotify                          (* line 194 *)
  | MainJoin                            (* line 195 returns *)
  | WorkerStep
  | SpuriousWake.

(** One step of the worker thread; [None] while it is blocked, after it has
    returned, and where its next operation is undefined. *)
Definition worker_step (s : system) : option system :=
  match worker s with
  | Relocking =>
      Some {| shared := worker_relock (shared s); worker := AtQueueCheck;
              callbacks := callbacks s; main := main s |}
  | AtQueueCheck =>
      match worker_pop (shared s) with
      | Some ((buffer, metadata), w) =>
          Some {| shared := w; worker := Processing buffer metadata;
                  callbacks := callbacks s; main := main s |}
      | None =>
          Some {| shared := shared s; worker := AtStopCheck;
                  callbacks := callbacks s; main := main s |}
      end
  | Processing buffer metadata =>
      match worker_process buffer metadata (shared s) with
      | Done w =>
          Some {| shared := w; worker := Relocking;
                  callbacks := callbacks s; main := main s |}
      | Undefined _ => None
      end
  | AtStopCheck =>
      if stop_processing (shared s)
      then Some {| shared := emit [WorkerReturn; Unlock] (shared s);
                   worker := Returned;
                   callbacks := callbacks s; main := main s |}
      else Some {| shared := emit [Wait] (shared s); worker := Waiting;
                   callbacks := callbacks s; main := main s |}
  | Waiting => None
  | Returned => None
  end.

(** Lines 190-193. *)
Definition main_stop (w : world) : world :=
  emit [Unlock] (emit [SetStop] (set_stop true (emit [Lock] w))).

(** One step of the system; [None] when the action is not enabled in [s]
    or its operation is undefined there. *)
Definition step (a : action) (s : system) : option system :=
  match a with
  | CallbackStart lease data size metadata =>
      match callback_lease lease data size metadata (shared s) with
      | Done (p, w) =>
          Some {| shared := w; worker := worker s;
                  callbacks := callbacks s ++ [p]; main := main s |}
      | Undefined _ => None
      end
  | CallbackEnqueue k =>
      match callbacks s !! k with
      | Some (ToEnqueue buffer metadata) =>
          if holds_mutex (worker s) then None
          else Some {| shared := callback_enqueue buffer metadata (shared s);
                       worker := worker s;
                       callbacks := <[k := ToNotify]> (callbacks s);
                       main := main s |}
      | _ => None
      end
  | CallbackNotify k =>
      match callbacks s !! k with
      | Some ToNotify =>
          Some {| shared := callback_notify (shared s);
                  worker := wake (worker s);
                  callbacks := <[k := Finished]> (callbacks s);
                  main := main s |}
      | _ => None
      end
  | MainStop =>
      match main s with
      | Serving =>
          if holds_mutex (worker s) then None
          else Some {| shared := main_stop (shared s); worker := worker s;
                       callbacks := callbacks s; main := StopSet |}
      | _ => None
      end
  | MainNotify =>
      match main s with
      | StopSet =>
          Some {| shared := emit [NotifyAll] (shared s);
                  worker := wake (worker s);
                  callbacks := callbacks s; main := Joining |}
      | _ => None
      end
  | MainJoin =>
      match main s, worker s with
      | Joining, Returned =>
          Some {| shared := emit [ThreadJoin] (shared s); worker := Returned;
                  callbacks := callbacks s; main := Joined |}
      | _, _ => None
      end
  | WorkerStep => worker_step s
  | SpuriousWake =>
      match worker s with
      | Waiting =>
          Some {| shared := shared s; worker := Relocking;
                  callbacks := callbacks s; main := main s |}
      | _ => None
      end
  end.

(** The state right after line 156: the worker thread exists and has not
    taken the mutex yet. *)
Definition boot (registry : gmap string (option chain))
    (memory : gmap handle (list Z)) : system :=
  {| shared := {| chains := registry; heap := memory;
                  processing_queue := []; stop_processing := false;
                  events := [] |};
     worker := Relocking; callbacks := []; main := Serving |}.

Fixpoint run (actions : list action) (s : system) : option system :=
  match actions with
  | [] => Some s
  | a :: rest =>
      match step a s with
      | Some s' => run rest s'
      | None => None
      end
  end.

Inductive reachable : system → Prop :=
  | reachable_boot registry memory : reachable (boot registry memory)
  | reachable_step s a s' : reachable s → step a s = Some s' → reachable s'.

(** The entries put into the queue, taken from it, and forwarded to the
    import chain, each in the order of its events. *)
Definition enqueued (evs : list event) : list (handle * image_metadata) :=
  omap (λ e, match e with Emplace b md => Some (b, md) | _ => None end) evs.

Definition processed (evs : list event) : list (handle * image_metadata) :=
  omap (λ e, match e with Pop b md => Some (b, md) | _ => None end) evs.

Definition forwarded (evs : list event) : list (handle * image_metadata) :=
  omap (λ e, match e with PushImportBuffer _ _ b md => Some (b, md) | _ => None end) evs.

(** The entry the worker has taken and not forwarded yet. *)
Definition in_flight (pc : worker_pc) : list (handle * image_metadata) :=
  match pc with
  | Processing buffer metadata => [(buffer, metadata)]
  | _ => []
  end.

(** A run in which one frame is handed over and forwarded, the worker goes
    to sleep, is stopped and woken by the main thread, and returns. *)
Definition sample_actions : list action :=
  [ CallbackStart (Some (1%positive, 8)) [1; 2; 3; 4; 5; 6] 6 sample_metadata;
    WorkerStep; WorkerStep; WorkerStep;
    CallbackEnqueue 0; CallbackNotify 0;
    WorkerStep; WorkerStep; WorkerStep; WorkerStep; WorkerStep; WorkerStep;
    MainStop; MainNotify;
    WorkerStep; WorkerStep; WorkerStep;
    MainJoin ].

Definition sample_system : system :=
  boot (chains sample_world) (heap sample_world).

(** The state [sample_actions] lead to from [sample_system]. *)
Definition sample_final : system :=
  {| shared :=
       {| chains := chains sample_world;
          heap := {[ 1%positive := [1; 2; 3; 4; 5; 6; 16; 17] ]};
          processing_queue := [];
          stop_processing := true;
          events :=
            [GetImportBuffer 0 "importer"; Memcpy 1 6; Lock; Wait; Lock;
             Emplace 1 sample_metadata; Unlock; NotifyAll; Lock;
             Pop 1 sample_metadata; Unlock;
             PushImportBuffer 0 "importer" 1 sample_metadata;
             Lock; Wait; Lock; SetStop; Unlock; NotifyAll; Lock;
             WorkerReturn; Unlock; ThreadJoin] |};
     worker := Returned; callbacks := [Finished]; main := Joined |}.

(** The state after the first five of them: the worker waits, an entry is
    in the queue, and the notification for it is still to come. *)
Definition sample_midway : system :=
  {| shared :=
       {| chains := chains sample_world;
          heap := {[ 1%positive := [1; 2; 3; 4; 5; 6; 16; 17] ]};
          processing_queue := [(1%positive, sample_metadata)];
          stop_processing := false;
          events :=
            [GetImportBuffer 0 "importer"; Memcpy 1 6; Lock; Wait; Lock;
             Emplace 1 sample_metadata; Unlock] |};
     worker := Waiting; callbacks := [ToNotify]; main := Serving |}.

(** A run with two frames in flight: the invocation of the callback that
    started second enters its critical section first, and the worker takes
    both entries. *)
Definition second_metadata : image_metadata :=
  {| width := 1; height := 2; padding := 0 |}.

Definition pair_system : system :=
  boot (chains sample_world)
    {[ 1%positive := [10; 11; 12; 13; 14; 15; 16; 17];
       2%positive := [20; 21; 22; 23; 24; 25; 26; 27] ]}.

Definition pair_actions : list action :=
  [ CallbackStart (Some (1%positive, 8)) [1; 2; 3; 4; 5; 6] 6 sample_metadata;
    CallbackStart (Some (2%positive, 8)) [7; 8; 9; 10; 11; 12] 6 second_metadata;
    CallbackEnqueue 1; CallbackEnqueue 0;
    CallbackNotify 1; CallbackNotify 0;
    WorkerStep; WorkerStep; WorkerStep; WorkerStep; WorkerStep ].

(** The state [pair_actions] lead to from [pair_system]: the entry
    enqueued first is forwarded, the other one is being drawn on. *)
Definition pair_state : system :=
  {| shared :=
       {| chains := chains sample_world;
          heap := {[ 1%positive := [1; 2; 3; 4; 5; 6; 16; 17];
                     2%positive := [7; 8; 9; 10; 11; 12; 26; 27] ]};
          processing_queue := [];
          stop_processing := false;
          events :=
            [GetImportBuffer 0 "importer"; Memcpy 1 6;
             GetImportBuffer 0 "importer"; Memcpy 2 6;
             Lock; Emplace 2 second_metadata; Unlock;
             Lock; Emplace 1 sample_metadata; Unlock;
             NotifyAll; NotifyAll;
             Lock; Pop 2 second_metadata; Unlock;
             PushImportBuffer 0 "importer" 2 second_metadata;
             Lock; Pop 1 sample_metadata; Unlock] |};
     worker := Processing 1 sample_metadata;
     callbacks := [Finished; Finished]; main := Serving |}.

(** Events that leave the three entry sequences, the stop flag and the
    worker's return untouched. *)
Definition quiet_event (e : event) : bool :=
  match e with
  | Emplace _ _ | Pop _ _ | PushImportBuffer _ _ _ _ | WorkerReturn | SetStop => false
  | _ => true
  end.

(** What holds of the events before the worker's return. *)
Definition drained_before_return (evs : list event) : Prop :=
  ∀ pre post, evs = pre ++ WorkerReturn :: post →
    forwarded pre = enqueued pre ∧ SetStop ∈ pre.

(** The invariant of the worker loop under every interleaving. *)
Record invariant (s : system) : Prop := {
  inv_conserved :
    enqueued (events (shared s))
      = forwarded (events (shared s)) ++ in_flight (worker s)
          ++ processing_queue (shared s);
  inv_processed :
    processed (events (shared s))
      = forwarded (events (shared s)) ++ in_flight (worker s);
  inv_stop_check :
    worker s = AtStopCheck → processing_queue (shared s) = [];
  inv_stop_logged :
    stop_processing (shared s) = true → SetStop ∈ events (shared s);
  inv_return_logged :
    WorkerReturn ∈ events (shared s) → worker s = Returned;
  inv_drained : drained_before_return (events (shared s));
}.

(** A stop or an entry the waiting worker has not seen yet comes with a
    notification still to be made: no wake-up is lost. *)
Record wakeups_pending (s : system) : Prop := {
  wake_for_stop :
    worker s = Waiting → stop_processing (shared s) = true → main s = StopSet;
  wake_for_entry :
    worker s = Waiting → processing_queue (shared s) ≠ [] →
    ∃ k, callbacks s !! k = Some ToNotify;
}.

(** An entry the worker can draw on: its buffer is live and holds the whole
    frame its metadata describes. *)
Definition processable (w : world) (entry : handle * image_metadata) : Prop :=
  metadata_wf entry.2 ∧
  height entry.2 * (width entry.2 * bpp + padding entry.2) ≤ 2 ^ 64 ∧
  ∃ buf, heap w !! entry.1 = Some buf ∧
         height entry.2 * (width entry.2 * bpp + padding entry.2)
           ≤ Z.of_nat (length buf).

(** The import chain is registered and every entry the worker holds or
    will take is processable. *)
Definition drainable (s : system) : Prop :=
  (∃ c, chains (shared s) !! "import" = Some (Some c)) ∧
  Forall (processable (shared s))
    (in_flight (worker s) ++ processing_queue (shared s)).

(** The steps left to the shutdown once the flag is set: the main thread's
    notification and the worker's own steps. *)
Definition shutdown_action (a : action) : Prop :=
  a = MainNotify ∨ a = WorkerStep.

(** The steps of the consuming side: the worker's own, and the
    notifications it may be waiting for. *)
Definition consumer_action (a : action) : Prop :=
  a = WorkerStep ∨ ∃ k, a = CallbackNotify k.

(** The worker is on its way to the next stop check. *)
Definition busy (pc : worker_pc) : bool :=
  match pc with
  | Relocking | AtQueueCheck | Processing _ _ => true
  | _ => false
  end.

End Worker.

(** ** Configuration checks and the construction of the registry *)

Module Startup.
Import Json Handoff.

(** What [nlohmann::json::parse] made of the configuration file: a value,
    or an exception whose [what()] is recorded. *)
Inductive parse_result : Type :=
  | ParseError (what : string)
  | Parsed (config : json).

(** [EXIT_SUCCESS] and [EXIT_FAILURE] of [<cstdlib>]. *)
Definition EXIT_SUCCESS : Z := 0.
Definition EXIT_FAILURE : Z := 1.

Definition newline : string := String "010" "".

(** How the main thread ends: by returning a status from [main], or
    abnormally (an exception nobody catches, or an undefined operation). *)
Inductive ending : Type :=
  | Exited (status : Z)
  | Aborted.

Record run_result : Type := {
  trace : list event;
  ending_of : ending;
}.

(** Lines 60-91: the message written to [std::cerr], or the [IFF] section
    and the [chains] section. *)
Definition check_config (input : parse_result) : string + (json * json) :=
  match input with
  | ParseError what =>
      inl ("Invalid configuration provided: " +:+ what +:+ newline)
  | Parsed config =>
      match find "chains" config with
      | None =>
          inl ("Invalid configuration provided: missing `chains` section" +:+ newline)
      | Some it_chains =>
          if negb (is_array it_chains) then
            inl ("Invalid configuration provided: section `chains` must be an array"
                   +:+ newline)
          else if empty it_chains then
            inl ("Invalid configuration provided: section `chains` must not be empty"
                   +:+ newline)
          else
            match find "IFF" config with
            | None =>
                inl ("Invalid configuration provided: missing `IFF` section" +:+ newline)
            | Some it_iff => inr (it_iff, it_chains)
            end
      end
  end.

(** Line 105, [chains.emplace(id, std::move(chain))]: the entry is added
    unless the key is taken; then the map is left alone and the chain just
    built, which nothing else owns, is destroyed. *)
Definition emplace (id : string) (c : chain)
    (registry : gmap string (option chain))
    : gmap string (option chain) * list event :=
  match registry !! id with
  | None => (<[id := Some c]> registry, [])
  | Some _ => (registry, [ChainDestroy c])
  end.

(** Lines 96-106. Chain objects are numbered in the order of their
    construction, from [next]. The result is [None] when reading the [id]
    of a definition fails, which ends the program abnormally. *)
Fixpoint construct_chains (configs : list json) (next : chain)
    (registry : gmap string (option chain))
    : list event * option (gmap string (option chain)) :=
  match configs with
  | [] => ([], Some registry)
  | chain_config :: rest =>
      match get_string "id" chain_config with
      | None => ([ChainCreate next chain_config], None)
      | Some id =>
          let '(registry', destroyed) := emplace id next registry in
          let '(evs, result) := construct_chains rest (S next) registry' in
          (ChainCreate next chain_config :: destroyed ++ evs, result)
      end
  end.

(** The events of the construction loop. *)
Definition lifecycle_event (e : event) : Prop :=
  (∃ c cfg, e = ChainCreate c cfg) ∨ ∃ c, e = ChainDestroy c.

(** The commands of lines 184 and 189. *)
Definition exporter_command (value : string) : json :=
  JObject [("exporter", JObject [("command", JString value)])].

(** [chains.clear()]: every chain the registry owns is destroyed. The
    order in which [std::map::clear] destroys the elements is not
    specified: [order] takes the chains, listed by key, to the order in
    which the implementation destroys them. *)
Definition clear (order : list chain → list chain)
    (registry : gmap string (option chain)) : list event :=
  ChainDestroy <$> order (omap id (map_to_list registry).*2).

(** What [order] may do: rearrange. *)
Definition rearranges (order : list chain → list chain) : Prop :=
  ∀ cs, order cs ≡ₚ cs.

(** Lines 156-201 as the main thread performs them, given that the join
    returns. [chains["export"]] inserts a null pointer when the key is
    missing, and calling through it is undefined. *)
Definition serve (order : list chain → list chain)
    (registry : gmap string (option chain)) : run_result :=
  match registry !! "export" with
  | Some (Some exporter) =>
      {| trace :=
           [ThreadStart;
            SetExportCallback exporter "exporter";
            Execute exporter (exporter_command "on");
            Log info "imagefiltercpp" "Press Enter to terminate the program";
            Getchar;
            Execute exporter (exporter_command "off");
            Lock; SetStop; Unlock; NotifyAll; ThreadJoin]
           ++ clear order registry ++ [Finalize];
         ending_of := Exited EXIT_SUCCESS |}
  | _ => {| trace := [ThreadStart]; ending_of := Aborted |}
  end.

(** The registry [main] has built when it reaches line 108, if it gets
    there. *)
Definition registry_of (input : parse_result) : option (gmap string (option chain)) :=
  match check_config input with
  | inl _ => None
  | inr (_, it_chains) => (construct_chains (items_of it_chains) 0 ∅).2
  end.

Definition main (order : list chain → list chain) (input : parse_result)
    : run_result :=
  match check_config input with
  | inl message =>
      {| trace := [Stderr message]; ending_of := Exited EXIT_FAILURE |}
  | inr (it_iff, it_chains) =>
      let '(evs, result) := construct_chains (items_of it_chains) 0 ∅ in
      match result with
      | None => {| trace := Initialize it_iff :: evs; ending_of := Aborted |}
      | Some registry =>
          {| trace := Initialize it_iff :: evs ++ trace (serve order registry);
             ending_of := ending_of (serve order registry) |}
      end
  end.

(** A run that does nothing but write [message] to [std::cerr] and return
    [EXIT_FAILURE]. *)
Definition failed (message : string) : run_result :=
  {| trace := [Stderr message]; ending_of := Exited EXIT_FAILURE |}.

(** The configurations the checks of [main] are meant to turn away. *)
Definition rejected (input : parse_result) : Prop :=
  match input with
  | ParseError _ => True
  | Parsed config =>
      find "chains" config = None ∨
      (∃ it_chains, find "chains" config = Some it_chains ∧
                    (is_array it_chains = false ∨ empty it_chains = true)) ∨
      find "IFF" config = None
  end.

(** What the messages of lines 73, 78, 83 and 89 say is wrong. *)
Definition config_faults : list string :=
  ["missing `chains` section";
   "section `chains` must be an array";
   "section `chains` must not be empty";
   "missing `IFF` section"].

(** The chain definitions [main] iterates over, once the checks passed. *)
Definition chain_definitions (input : parse_result) : list json :=
  match check_config input with
  | inl _ => []
  | inr (_, it_chains) => items_of it_chains
  end.

(** [id] is the id of every definition, position by position. *)
Definition ids_of (configs : list json) (ids : list string) : Prop :=
  Forall2 (λ chain_config id, get_string "id" chain_config = Some id) configs ids.

(** One configuration for each of the five checks to turn away. *)
Definition unparseable : parse_result := ParseError "syntax error".

Definition no_chains : parse_result := Parsed (JObject [("IFF", JObject [])]).

Definition chains_not_array : parse_result :=
  Parsed (JObject [("IFF", JObject []);
                   ("chains", JObject [("id", JString "export")])]).

Definition chains_empty : parse_result :=
  Parsed (JObject [("IFF", JObject []); ("chains", JArray [])]).

Definition no_iff : parse_result :=
  Parsed (JObject [("chains", JArray [JObject [("id", JString "export")]])]).

(** A configuration with an export chain and no import chain, and one with
    the same id defined twice. *)
Definition export_only : parse_result :=
  Parsed (JObject [("IFF", JObject []);
                   ("chains", JArray [JObject [("id", JString "export")]])]).

Definition twice_export : parse_result :=
  Parsed (JObject [("IFF", JObject []);
                   ("chains", JArray [JObject [("id", JString "export"); ("n", JNumber 1)];
                                      JObject [("id", JString "import")];
                                      JObject [("id", JString "export"); ("n", JNumber 2)]])]).

End Startup.

(** ** Definitions for the further properties *)

Module Further.
Import Transform Json Handoff Worker Startup.

(** The entry an invocation of the callback adds to the queue: the leased
    buffer with the metadata when the frame fits (line 165), none
    otherwise. *)
Definition accepted (lease : option (handle * Z)) (size : Z)
    (metadata : image_metadata) : list (handle * image_metadata) :=
  match lease with
  | Some (buffer, buffer_size) =>
      if decide (size ≤ buffer_size) then [(buffer, metadata)] else []
  | None => []
  end.

(** The mutex as the events tell it: who holds it after [e], given whether
    it was held before; [None] when [e] takes a mutex that is held, gives
    up one that is not, or reaches for the queue or the stop flag without
    it. [cv.wait] gives the mutex up; it is taken again by the [Lock] that
    follows the wake-up. *)
Definition mutex_event (held : bool) (e : event) : option bool :=
  match e with
  | Lock => if held then None else Some true
  | Unlock | Wait => if held then Some false else None
  | Emplace _ _ | Pop _ _ | SetStop => if held then Some true else None
  | _ => Some held
  end.

Definition mutex_trace (evs : list event) : option bool :=
  foldl (λ st e, held ← st; mutex_event held e) (Some false) evs.

(** A notification: line 172 or line 194. *)
Definition notification (a : action) : Prop :=
  a = MainNotify ∨ ∃ k, a = CallbackNotify k.

(** The chains constructed and the chains destroyed, in the order of the
    events, and the chains a registry owns. *)
Definition created (evs : list event) : list chain :=
  omap (λ e, match e with ChainCreate c _ => Some c | _ => None end) evs.

Definition destroyed (evs : list event) : list chain :=
  omap (λ e, match e with ChainDestroy c => Some c | _ => None end) evs.

Definition owned (registry : gmap string (option chain)) : list chain :=
  omap id (map_to_list registry).*2.

(** The buffers the callback has copied a frame into, in the order of the
    copies, and the buffers held by invocations of the callback that have
    made their copy and not reached the critical section yet. *)
Definition copied (evs : list event) : list handle :=
  omap (λ e, match e with Memcpy b _ => Some b | _ => None end) evs.

Definition to_enqueue (ps : list pending) : list handle :=
  omap (λ p, match p with ToEnqueue b _ => Some b | _ => None end) ps.

End Further.

(** ** Sample inputs for the further properties *)

Module Samples.
Import Transform Json Handoff Startup Worker.

(** A frame 8 pixels wide and 200 high with one padding byte per row: 5000
    bytes, tall enough for the vertical bar, too narrow for the other. *)
Definition bar_frame : image_metadata :=
  {| width := 8; height := 200; padding := 1 |}.

Definition bar_buffer : list Z := replicate 5000 9.

(** A frame of that size, and a world whose import chain owns one buffer
    that holds it. *)
Definition bar_data : list Z := replicate 5000 7.

Definition bar_world : world :=
  {| chains := {[ "import" := Some 0%nat; "export" := Some 1%nat ]};
     heap := {[ 1%positive := bar_buffer ]};
     processing_queue := [];
     stop_processing := false;
     events := [] |}.

(** The same with a buffer of 4000 bytes only. *)
Definition short_world : world :=
  {| chains := {[ "import" := Some 0%nat; "export" := Some 1%nat ]};
     heap := {[ 1%positive := take 4000 bar_buffer ]};
     processing_queue := [];
     stop_processing := false;
     events := [] |}.

(** A frame that arrives after the run of [sample_actions], when the worker
    has returned, and the state it leaves. *)
Definition late_actions : list action :=
  [ CallbackStart (Some (1%positive, 8)) [1; 2; 3; 4; 5; 6] 6 sample_metadata;
    CallbackEnqueue 1; CallbackNotify 1 ].

Definition late_final : system :=
  {| shared :=
       {| chains := chains sample_world;
          heap := {[ 1%positive := [1; 2; 3; 4; 5; 6; 16; 17] ]};
          processing_queue := [(1%positive, sample_metadata)];
          stop_processing := true;
          events :=
            events (shared sample_final) ++
            [GetImportBuffer 0 "importer"; Memcpy 1 6;
             Lock; Emplace 1 sample_metadata; Unlock; NotifyAll] |};
     worker := Returned; callbacks := [Finished; Finished]; main := Joined |}.

(** The state of [sample_actions] before the join. *)
Definition sample_joining : system :=
  {| shared :=
       {| chains := chains sample_world;
          heap := {[ 1%positive := [1; 2; 3; 4; 5; 6; 16; 17] ]};
          processing_queue := [];
          stop_processing := true;
          events :=
            [GetImportBuffer 0 "importer"; Memcpy 1 6; Lock; Wait; Lock;
             Emplace 1 sample_metadata; Unlock; NotifyAll; Lock;
             Pop 1 sample_metadata; Unlock;
             PushImportBuffer 0 "importer" 1 sample_metadata;
             Lock; Wait; Lock; SetStop; Unlock; NotifyAll] |};
     worker := Relocking; callbacks := [Finished]; main := Joining |}.

(** A configuration whose second chain definition has a number for id. *)
Definition numeric_id : parse_result :=
  Parsed (JObject [("IFF", JObject []);
                   ("chains", JArray [JObject [("id", JString "export")];
                                      JObject [("id", JNumber 7)];
                                      JObject [("id", JString "import")]])]).

End Samples.

(** * Proofs *)

Module MachineFacts.
Import Machine.

Lemma wrap32_small z : 0 ≤ z < 2 ^ 32 → wrap32 z = z.
Proof. intros. unfold wrap32. by apply Z.mod_small. Qed.

Lemma wrap64_small z : 0 ≤ z < 2 ^ 64 → wrap64 z = z.
Proof. intros. unfold wrap64. by apply Z.mod_small. Qed.

Lemma wrap32_neg z : - 2 ^ 32 ≤ z < 0 → wrap32 z = z + 2 ^ 32.
Proof.
  intros. unfold wrap32. symmetry.
  apply (Z.mod_unique z (2 ^ 32) (-1)); lia.
Qed.

Lemma wrap64_range z : 0 ≤ wrap64 z < 2 ^ 64.
Proof. unfold wrap64. apply Z.mod_pos_bound. lia. Qed.

Lemma wrap64_le z : 0 ≤ z → wrap64 z ≤ z.
Proof. intros. unfold wrap64. apply Z.mod_le; lia. Qed.

Lemma wrap64_add_l a b : wrap64 (wrap64 a + b) = wrap64 (a + b).
Proof. unfold wrap64. by rewrite Zplus_mod_idemp_l. Qed.

Lemma wrap64_add_r a b : wrap64 (a + wrap64 b) = wrap64 (a + b).
Proof. unfold wrap64. by rewrite Zplus_mod_idemp_r. Qed.

(** The loop visits [i, i+1, ..., bound-1] in order, whatever fuel at
    least [bound - i] it is given: the counter never wraps below a 32-bit
    bound. *)
Lemma for_loop_foldl {S} fuel i bound (body : Z → S → S) s :
  0 ≤ i → bound < 2 ^ 32 → (Z.to_nat (bound - i) ≤ fuel)%nat →
  for_loop fuel i bound body s = foldl (λ acc j, body j acc) s (seqZ i (bound - i)).
Proof.
  revert i s. induction fuel as [|fuel IH]; intros i s Hi Hb Hfuel; simpl.
  - rewrite seqZ_nil; [done | lia].
  - destruct (Z.ltb_spec i bound) as [Hlt|Hge].
    + rewrite wrap32_small by lia.
      rewrite IH by lia.
      rewrite (seqZ_cons i (bound - i)) by lia. simpl.
      do 2 f_equal; lia.
    + rewrite seqZ_nil; [done | lia].
Qed.

Lemma for_loop_fuel_enough {S} fuel i bound (body : Z → S → S) s :
  0 ≤ i → bound < 2 ^ 32 → (Z.to_nat (bound - i) ≤ fuel)%nat →
  for_loop fuel i bound body s = for_u32 i bound body s.
Proof.
  intros. unfold for_u32. rewrite !for_loop_foldl by lia. done.
Qed.

Lemma for_u32_foldl {S} init bound (body : Z → S → S) s :
  0 ≤ init → bound < 2 ^ 32 →
  for_u32 init bound body s = foldl (λ acc j, body j acc) s (seqZ init (bound - init)).
Proof. intros. unfold for_u32. by apply for_loop_foldl. Qed.

(** The counter values of [for(uint32_t i = m - d; i < m + e; ++i)] when
    [m - d] may wrap: none when [m < d], otherwise [m-d .. m+e-1]. *)
Lemma elem_of_wrapped_range m d e j :
  0 ≤ m < 2 ^ 31 → 0 < d ≤ e → e < 2 ^ 31 - 2 ^ 30 →
  j ∈ seqZ (wrap32 (m - d)) (wrap32 (m + e) - wrap32 (m - d)) ↔
  d ≤ m ∧ m - d ≤ j < m + e.
Proof.
  intros Hm Hd He. rewrite elem_of_seqZ.
  rewrite (wrap32_small (m + e)) by lia.
  destruct (decide (d ≤ m)).
  - rewrite wrap32_small by lia. lia.
  - rewrite wrap32_neg by lia. lia.
Qed.

End MachineFacts.

Module TransformFacts.
Import Machine MachineFacts Transform.

Lemma foldl_paint_row md y xs acc :
  foldl (λ acc x, paint md y x acc) acc xs = acc ++ (xs ≫= cell md y).
Proof.
  revert acc. induction xs as [|x xs IH]; intros acc; simpl.
  - by rewrite app_nil_r.
  - rewrite IH. unfold paint. by rewrite <- app_assoc.
Qed.

Lemma foldl_paint_col md x ys acc :
  foldl (λ acc y, paint md y x acc) acc ys = acc ++ (ys ≫= λ y, cell md y x).
Proof.
  revert acc. induction ys as [|y ys IH]; intros acc; simpl.
  - by rewrite app_nil_r.
  - rewrite IH. unfold paint. by rewrite <- app_assoc.
Qed.

Lemma foldl_append {A B} (f : A → list B) (l : list A) acc :
  foldl (λ acc a, acc ++ f a) acc l = acc ++ (l ≫= f).
Proof.
  revert acc. induction l as [|a l IH]; intros acc; simpl.
  - by rewrite app_nil_r.
  - rewrite IH. by rewrite <- app_assoc.
Qed.

Lemma foldl_ext {A B} (f g : A → B → A) (l : list B) a :
  (∀ a b, f a b = g a b) → foldl f a l = foldl g a l.
Proof.
  intros Hfg. revert a. induction l as [|b l IH]; intros a; simpl; [done|].
  by rewrite Hfg, IH.
Qed.

Lemma wrap32_pos z : 0 ≤ wrap32 z < 2 ^ 32.
Proof. unfold wrap32. apply Z.mod_pos_bound. lia. Qed.

(** The store sequence, loop nests unrolled: the vertical bar row by row,
    then the horizontal bar column by column. *)
Lemma crosshair_stores_unfold md :
  crosshair_stores md =
    (vertical_rows md ≫= λ y, vertical_cols md ≫= λ x, cell md y x) ++
    (horizontal_cols md ≫= λ x, horizontal_rows md ≫= λ y, cell md y x).
Proof.
  unfold crosshair_stores.
  pose proof (wrap32_pos (height md / 2 - 100)).
  pose proof (wrap32_pos (height md / 2 + 100)).
  pose proof (wrap32_pos (width md / 2 - 100)).
  pose proof (wrap32_pos (width md / 2 + 100)).
  pose proof (wrap32_pos (height md / 2 - 2)).
  pose proof (wrap32_pos (height md / 2 + 2)).
  pose proof (wrap32_pos (width md / 2 - 2)).
  pose proof (wrap32_pos (width md / 2 + 2)).
  rewrite (for_u32_foldl (wrap32 (width md / 2 - 100))) by lia.
  rewrite (for_u32_foldl (wrap32 (height md / 2 - 100))) by lia.
  rewrite (foldl_ext _ (λ acc y, acc ++ (vertical_cols md ≫= λ x, cell md y x)) _ []).
  2:{ intros acc y. rewrite for_u32_foldl by lia. by rewrite foldl_paint_row. }
  rewrite (foldl_append (λ y, vertical_cols md ≫= λ x, cell md y x)). simpl.
  rewrite (foldl_ext _ (λ acc x, acc ++ (horizontal_rows md ≫= λ y, cell md y x))).
  2:{ intros acc x. rewrite for_u32_foldl by lia. by rewrite foldl_paint_col. }
  by rewrite (foldl_append (λ x, horizontal_rows md ≫= λ y, cell md y x)).
Qed.

Lemma elem_of_cell md y x op :
  op ∈ cell md y x ↔
  op = (index md y x 0, 0) ∨ op = (index md y x 1, 0) ∨ op = (index md y x 2, 255).
Proof. unfold cell. rewrite !elem_of_cons, elem_of_nil. tauto. Qed.

Lemma half_range z : u32 z → 0 ≤ z / 2 < 2 ^ 31.
Proof. unfold u32. intros. split; [apply Z.div_pos; lia|]. apply Z.div_lt_upper_bound; lia. Qed.

Lemma elem_of_crosshair_stores md op :
  metadata_wf md →
  op ∈ crosshair_stores md ↔
  ∃ y x, in_crosshair md y x ∧ op ∈ cell md y x.
Proof.
  intros (Hw & Hh & Hp).
  apply half_range in Hw, Hh.
  rewrite crosshair_stores_unfold, elem_of_app, !list_elem_of_bind.
  unfold in_crosshair, in_vertical_bar, in_horizontal_bar.
  split.
  - intros [(y & Hop & Hy) | (x & Hop & Hx)].
    + apply list_elem_of_bind in Hop as (x & Hop & Hx).
      apply elem_of_wrapped_range in Hy; [|lia..].
      apply elem_of_wrapped_range in Hx; [|lia..].
      exists y, x. split; [left; lia | done].
    + apply list_elem_of_bind in Hop as (y & Hop & Hy).
      apply elem_of_wrapped_range in Hy; [|lia..].
      apply elem_of_wrapped_range in Hx; [|lia..].
      exists y, x. split; [right; lia | done].
  - intros (y & x & [Hin | Hin] & Hop).
    + left. exists y. split.
      * apply list_elem_of_bind. exists x. split; [done|].
        apply elem_of_wrapped_range; lia.
      * apply elem_of_wrapped_range; lia.
    + right. exists x. split.
      * apply list_elem_of_bind. exists y. split; [done|].
        apply elem_of_wrapped_range; lia.
      * apply elem_of_wrapped_range; lia.
Qed.

(** The loops on concrete frames: a frame too small for a bar gets none of
    it, because the unsigned start of the loop wraps above its bound. *)
Example crosshair_stores_150x150 :
  crosshair_stores {| width := 150; height := 150; padding := 0 |} = [].
Proof. vm_compute. reflexivity. Qed.

Example crosshair_stores_3x480 :
  crosshair_stores {| width := 3; height := 480; padding := 0 |} = [].
Proof. vm_compute. reflexivity. Qed.

Example crosshair_stores_8x200 :
  (crosshair_stores {| width := 8; height := 200; padding := 1 |}).*1
    = (seqZ 0 200 ≫= λ y, seqZ (y * 25 + 6) 12).
Proof. vm_compute. reflexivity. Qed.

Example crosshair_stores_640x480 :
  length (crosshair_stores {| width := 640; height := 480; padding := 0 |}) = 4800%nat.
Proof. vm_compute. reflexivity. Qed.

(** The stride never wraps: [width * 3 + padding < 2^34]. *)
Lemma stride_exact md :
  metadata_wf md → stride md = width md * bpp + padding md.
Proof.
  unfold metadata_wf, u32, stride, bpp. intros (Hw & Hh & Hp).
  rewrite (wrap64_small (width md * 3)) by lia.
  apply wrap64_small. lia.
Qed.

Lemma index_wrap md y x c :
  index md y x c = wrap64 (y * stride md + x * bpp + c).
Proof.
  unfold index.
  rewrite wrap64_add_l, <- Z.add_assoc, wrap64_add_l, Z.add_assoc.
  rewrite (Z.add_comm (y * stride md)), <- Z.add_assoc, wrap64_add_l.
  f_equal. lia.
Qed.

Lemma crosshair_inside_frame md y x :
  metadata_wf md → in_crosshair md y x →
  0 ≤ y < height md ∧ 0 ≤ x < width md.
Proof.
  unfold metadata_wf, u32, in_crosshair, in_vertical_bar, in_horizontal_bar.
  intros (Hw & Hh & Hp) Hin.
  pose proof (Z.div_mod (height md) 2 ltac:(lia)).
  pose proof (Z.mod_pos_bound (height md) 2 ltac:(lia)).
  pose proof (Z.div_mod (width md) 2 ltac:(lia)).
  pose proof (Z.mod_pos_bound (width md) 2 ltac:(lia)).
  lia.
Qed.

(** A pixel byte lies before the end of its row, hence inside the frame. *)
Lemma pixel_offset_bound md y x c :
  metadata_wf md →
  0 ≤ y < height md → 0 ≤ x < width md → 0 ≤ c < bpp →
  0 ≤ y * (width md * bpp + padding md) + x * bpp + c
    < height md * (width md * bpp + padding md).
Proof.
  unfold metadata_wf, u32, bpp. intros (Hw & Hh & Hp) Hy Hx Hc.
  set (s := width md * 3 + padding md).
  assert (0 ≤ s) by (unfold s; lia).
  assert (x * 3 + c < s) by (unfold s; lia).
  split; [nia|].
  assert ((y + 1) * s ≤ height md * s) by (apply Z.mul_le_mono_nonneg_r; lia).
  lia.
Qed.

Lemma crosshair_stores_in_frame md i v :
  metadata_wf md →
  (i, v) ∈ crosshair_stores md →
  0 ≤ i < height md * (width md * bpp + padding md).
Proof.
  intros Hwf Hin.
  apply elem_of_crosshair_stores in Hin as (y & x & Hcross & Hcell); [|done].
  destruct (crosshair_inside_frame md y x Hwf Hcross) as [Hy Hx].
  assert (∃ c, 0 ≤ c < bpp ∧ i = index md y x c) as (c & Hc & ->).
  { apply elem_of_cell in Hcell as [H|[H|H]]; inversion H; subst;
      [exists 0 | exists 1 | exists 2]; unfold bpp; split; (lia || done). }
  rewrite index_wrap, stride_exact by done.
  pose proof (pixel_offset_bound md y x c Hwf Hy Hx Hc) as Hoff.
  pose proof (wrap64_range (y * (width md * bpp + padding md) + x * bpp + c)).
  pose proof (wrap64_le (y * (width md * bpp + padding md) + x * bpp + c) ltac:(lia)).
  lia.
Qed.

(** *** Effect of the stores on the buffer *)

Lemma store_Some buf op :
  0 ≤ op.1 < Z.of_nat (length buf) →
  store buf op = Some (<[Z.to_nat op.1 := op.2]> buf).
Proof. intros. unfold store. by rewrite decide_True. Qed.

Lemma store_inv buf op out :
  store buf op = Some out →
  0 ≤ op.1 < Z.of_nat (length buf) ∧ out = <[Z.to_nat op.1 := op.2]> buf.
Proof. unfold store. case_decide; [|done]. by intros [= <-]. Qed.

Lemma run_stores_Some ops buf :
  Forall (λ op, 0 ≤ op.1 < Z.of_nat (length buf)) ops →
  ∃ out, run_stores ops buf = Some out ∧ length out = length buf.
Proof.
  revert buf. induction ops as [|op ops IH]; intros buf Hall; simpl.
  - by exists buf.
  - apply Forall_cons in Hall as [Hop Hall].
    rewrite store_Some by done.
    destruct (IH (<[Z.to_nat op.1 := op.2]> buf)) as (out & Hrun & Hlen).
    { by rewrite length_insert. }
    exists out. split; [done|]. by rewrite Hlen, length_insert.
Qed.

(** A byte no store addresses keeps its value. *)
Lemma run_stores_unwritten ops buf out i :
  run_stores ops buf = Some out →
  0 ≤ i →
  (∀ v, (i, v) ∉ ops) →
  out !! Z.to_nat i = buf !! Z.to_nat i.
Proof.
  revert buf. induction ops as [|op ops IH]; intros buf Hrun Hi Hnot; simpl in *.
  - by simplify_eq.
  - destruct (store buf op) as [buf1|] eqn:Hst; [|done].
    apply store_inv in Hst as [Hop ->].
    rewrite (IH _ Hrun Hi).
    + apply list_lookup_insert_ne.
      intros Heq. apply (Hnot op.2). destruct op as [j v]; simpl in *.
      assert (j = i) as -> by lia. left.
    + intros v Hin. apply (Hnot v). by right.
Qed.

(** A byte that is stored to ends with the stored value, provided all
    stores to it agree. *)
Lemma run_stores_written ops buf out i v :
  run_stores ops buf = Some out →
  (i, v) ∈ ops →
  (∀ v', (i, v') ∈ ops → v' = v) →
  out !! Z.to_nat i = Some v.
Proof.
  revert buf. induction ops as [|op ops IH]; intros buf Hrun Hin Hsame; simpl in *.
  - by apply elem_of_nil in Hin.
  - destruct (store buf op) as [buf1|] eqn:Hst; [|done].
    apply store_inv in Hst as [Hop ->].
    destruct (decide (i ∈ ops.*1)) as [Hlater|Hlast].
    + apply list_elem_of_fmap in Hlater as ([j v'] & -> & Hin').
      simpl. rewrite (Hsame v') in Hin' by (by right).
      apply (IH _ Hrun Hin'). intros v'' ?. apply Hsame. by right.
    + apply elem_of_cons in Hin as [<-|Hin].
      * simpl in *. rewrite (run_stores_unwritten _ _ _ i Hrun); [|lia|].
        -- apply list_lookup_insert_eq. lia.
        -- intros v' Hv'. apply Hlast. apply list_elem_of_fmap. by exists (i, v').
      * exfalso. apply Hlast. apply list_elem_of_fmap. by exists (i, v).
Qed.

(** For a frame that fits in the address space the subscripts are exact. *)
Lemma index_exact md y x c :
  metadata_wf md →
  height md * (width md * bpp + padding md) ≤ 2 ^ 64 →
  0 ≤ y < height md → 0 ≤ x < width md → 0 ≤ c < bpp →
  index md y x c = y * (width md * bpp + padding md) + x * bpp + c.
Proof.
  intros Hwf Hfit Hy Hx Hc.
  rewrite index_wrap, stride_exact by done.
  pose proof (pixel_offset_bound md y x c Hwf Hy Hx Hc).
  apply wrap64_small. lia.
Qed.

(** Row, column and channel are determined by the byte offset. *)
Lemma pixel_offset_inj md y x c y' x' c' :
  metadata_wf md →
  0 ≤ y → 0 ≤ x < width md → 0 ≤ c < bpp →
  0 ≤ y' → 0 ≤ x' < width md → 0 ≤ c' < bpp →
  y * (width md * bpp + padding md) + x * bpp + c
    = y' * (width md * bpp + padding md) + x' * bpp + c' →
  y = y' ∧ x = x' ∧ c = c'.
Proof.
  unfold metadata_wf, u32, bpp. intros (Hw & Hh & Hp) Hy Hx Hc Hy' Hx' Hc' Heq.
  set (s := width md * 3 + padding md) in *.
  assert (0 ≤ x * 3 + c < s) by (unfold s; lia).
  assert (0 ≤ x' * 3 + c' < s) by (unfold s; lia).
  assert (y = y') by nia.
  subst y'. lia.
Qed.

Lemma elem_of_crosshair_stores_exact md i v :
  metadata_wf md →
  height md * (width md * bpp + padding md) ≤ 2 ^ 64 →
  (i, v) ∈ crosshair_stores md ↔
  ∃ y x c, in_crosshair md y x ∧ 0 ≤ c < bpp ∧
           i = y * (width md * bpp + padding md) + x * bpp + c ∧
           v = colour c.
Proof.
  intros Hwf Hfit. rewrite elem_of_crosshair_stores by done. split.
  - intros (y & x & Hcross & Hcell).
    destruct (crosshair_inside_frame md y x Hwf Hcross) as [Hy Hx].
    apply elem_of_cell in Hcell as [H|[H|H]]; inversion H; subst;
      [exists y, x, 0 | exists y, x, 1 | exists y, x, 2];
      (split; [done|]); (split; [unfold bpp; lia|]);
      (split; [apply index_exact; unfold bpp; (done || lia) | done]).
  - intros (y & x & c & Hcross & Hc & Hi & Hv). subst i v.
    destruct (crosshair_inside_frame md y x Hwf Hcross) as [Hy Hx].
    exists y, x. split; [done|].
    rewrite <- (index_exact md y x c) by done.
    apply elem_of_cell. unfold bpp in Hc.
    assert (c = 0 ∨ c = 1 ∨ c = 2) as [-> | [-> | ->]] by lia; auto.
Qed.

(** The transform on a buffer that holds the whole frame: it is defined,
    every byte of a crosshair pixel gets the overlay colour, and every
    other byte of the buffer is left as it was. *)
Lemma draw_crosshair_spec md buf :
  metadata_wf md →
  height md * (width md * bpp + padding md) ≤ 2 ^ 64 →
  height md * (width md * bpp + padding md) ≤ Z.of_nat (length buf) →
  ∃ out,
    draw_crosshair md buf = Some out ∧
    length out = length buf ∧
    (∀ y x c, in_crosshair md y x → 0 ≤ c < bpp →
       out !! Z.to_nat (y * (width md * bpp + padding md) + x * bpp + c)
         = Some (colour c)) ∧
    (∀ i, 0 ≤ i →
       (∀ y x c, in_crosshair md y x → 0 ≤ c < bpp →
          i ≠ y * (width md * bpp + padding md) + x * bpp + c) →
       out !! Z.to_nat i = buf !! Z.to_nat i).
Proof.
  intros Hwf Hfit Hcap. unfold draw_crosshair.
  destruct (run_stores_Some (crosshair_stores md) buf) as (out & Hrun & Hlen).
  { apply Forall_forall. intros [i v] Hin. simpl.
    pose proof (crosshair_stores_in_frame md i v Hwf Hin). lia. }
  exists out. split; [done|]. split; [done|]. split.
  - intros y x c Hcross Hc.
    apply (run_stores_written _ _ _ _ _ Hrun).
    + apply elem_of_crosshair_stores_exact; [done..|]. by exists y, x, c.
    + intros v' Hin.
      apply elem_of_crosshair_stores_exact in Hin
        as (y' & x' & c' & Hcross' & Hc' & Heq & Hv'); [|done..]. subst v'.
      destruct (crosshair_inside_frame md y x Hwf Hcross) as [Hy Hx].
      destruct (crosshair_inside_frame md y' x' Hwf Hcross') as [Hy' Hx'].
      apply pixel_offset_inj in Heq as (_ & _ & ->); (done || lia).
  - intros i Hi Hnot.
    apply (run_stores_unwritten _ _ _ _ Hrun Hi).
    intros v Hin.
    apply elem_of_crosshair_stores_exact in Hin
      as (y & x & c & Hcross & Hc & Heq & _); [|done..].
    by apply (Hnot y x c).
Qed.

(** C5. Whatever the metadata, the stride the code computes is
    [width * 3 + padding], and every byte index the transform touches (it
    only writes) lies in [[0, height * stride)] and is the subscript
    [row * stride + col * 3 + channel] of a pixel of the frame
    ([row < height], [col < width], [channel < 3]) as the code evaluates it
    in [size_t]; for every frame of at most [2^64] bytes that subscript is
    the exact integer, without wrap-around. *)
Theorem crosshair_stores_within_frame md i v :
  metadata_wf md →
  (i, v) ∈ crosshair_stores md →
  stride md = width md * bpp + padding md ∧
  0 ≤ i < height md * stride md ∧
  ∃ row col ch,
    0 ≤ row < height md ∧ 0 ≤ col < width md ∧ 0 ≤ ch < bpp ∧
    i = wrap64 (row * stride md + col * bpp + ch) ∧
    (height md * stride md ≤ 2 ^ 64 → i = row * stride md + col * bpp + ch).
Proof.
  intros Hwf Hin.
  split; [by apply stride_exact|].
  apply elem_of_crosshair_stores in Hin as (y & x & Hcross & Hcell); [|done].
  destruct (crosshair_inside_frame md y x Hwf Hcross) as [Hy Hx].
  assert (∃ c, 0 ≤ c < bpp ∧ i = index md y x c) as (c & Hc & ->).
  { apply elem_of_cell in Hcell as [H|[H|H]]; inversion H; subst;
      [exists 0 | exists 1 | exists 2]; unfold bpp; split; (lia || done). }
  rewrite index_wrap, stride_exact by done.
  pose proof (pixel_offset_bound md y x c Hwf Hy Hx Hc) as Hoff.
  pose proof (wrap64_range (y * (width md * bpp + padding md) + x * bpp + c)).
  pose proof (wrap64_le (y * (width md * bpp + padding md) + x * bpp + c) ltac:(lia)).
  split; [lia|].
  exists y, x, c. repeat split; try lia.
  intros Hfit. apply wrap64_small. lia.
Qed.

Lemma crosshair_stores_within_frame_witness :
  metadata_wf vga ∧
  (140 * 1920 + 318 * 3 + 2, 255) ∈ crosshair_stores vga ∧
  0 ≤ 140 * 1920 + 318 * 3 + 2 < height vga * stride vga.
Proof.
  assert (Hwf : metadata_wf vga).
  { unfold metadata_wf, u32, vga; simpl; lia. }
  assert (Hin : (140 * 1920 + 318 * 3 + 2, 255) ∈ crosshair_stores vga).
  { apply elem_of_crosshair_stores; [done|].
    exists 140, 318. split.
    - left. unfold in_vertical_bar, vga. simpl width; simpl height.
      change (480 / 2) with 240. change (640 / 2) with 320. lia.
    - apply elem_of_cell. right; right. reflexivity. }
  split; [exact Hwf|]. split; [exact Hin|].
  exact (proj1 (proj2 (crosshair_stores_within_frame _ _ _ Hwf Hin))).
Defined.

End TransformFacts.

Module HandoffFacts.
Import Machine MachineFacts Transform TransformFacts Json Handoff.

Lemma chain_at_emit key evs w : chain_at key (emit evs w) = chain_at key w.
Proof. done. Qed.

Lemma string_app_assoc (a b c : string) : (a +:+ b) +:+ c = a +:+ (b +:+ c).
Proof.
  induction a as [|x a IH]; [done|].
  change (String x ((a +:+ b) +:+ c) = String x (a +:+ (b +:+ c))).
  by rewrite IH.
Qed.

Lemma size_mismatch_message_contains buffer_size size :
  contains (decimal buffer_size) (size_mismatch_message buffer_size size) ∧
  contains (decimal size) (size_mismatch_message buffer_size size).
Proof.
  unfold size_mismatch_message, contains. split.
  - exists "Got import buffer size less than export buffer size (",
           (" < " +:+ decimal size +:+ ")").
    by rewrite ?string_app_assoc.
  - exists ("Got import buffer size less than export buffer size ("
              +:+ decimal buffer_size +:+ " < "), ")".
    by rewrite ?string_app_assoc.
Qed.

(** C3, as amended. When the lease yields no buffer, the callback returns
    after the single [get_import_buffer] call: it takes no lock, enqueues
    nothing, copies nothing, releases nothing and writes no log entry. *)
Theorem export_callback_no_buffer c data size metadata w :
  chains w !! "import" = Some (Some c) →
  export_callback None data size metadata w
    = Done (emit [GetImportBuffer c "importer"] w).
Proof.
  intros Hc. unfold export_callback, callback_lease, chain_at. by rewrite Hc.
Qed.

Lemma export_callback_no_buffer_witness :
  chains sample_world !! "import" = Some (Some 0%nat) ∧
  export_callback None [1; 2; 3] 3 sample_metadata sample_world
    = Done (emit [GetImportBuffer 0%nat "importer"] sample_world).
Proof.
  split; [reflexivity|].
  apply (export_callback_no_buffer 0%nat [1; 2; 3] 3 sample_metadata sample_world).
  reflexivity.
Defined.

(** C3 as stated fails: on a null lease the callback reports nothing; the
    only event of the invocation is the lease request itself. *)
Lemma export_callback_no_buffer_silent :
  ∃ w', export_callback None [1; 2; 3] 3 sample_metadata sample_world = Done w' ∧
        events w' = [GetImportBuffer 0%nat "importer"] ∧
        ¬ ∃ level component message, Log level component message ∈ events w'.
Proof.
  eexists. split; [reflexivity|]. split; [reflexivity|].
  intros (level & component & message & Hin).
  simpl in Hin. apply list_elem_of_singleton in Hin. discriminate.
Qed.

(** C4. A leased buffer of capacity [C] and a frame of size [S > C]: the
    heap and the queue are left as they were (no copy, no enqueue), the
    error is logged with a message containing the decimal digits of both
    [C] and [S], and the buffer is released to the import chain. *)
Theorem export_callback_capacity_mismatch c buffer C S data metadata w :
  chains w !! "import" = Some (Some c) →
  C < S →
  ∃ w' message,
    export_callback (Some (buffer, C)) data S metadata w = Done w' ∧
    heap w' = heap w ∧
    processing_queue w' = processing_queue w ∧
    events w' = events w ++
      [GetImportBuffer c "importer";
       Log error "imagefiltercpp" message;
       ReleaseBuffer c "importer" buffer] ∧
    contains (decimal C) message ∧ contains (decimal S) message.
Proof.
  intros Hc Hlt.
  exists (emit [ReleaseBuffer c "importer" buffer]
           (emit [Log error "imagefiltercpp" (size_mismatch_message C S)]
             (emit [GetImportBuffer c "importer"] w))),
         (size_mismatch_message C S).
  split.
  - unfold export_callback, callback_lease, chain_at. rewrite Hc. simpl.
    rewrite decide_False by lia. simpl. by rewrite Hc.
  - repeat split; try done.
    + simpl. by rewrite <- !app_assoc.
    + apply size_mismatch_message_contains.
    + apply size_mismatch_message_contains.
Qed.

Lemma export_callback_capacity_mismatch_witness :
  ∃ w' message,
    export_callback (Some (1%positive, 8)) [1; 2; 3; 4; 5; 6; 7; 8; 9] 9
      sample_metadata sample_world = Done w' ∧
    heap w' = heap sample_world ∧
    processing_queue w' = processing_queue sample_world ∧
    events w' = events sample_world ++
      [GetImportBuffer 0%nat "importer";
       Log error "imagefiltercpp" message;
       ReleaseBuffer 0%nat "importer" 1%positive] ∧
    contains (decimal 8) message ∧ contains (decimal 9) message.
Proof.
  apply (export_callback_capacity_mismatch 0%nat 1%positive 8 9
           [1; 2; 3; 4; 5; 6; 7; 8; 9] sample_metadata sample_world).
  - reflexivity.
  - lia.
Defined.

Lemma memcpy_spec dst src n :
  0 ≤ n ≤ Z.of_nat (length dst) → n ≤ Z.of_nat (length src) →
  ∃ filled,
    memcpy dst src n = Some filled ∧
    length filled = length dst ∧
    take (Z.to_nat n) filled = take (Z.to_nat n) src ∧
    drop (Z.to_nat n) filled = drop (Z.to_nat n) dst.
Proof.
  intros Hdst Hsrc. unfold memcpy. rewrite decide_True by done.
  eexists. split; [done|].
  assert (Hlen : length (take (Z.to_nat n) src) = Z.to_nat n).
  { rewrite length_take. lia. }
  split; [|split].
  - rewrite length_app, length_drop, Hlen. lia.
  - by rewrite take_app_length'.
  - by rewrite drop_app_length'.
Qed.

Lemma callback_fill_run c buffer C S data metadata w buf :
  chains w !! "import" = Some (Some c) →
  heap w !! buffer = Some buf →
  Z.of_nat (length buf) = C →
  0 ≤ S ≤ C →
  S ≤ Z.of_nat (length data) →
  ∃ filled,
    length filled = length buf ∧
    take (Z.to_nat S) filled = take (Z.to_nat S) data ∧
    drop (Z.to_nat S) filled = drop (Z.to_nat S) buf ∧
    callback_lease (Some (buffer, C)) data S metadata w
      = Done (ToEnqueue buffer metadata, filled_world c buffer S filled w) ∧
    export_callback (Some (buffer, C)) data S metadata w
      = Done (callback_notify
                (callback_enqueue buffer metadata
                   (filled_world c buffer S filled w))).
Proof.
  intros Hc Hbuf Hcap HS Hdata.
  destruct (memcpy_spec buf data S) as (filled & Hcpy & Hlen & Htake & Hdrop);
    [lia | lia |].
  assert (Hlease : callback_lease (Some (buffer, C)) data S metadata w
    = Done (ToEnqueue buffer metadata, filled_world c buffer S filled w)).
  { unfold callback_lease, chain_at, filled_world. rewrite Hc. simpl.
    rewrite decide_True by lia. rewrite Hbuf. simpl. rewrite Hcpy.
    do 4 f_equal. apply map_eq. intros k.
    rewrite lookup_alter, lookup_insert. simpl.
    case_decide; subst; [by rewrite Hbuf | done]. }
  exists filled. repeat split; try done.
  unfold export_callback. rewrite Hlease. reflexivity.
Qed.

(** *** A frame taken through the callback and one worker iteration *)

Lemma deliver_spec c buffer C S data metadata w buf :
  chains w !! "import" = Some (Some c) →
  heap w !! buffer = Some buf →
  Z.of_nat (length buf) = C →
  processing_queue w = [] →
  metadata_wf metadata →
  height metadata * (width metadata * bpp + padding metadata) ≤ S →
  S ≤ C → S ≤ Z.of_nat (length data) → S ≤ 2 ^ 64 →
  ∃ out w',
    deliver (Some (buffer, C)) data S metadata w = Done w' ∧
    heap w' = <[buffer := out]> (heap w) ∧
    processing_queue w' = [] ∧
    events w' = events w ++
      [GetImportBuffer c "importer"; Memcpy buffer S;
       Lock; Emplace buffer metadata; Unlock; NotifyAll;
       Pop buffer metadata; Unlock;
       PushImportBuffer c "importer" buffer metadata; Lock] ∧
    length out = length buf ∧
    (∀ y x ch, in_crosshair metadata y x → 0 ≤ ch < bpp →
       out !! Z.to_nat (y * (width metadata * bpp + padding metadata) + x * bpp + ch)
         = Some (colour ch)) ∧
    (∀ i, 0 ≤ i < S →
       (∀ y x ch, in_crosshair metadata y x → 0 ≤ ch < bpp →
          i ≠ y * (width metadata * bpp + padding metadata) + x * bpp + ch) →
       out !! Z.to_nat i = data !! Z.to_nat i) ∧
    (∀ i, S ≤ i → out !! Z.to_nat i = buf !! Z.to_nat i).
Proof.
  intros Hc Hbuf Hcap Hq Hwf Hframe HSC HSdata HS64.
  assert (0 ≤ height metadata * (width metadata * bpp + padding metadata)).
  { destruct Hwf as (Hw & Hh & Hp). unfold u32, bpp in *. nia. }
  destruct (callback_fill_run c buffer C S data metadata w buf)
    as (filled & Hlen & Htake & Hdrop & _ & Hcb); [done | done | done | lia | done |].
  destruct (draw_crosshair_spec metadata filled)
    as (out & Hdraw & Hlen' & Hpainted & Hkept); [done | lia | lia |].
  exists out.
  eexists. split; [|split; [|split; [|split; [|split; [|split; [|split]]]]]].
  - unfold deliver. rewrite Hcb. simpl.
    unfold worker_iteration, worker_pop. simpl. rewrite Hq. simpl.
    unfold worker_process. simpl. rewrite lookup_insert_eq. simpl.
    rewrite Hdraw. simpl. unfold chain_at. simpl. rewrite Hc. simpl.
    reflexivity.
  - simpl. apply map_eq. intros k. rewrite lookup_alter, !lookup_insert. simpl.
    repeat case_decide; by simplify_eq.
  - done.
  - simpl. by rewrite <- !app_assoc.
  - by rewrite Hlen'.
  - done.
  - intros i Hi Hnot. rewrite (Hkept i) by (lia || done).
    rewrite <- (lookup_take_lt filled (Z.to_nat S)) by lia.
    rewrite Htake. apply lookup_take_lt. lia.
  - intros i Hi. rewrite (Hkept i).
    + rewrite <- (Nat.sub_add (Z.to_nat S) (Z.to_nat i)) by lia.
      rewrite Nat.add_comm, <- !lookup_drop. by rewrite Hdrop.
    + lia.
    + intros y x ch Hcross Hch ->.
      destruct (crosshair_inside_frame metadata y x Hwf Hcross) as [Hy Hx].
      pose proof (pixel_offset_bound metadata y x ch Hwf Hy Hx Hch). lia.
Qed.

Lemma vga_wf : metadata_wf vga.
Proof. unfold metadata_wf, u32, vga; simpl; lia. Qed.

Lemma in_crosshair_vga y x : in_crosshair vga y x ↔ vga_crosshair y x.
Proof.
  unfold in_crosshair, in_vertical_bar, in_horizontal_bar, vga_crosshair, vga.
  simpl. change (480 / 2) with 240. change (640 / 2) with 320. lia.
Qed.

(** The overlay is the crosshair, not the square around it. *)
Lemma vga_crosshair_in_square y x : vga_crosshair y x → vga_central_square y x.
Proof. unfold vga_crosshair, vga_central_square. lia. Qed.

Lemma vga_crosshair_in_frame y x : vga_crosshair y x → 0 ≤ x < 640.
Proof. unfold vga_crosshair. lia. Qed.

(** In a 640x480 frame without padding the byte offset determines the
    pixel. *)
Lemma vga_offset_inj y x ch y' x' ch' :
  0 ≤ x < 640 → 0 ≤ ch < 3 → 0 ≤ x' < 640 → 0 ≤ ch' < bpp →
  y * (width vga * bpp + padding vga) + x * bpp + ch
    = y' * (width vga * bpp + padding vga) + x' * bpp + ch' →
  y = y' ∧ x = x'.
Proof. unfold vga, bpp. simpl. lia. Qed.

Lemma grey_frame_length : Z.of_nat (length grey_frame) = 921600.
Proof. unfold grey_frame. rewrite length_replicate. lia. Qed.

Lemma grey_frame_lookup i : 0 ≤ i < 921600 → grey_frame !! Z.to_nat i = Some 7.
Proof. intros. unfold grey_frame. apply lookup_replicate_2. lia. Qed.

Lemma blank_buffer_length : Z.of_nat (length blank_buffer) = 921600.
Proof. unfold blank_buffer. rewrite length_replicate. lia. Qed.

Lemma vga_world_buffer : heap vga_world !! 1%positive = Some blank_buffer.
Proof. reflexivity. Qed.

(** C6, as amended. A 640x480 frame with stride 1920 delivered through
    the callback into a leased buffer that can hold it is forwarded with
    the crosshair drawn on it: on the two centred bars (4x200 and 200x4
    pixels) channel 2 is 255 and channels 0 and 1 are 0; every other byte
    of the frame, inside or outside the central 200x200 square, equals the
    byte delivered. *)
Theorem vga_frame_overlay c buffer C data w buf :
  chains w !! "import" = Some (Some c) →
  heap w !! buffer = Some buf →
  Z.of_nat (length buf) = C →
  processing_queue w = [] →
  Z.of_nat (length data) = 921600 →
  921600 ≤ C →
  ∃ out w',
    deliver (Some (buffer, C)) data 921600 vga w = Done w' ∧
    heap w' !! buffer = Some out ∧
    PushImportBuffer c "importer" buffer vga ∈ events w' ∧
    ∀ y x ch, 0 ≤ y < 480 → 0 ≤ x < 640 → 0 ≤ ch < 3 →
      (vga_crosshair y x →
         out !! Z.to_nat (y * 1920 + x * 3 + ch) = Some (colour ch)) ∧
      (¬ vga_crosshair y x →
         out !! Z.to_nat (y * 1920 + x * 3 + ch)
           = data !! Z.to_nat (y * 1920 + x * 3 + ch)).
Proof.
  intros Hc Hbuf Hcap Hq Hdata HC.
  destruct (deliver_spec c buffer C 921600 data vga w buf)
    as (out & w' & Hrun & Hheap & _ & Hev & _ & Hpainted & Hkept & _);
    [done | done | done | done | apply vga_wf
    | unfold vga, bpp; simpl; lia | lia | lia | lia |].
  exists out, w'. split; [done|]. split; [|split].
  - rewrite Hheap. apply lookup_insert_eq.
  - rewrite Hev. apply elem_of_app. right.
    rewrite !elem_of_cons. tauto.
  - intros y x ch Hy Hx Hch. split.
    + intros Hcross. apply in_crosshair_vga in Hcross.
      specialize (Hpainted y x ch Hcross). unfold vga, bpp in Hpainted.
      simpl in Hpainted.
      replace (y * 1920 + x * 3 + ch) with (y * (640 * 3 + 0) + x * 3 + ch) by lia.
      apply Hpainted. lia.
    + intros Hnot. apply Hkept; [lia|].
      intros y' x' ch' Hcross' Hch' Heq.
      apply in_crosshair_vga in Hcross'.
      destruct (vga_offset_inj y x ch y' x' ch') as [-> ->];
        [lia | lia | by apply (vga_crosshair_in_frame y') | done | done |].
      done.
Qed.

Lemma vga_frame_overlay_witness :
  ∃ out w',
    deliver (Some (1%positive, 921600)) grey_frame 921600 vga vga_world = Done w' ∧
    heap w' !! 1%positive = Some out ∧
    PushImportBuffer 0%nat "importer" 1%positive vga ∈ events w' ∧
    ∀ y x ch, 0 ≤ y < 480 → 0 ≤ x < 640 → 0 ≤ ch < 3 →
      (vga_crosshair y x →
         out !! Z.to_nat (y * 1920 + x * 3 + ch) = Some (colour ch)) ∧
      (¬ vga_crosshair y x →
         out !! Z.to_nat (y * 1920 + x * 3 + ch)
           = grey_frame !! Z.to_nat (y * 1920 + x * 3 + ch)).
Proof.
  apply (vga_frame_overlay 0%nat 1%positive 921600 grey_frame vga_world
           blank_buffer).
  - reflexivity.
  - exact vga_world_buffer.
  - exact blank_buffer_length.
  - reflexivity.
  - exact grey_frame_length.
  - lia.
Defined.

(** C6 as stated fails: pixel (220, 140) is a corner of the central
    200x200 square, and its channel 2 is forwarded as delivered (7), not
    as 255. *)
Lemma vga_square_corner_untouched :
  ∃ out w',
    deliver (Some (1%positive, 921600)) grey_frame 921600 vga vga_world = Done w' ∧
    heap w' !! 1%positive = Some out ∧
    vga_central_square 140 220 ∧
    out !! Z.to_nat (140 * 1920 + 220 * 3 + 2) = Some 7 ∧
    out !! Z.to_nat (140 * 1920 + 220 * 3 + 2) ≠ Some 255.
Proof.
  destruct (deliver_spec 0%nat 1%positive 921600 921600 grey_frame vga vga_world
              blank_buffer)
    as (out & w' & Hrun & Hheap & _ & _ & _ & _ & Hkept & _);
    [ reflexivity | exact vga_world_buffer | exact blank_buffer_length
    | reflexivity | apply vga_wf | unfold vga, bpp; simpl; lia | lia
    | rewrite grey_frame_length; lia | lia |].
  exists out, w'. split; [exact Hrun|]. split.
  { rewrite Hheap. apply lookup_insert_eq. }
  split; [unfold vga_central_square; lia|].
  rewrite Hkept, grey_frame_lookup.
  - split; [reflexivity | intros [=]].
  - lia.
  - lia.
  - intros y x ch Hcross Hch Heq.
    apply in_crosshair_vga in Hcross.
    destruct (vga_offset_inj 140 220 2 y x ch) as [<- <-];
      [lia | lia | by apply (vga_crosshair_in_frame y) | done | done |].
    unfold vga_crosshair in Hcross. lia.
Qed.

(** C8. A leased buffer of capacity [C >= S]: the first [S] bytes of the
    buffer become the first [S] bytes of the frame and the rest of the
    buffer is untouched; this is already so when the callback reaches its
    critical section, where the queue is still as it was; then the entry
    is appended to the queue under the lock, and [notify_all] comes last. *)
Theorem export_callback_copies c buffer C S data metadata w buf :
  chains w !! "import" = Some (Some c) →
  heap w !! buffer = Some buf →
  Z.of_nat (length buf) = C →
  0 ≤ S ≤ C →
  S ≤ Z.of_nat (length data) →
  ∃ filled w1 w',
    callback_lease (Some (buffer, C)) data S metadata w
      = Done (ToEnqueue buffer metadata, w1) ∧
    heap w1 = <[buffer := filled]> (heap w) ∧
    processing_queue w1 = processing_queue w ∧
    length filled = length buf ∧
    take (Z.to_nat S) filled = take (Z.to_nat S) data ∧
    drop (Z.to_nat S) filled = drop (Z.to_nat S) buf ∧
    export_callback (Some (buffer, C)) data S metadata w = Done w' ∧
    heap w' = heap w1 ∧
    processing_queue w' = processing_queue w ++ [(buffer, metadata)] ∧
    events w' = events w ++
      [GetImportBuffer c "importer"; Memcpy buffer S;
       Lock; Emplace buffer metadata; Unlock; NotifyAll].
Proof.
  intros Hc Hbuf Hcap HS Hdata.
  destruct (callback_fill_run c buffer C S data metadata w buf)
    as (filled & Hlen & Htake & Hdrop & Hlease & Hcb); [done..|].
  exists filled, (filled_world c buffer S filled w),
    (callback_notify (callback_enqueue buffer metadata
       (filled_world c buffer S filled w))).
  repeat split; try done.
  simpl. by rewrite <- !app_assoc.
Qed.

Lemma export_callback_copies_witness :
  ∃ filled w1 w',
    callback_lease (Some (1%positive, 8)) [1; 2; 3; 4; 5; 6] 6 sample_metadata
      sample_world = Done (ToEnqueue 1%positive sample_metadata, w1) ∧
    heap w1 = <[1%positive := filled]> (heap sample_world) ∧
    processing_queue w1 = processing_queue sample_world ∧
    length filled = length [10; 11; 12; 13; 14; 15; 16; 17] ∧
    take (Z.to_nat 6) filled = take (Z.to_nat 6) [1; 2; 3; 4; 5; 6] ∧
    drop (Z.to_nat 6) filled = drop (Z.to_nat 6) [10; 11; 12; 13; 14; 15; 16; 17] ∧
    export_callback (Some (1%positive, 8)) [1; 2; 3; 4; 5; 6] 6 sample_metadata
      sample_world = Done w' ∧
    heap w' = heap w1 ∧
    processing_queue w' = processing_queue sample_world ++ [(1%positive, sample_metadata)] ∧
    events w' = events sample_world ++
      [GetImportBuffer 0%nat "importer"; Memcpy 1%positive 6;
       Lock; Emplace 1%positive sample_metadata; Unlock; NotifyAll].
Proof.
  apply (export_callback_copies 0%nat 1%positive 8 6 [1; 2; 3; 4; 5; 6]
           sample_metadata sample_world [10; 11; 12; 13; 14; 15; 16; 17]).
  - reflexivity.
  - reflexivity.
  - reflexivity.
  - lia.
  - simpl. lia.
Defined.

End HandoffFacts.

Module WorkerFacts.
Import Machine Transform Handoff HandoffFacts Worker.

Lemma run_reachable actions s s' :
  reachable s → run actions s = Some s' → reachable s'.
Proof.
  revert s. induction actions as [|a rest IH]; intros s Hs Hrun; simpl in Hrun.
  - by simplify_eq.
  - destruct (step a s) as [s1|] eqn:Hstep; [|done].
    apply (IH s1); [|done]. by apply (reachable_step s a).
Qed.

Lemma quiet_enqueued evs new :
  forallb quiet_event new = true → enqueued (evs ++ new) = enqueued evs.
Proof.
  intros Hq. unfold enqueued. rewrite omap_app.
  rewrite <- (app_nil_r (omap _ evs)) at 2. f_equal.
  induction new as [|e new IH]; [done|].
  simpl in Hq. apply andb_prop in Hq as [He Hq].
  destruct e; simpl in *; try done; by apply IH.
Qed.

Lemma quiet_processed evs new :
  forallb quiet_event new = true → processed (evs ++ new) = processed evs.
Proof.
  intros Hq. unfold processed. rewrite omap_app.
  rewrite <- (app_nil_r (omap _ evs)) at 2. f_equal.
  induction new as [|e new IH]; [done|].
  simpl in Hq. apply andb_prop in Hq as [He Hq].
  destruct e; simpl in *; try done; by apply IH.
Qed.

Lemma quiet_forwarded evs new :
  forallb quiet_event new = true → forwarded (evs ++ new) = forwarded evs.
Proof.
  intros Hq. unfold forwarded. rewrite omap_app.
  rewrite <- (app_nil_r (omap _ evs)) at 2. f_equal.
  induction new as [|e new IH]; [done|].
  simpl in Hq. apply andb_prop in Hq as [He Hq].
  destruct e; simpl in *; try done; by apply IH.
Qed.

Lemma quiet_no_return new :
  forallb quiet_event new = true → WorkerReturn ∉ new.
Proof.
  intros Hq Hin. apply list_elem_of_In in Hin.
  rewrite forallb_forall in Hq. by specialize (Hq _ Hin).
Qed.

(** Events without a return keep what holds before the return. *)
Lemma drained_app evs new :
  WorkerReturn ∉ new →
  drained_before_return evs → drained_before_return (evs ++ new).
Proof.
  intros Hnew Hd pre post Heq.
  apply app_eq_inv in Heq as [(k & -> & Hpost) | (k & -> & Hnew')].
  - destruct k as [|e k]; simpl in Hpost.
    + exfalso. apply Hnew. rewrite <- Hpost. left.
    + injection Hpost as <- ->. by apply (Hd pre k).
  - exfalso. apply Hnew. rewrite Hnew'. apply elem_of_app. right. left.
Qed.

(** The return itself: what holds of all the events so far holds before it. *)
Lemma drained_return evs tail :
  WorkerReturn ∉ evs → WorkerReturn ∉ tail →
  forwarded evs = enqueued evs → SetStop ∈ evs →
  drained_before_return (evs ++ WorkerReturn :: tail).
Proof.
  intros Hevs Htail Hfwd Hstop pre post Heq.
  apply app_eq_inv in Heq as [(k & -> & Hpost) | (k & -> & Htail')].
  - destruct k as [|e k]; simpl in Hpost.
    + rewrite app_nil_r in Hfwd, Hstop. done.
    + injection Hpost as <- _. exfalso. apply Hevs.
      apply elem_of_app. right. left.
  - destruct k as [|e k]; simpl in Htail'.
    + rewrite app_nil_r. done.
    + injection Htail' as <- ->. exfalso. apply Htail.
      apply elem_of_app. right. left.
Qed.

(** The lease phase of the callback touches neither the queue nor the stop
    flag, and its events are quiet. *)
Lemma callback_lease_frame lease data size metadata w p w' :
  callback_lease lease data size metadata w = Done (p, w') →
  processing_queue w' = processing_queue w ∧
  stop_processing w' = stop_processing w ∧
  chains w' = chains w ∧
  ∃ new, events w' = events w ++ new ∧ forallb quiet_event new = true.
Proof.
  unfold callback_lease, chain_at. intros Hrun.
  destruct (chains w !! "import") as [[c|]|] eqn:Hc; simpl in Hrun; try done.
  destruct lease as [[buffer buffer_size]|].
  - case_decide.
    + destruct (memcpy _ data size) as [filled|]; [|done].
      injection Hrun as <- <-. simpl. repeat split; try done.
      exists [GetImportBuffer c "importer"; Memcpy buffer size].
      by rewrite <- app_assoc.
    + simpl in Hrun. rewrite Hc in Hrun. simpl in Hrun.
      injection Hrun as <- <-. simpl. repeat split; try done.
      eexists [GetImportBuffer c "importer"; Log error "imagefiltercpp" _;
               ReleaseBuffer c "importer" buffer].
      by rewrite <- !app_assoc.
  - injection Hrun as <- <-. simpl. repeat split; try done.
    by exists [GetImportBuffer c "importer"].
Qed.

Lemma worker_process_frame buffer metadata w w' :
  worker_process buffer metadata w = Done w' →
  processing_queue w' = processing_queue w ∧
  stop_processing w' = stop_processing w ∧
  chains w' = chains w ∧
  ∃ c, events w' = events w ++ [PushImportBuffer c "importer" buffer metadata].
Proof.
  unfold worker_process, chain_at. intros Hrun.
  destruct (draw_crosshair _ _) as [drawn|]; [|done]. simpl in Hrun.
  destruct (chains w !! "import") as [[c|]|] eqn:Hc; simpl in Hrun; try done.
  injection Hrun as <-. simpl. repeat split; try done. by exists c.
Qed.

Lemma invariant_boot registry memory : invariant (boot registry memory).
Proof.
  split; simpl; try done.
  - intros Hin. by apply elem_of_nil in Hin.
  - intros pre post Heq. by destruct pre.
Qed.

(** A step whose events are quiet and which leaves the queue, the stop
    flag and the entry in flight alone keeps the invariant. *)
Lemma invariant_quiet s s' new :
  invariant s →
  events (shared s') = events (shared s) ++ new →
  forallb quiet_event new = true →
  processing_queue (shared s') = processing_queue (shared s) →
  stop_processing (shared s') = stop_processing (shared s) →
  in_flight (worker s') = in_flight (worker s) →
  (worker s' = AtStopCheck → processing_queue (shared s') = []) →
  (worker s = Returned → worker s' = Returned) →
  invariant s'.
Proof.
  intros [Hcons Hproc Hchk Hstop Hret Hdr] Hev Hq Hqueue Hflag Hfl Hchk' Hret'.
  split.
  - rewrite Hev, quiet_enqueued, quiet_forwarded, Hfl, Hqueue by done. done.
  - rewrite Hev, quiet_processed, quiet_forwarded, Hfl by done. done.
  - done.
  - rewrite Hflag, Hev. intros H. apply elem_of_app. left. by apply Hstop.
  - rewrite Hev. intros Hin. apply elem_of_app in Hin as [Hin|Hin].
    + by apply Hret', Hret.
    + by apply quiet_no_return in Hin.
  - rewrite Hev. apply drained_app; [by apply quiet_no_return | done].
Qed.

Lemma holds_mutex_false_not_stop_check pc :
  holds_mutex pc = false → pc ≠ AtStopCheck.
Proof. by destruct pc. Qed.

Lemma in_flight_wake pc : in_flight (wake pc) = in_flight pc.
Proof. by destruct pc. Qed.

(** Every step keeps the invariant. *)
Lemma invariant_step s a s' :
  invariant s → step a s = Some s' → invariant s'.
Proof.
  intros Hinv Hstep. destruct a; simpl in Hstep.
  - (* the callback up to its critical section *)
    destruct (callback_lease _ _ _ _ _) as [[p w]|] eqn:Hlease; [|done].
    injection Hstep as <-.
    apply callback_lease_frame in Hlease as (Hq & Hflag & _ & new & Hev & Hquiet).
    apply (invariant_quiet s _ new Hinv); simpl; try done.
    + intros Hpc. rewrite Hq. by apply Hinv.
  - (* the critical section of the callback *)
    destruct (callbacks s !! k) as [[buffer metadata| |]|]; try done.
    destruct (holds_mutex (worker s)) eqn:Hmutex; [done|].
    injection Hstep as <-.
    destruct Hinv as [Hcons Hproc Hchk Hstop Hret Hdr].
    split; simpl.
    + unfold enqueued, forwarded in *. rewrite !omap_app, Hcons. simpl.
      by rewrite ?app_nil_r, <- ?app_assoc.
    + unfold processed, forwarded in *. rewrite !omap_app, Hproc. simpl.
      by rewrite ?app_nil_r, <- ?app_assoc.
    + intros Hpc. by apply holds_mutex_false_not_stop_check in Hmutex.
    + intros H. rewrite !elem_of_app. do 3 left. by apply Hstop.
    + rewrite !elem_of_app, !list_elem_of_singleton.
      intros [[[Hin|[=]]|[=]]|[=]]. by apply Hret.
    + rewrite <- !app_assoc. apply drained_app; [|done].
      simpl. rewrite !elem_of_cons, elem_of_nil.
      intros [?|[?|[?|[]]]]; discriminate.
  - (* the callback's notification *)
    destruct (callbacks s !! k) as [[buffer metadata| |]|]; try done.
    injection Hstep as <-.
    apply (invariant_quiet s _ [NotifyAll] Hinv); simpl; try done.
    + apply in_flight_wake.
    + intros Hpc. apply Hinv. by destruct (worker s).
    + by intros ->.
  - (* the main thread sets the stop flag *)
    destruct (main s); try done.
    destruct (holds_mutex (worker s)) eqn:Hmutex; [done|].
    injection Hstep as <-.
    destruct Hinv as [Hcons Hproc Hchk Hstop Hret Hdr].
    split; simpl.
    + unfold enqueued, forwarded in *. rewrite !omap_app, Hcons. simpl.
      by rewrite ?app_nil_r, <- ?app_assoc.
    + unfold processed, forwarded in *. rewrite !omap_app, Hproc. simpl.
      by rewrite ?app_nil_r, <- ?app_assoc.
    + intros Hpc. by apply holds_mutex_false_not_stop_check in Hmutex.
    + intros _. rewrite !elem_of_app, !list_elem_of_singleton. left. by right.
    + rewrite !elem_of_app, !list_elem_of_singleton.
      intros [[[Hin|[=]]|[=]]|[=]]. by apply Hret.
    + rewrite <- !app_assoc. apply drained_app; [|done].
      simpl. rewrite !elem_of_cons, elem_of_nil.
      intros [?|[?|[?|[]]]]; discriminate.
  - (* the main thread's notification *)
    destruct (main s); try done.
    injection Hstep as <-.
    apply (invariant_quiet s _ [NotifyAll] Hinv); simpl; try done.
    + apply in_flight_wake.
    + intros Hpc. apply Hinv. by destruct (worker s).
    + by intros ->.
  - (* the join *)
    destruct (main s); try done.
    destruct (worker s) eqn:Hpc; try done.
    injection Hstep as <-.
    apply (invariant_quiet s _ [ThreadJoin] Hinv); simpl; rewrite ?Hpc; done.
  - (* the worker *)
    unfold worker_step in Hstep.
    destruct (worker s) eqn:Hpc.
    + injection Hstep as <-.
      apply (invariant_quiet s _ [Lock] Hinv); simpl; rewrite ?Hpc; done.
    + unfold worker_pop in Hstep.
      destruct (processing_queue (shared s)) as [|[buffer metadata] rest] eqn:Hq.
      * injection Hstep as <-.
        apply (invariant_quiet s _ [] Hinv); simpl;
          rewrite ?Hpc, ?app_nil_r; done.
      * injection Hstep as <-.
        destruct Hinv as [Hcons Hproc Hchk Hstop Hret Hdr].
        rewrite Hpc in Hcons, Hproc, Hret. rewrite Hq in Hcons. simpl in *.
        split; simpl.
        -- unfold enqueued, forwarded in *. rewrite !omap_app, Hcons. simpl.
           by rewrite ?app_nil_r, <- ?app_assoc.
        -- unfold processed, forwarded in *. rewrite !omap_app, Hproc. simpl.
           by rewrite ?app_nil_r, <- ?app_assoc.
        -- done.
        -- intros H. rewrite !elem_of_app. left. by apply Hstop.
        -- rewrite !elem_of_app, !elem_of_cons, elem_of_nil.
           intros [Hin|[[=]|[[=]|[]]]]. by specialize (Hret Hin).
        -- apply drained_app; [|done].
           rewrite !elem_of_cons, elem_of_nil.
           intros [?|[?|[]]]; discriminate.
    + destruct (worker_process buffer metadata (shared s)) as [w|] eqn:Hrun; [|done].
      injection Hstep as <-.
      apply worker_process_frame in Hrun as (Hq & Hflag & _ & c & Hev).
      destruct Hinv as [Hcons Hproc Hchk Hstop Hret Hdr].
      rewrite Hpc in Hcons, Hproc, Hret. simpl in *.
      split; simpl; rewrite ?Hev, ?Hq, ?Hflag.
      * unfold enqueued, forwarded in *. rewrite !omap_app, Hcons. simpl.
        by rewrite ?app_nil_r, <- ?app_assoc.
      * unfold processed, forwarded in *. rewrite !omap_app, Hproc. simpl.
        by rewrite ?app_nil_r, <- ?app_assoc.
      * done.
      * intros H. rewrite !elem_of_app. left. by apply Hstop.
      * rewrite !elem_of_app, list_elem_of_singleton.
        intros [Hin|[=]]. by specialize (Hret Hin).
      * apply drained_app; [|done].
        rewrite list_elem_of_singleton. done.
    + destruct Hinv as [Hcons Hproc Hchk Hstop Hret Hdr].
      pose proof (Hchk Hpc) as Hq.
      rewrite Hpc in Hcons, Hproc, Hret. rewrite Hq in Hcons.
      simpl in *. rewrite app_nil_r in Hcons, Hproc.
      destruct (stop_processing (shared s)) eqn:Hflag; injection Hstep as <-.
      * split; simpl; rewrite ?Hq.
        -- unfold enqueued, forwarded in *. rewrite !omap_app, Hcons. simpl.
           by rewrite ?app_nil_r, <- ?app_assoc.
        -- unfold processed, forwarded in *. rewrite !omap_app, Hproc. simpl.
           by rewrite ?app_nil_r, <- ?app_assoc.
        -- done.
        -- intros H. rewrite !elem_of_app. left. by apply Hstop.
        -- done.
        -- apply drained_return; auto.
           ++ intros Hin. by specialize (Hret Hin).
           ++ rewrite list_elem_of_singleton. done.
      * split; simpl; rewrite ?Hq.
        -- unfold enqueued, forwarded in *. rewrite !omap_app, Hcons. simpl.
           by rewrite ?app_nil_r, <- ?app_assoc.
        -- unfold processed, forwarded in *. rewrite !omap_app, Hproc. simpl.
           by rewrite ?app_nil_r, <- ?app_assoc.
        -- done.
        -- by rewrite Hflag.
        -- rewrite !elem_of_app, list_elem_of_singleton.
           intros [Hin|[=]]. by specialize (Hret Hin).
        -- apply drained_app; [|done].
           rewrite list_elem_of_singleton. done.
    + done.
    + done.
  - (* a spurious wake-up *)
    destruct (worker s) eqn:Hpc; try done.
    injection Hstep as <-.
    apply (invariant_quiet s _ [] Hinv); simpl;
      rewrite ?Hpc, ?app_nil_r; done.
Qed.

Lemma reachable_invariant s : reachable s → invariant s.
Proof.
  induction 1 as [registry memory | s a s' _ IH Hstep].
  - apply invariant_boot.
  - by apply (invariant_step s a).
Qed.

(** *** No lost wake-up, and the drain runs to the end *)

Lemma wakeups_pending_boot registry memory :
  wakeups_pending (boot registry memory).
Proof. split; simpl; done. Qed.

Lemma wake_not_waiting pc : wake pc ≠ Waiting.
Proof. by destruct pc. Qed.

Lemma wakeups_pending_step s a s' :
  invariant s → wakeups_pending s → step a s = Some s' → wakeups_pending s'.
Proof.
  intros Hinv [Hstop Hentry] Hstep. destruct a; simpl in Hstep.
  - destruct (callback_lease _ _ _ _ _) as [[p w]|] eqn:Hlease; [|done].
    injection Hstep as <-.
    apply callback_lease_frame in Hlease as (Hq & Hflag & _).
    split; simpl; rewrite ?Hq, ?Hflag; [done|].
    intros Hpc Hne. destruct (Hentry Hpc Hne) as [k Hk].
    exists k. by apply lookup_app_l_Some.
  - destruct (callbacks s !! k) as [[buffer metadata| |]|] eqn:Hk; try done.
    destruct (holds_mutex (worker s)); [done|].
    injection Hstep as <-. split; simpl; [done|].
    intros _ _. exists k. apply list_lookup_insert_eq.
    by apply lookup_lt_Some in Hk.
  - destruct (callbacks s !! k) as [[buffer metadata| |]|]; try done.
    injection Hstep as <-.
    split; simpl; intros Hpc; by apply wake_not_waiting in Hpc.
  - destruct (main s); try done.
    destruct (holds_mutex (worker s)); [done|].
    injection Hstep as <-. split; simpl; done.
  - destruct (main s); try done.
    injection Hstep as <-.
    split; simpl; intros Hpc; by apply wake_not_waiting in Hpc.
  - destruct (main s); try done. destruct (worker s); try done.
    injection Hstep as <-. split; simpl; done.
  - unfold worker_step in Hstep. destruct (worker s) eqn:Hpc; try done.
    + injection Hstep as <-. split; simpl; done.
    + destruct (worker_pop (shared s)) as [[[buffer metadata] w]|];
        injection Hstep as <-; split; simpl; done.
    + destruct (worker_process buffer metadata (shared s)); [|done].
      injection Hstep as <-. split; simpl; done.
    + pose proof (inv_stop_check s Hinv Hpc) as Hq.
      destruct (stop_processing (shared s)) eqn:Hflag; injection Hstep as <-.
      * split; simpl; done.
      * split; simpl; [by rewrite Hflag | by rewrite Hq].
  - destruct (worker s); try done. injection Hstep as <-. split; simpl; done.
Qed.

Lemma reachable_wakeups_pending s : reachable s → wakeups_pending s.
Proof.
  induction 1 as [registry memory | s a s' Hreach IH Hstep].
  - apply wakeups_pending_boot.
  - apply (wakeups_pending_step s a); [by apply reachable_invariant | done..].
Qed.

Lemma run_app actions1 actions2 s s1 :
  run actions1 s = Some s1 → run (actions1 ++ actions2) s = run actions2 s1.
Proof.
  revert s. induction actions1 as [|a actions1 IH]; intros s Hrun; simpl in *.
  - by simplify_eq.
  - destruct (step a s) as [s0|]; [by apply IH | done].
Qed.

Lemma run_stores_length ops buf out :
  run_stores ops buf = Some out → length out = length buf.
Proof.
  revert buf. induction ops as [|op ops IH]; intros buf Hrun; simpl in Hrun.
  - by simplify_eq.
  - destruct (store buf op) as [buf1|] eqn:Hst; [|done].
    apply TransformFacts.store_inv in Hst as [_ ->].
    rewrite (IH _ Hrun). apply length_insert.
Qed.

(** Drawing on one entry succeeds and leaves every entry processable. *)
Lemma worker_process_processable buffer metadata w c entries :
  chains w !! "import" = Some (Some c) →
  processable w (buffer, metadata) →
  Forall (processable w) entries →
  ∃ w',
    worker_process buffer metadata w = Done w' ∧
    chains w' = chains w ∧
    processing_queue w' = processing_queue w ∧
    stop_processing w' = stop_processing w ∧
    Forall (processable w') entries.
Proof.
  intros Hc (Hwf & Hfit & buf & Hbuf & Hcap) Hall. simpl in *.
  destruct (TransformFacts.draw_crosshair_spec metadata buf Hwf Hfit Hcap)
    as (out & Hdraw & Hlen & _).
  unfold worker_process, chain_at. rewrite Hbuf. simpl. rewrite Hdraw. simpl.
  rewrite Hc. simpl. eexists. split; [done|]. simpl. repeat split; try done.
  eapply Forall_impl; [exact Hall|].
  intros [b md] (Hwf' & Hfit' & buf' & Hbuf' & Hcap'). simpl in *.
  split; [done|]. split; [done|]. simpl.
  destruct (decide (b = buffer)) as [->|Hne].
  - exists out. rewrite lookup_alter_eq, Hbuf. simpl.
    split; [done|]. rewrite Hlen. by simplify_eq.
  - exists buf'. by rewrite lookup_alter_ne.
Qed.

(** From the queue check, the worker alone takes the entries one by one
    and arrives at the stop check, the queue empty. *)
Lemma drain_from_queue_check queue :
  ∀ s c,
    worker s = AtQueueCheck →
    processing_queue (shared s) = queue →
    chains (shared s) !! "import" = Some (Some c) →
    Forall (processable (shared s)) queue →
    ∃ n s',
      run (replicate n WorkerStep) s = Some s' ∧
      worker s' = AtStopCheck ∧
      stop_processing (shared s') = stop_processing (shared s) ∧
      callbacks s' = callbacks s ∧ main s' = main s.
Proof.
  induction queue as [|[buffer metadata] queue IH]; intros s c Hpc Hq Hc Hall.
  - exists 1%nat. eexists. simpl. unfold worker_step, worker_pop.
    rewrite Hpc, Hq. simpl. done.
  - apply Forall_cons in Hall as [Hentry Hall].
    set (w1 := emit [Pop buffer metadata; Unlock] (set_queue queue (shared s))).
    assert (Hentry1 : processable w1 (buffer, metadata)) by done.
    assert (Hall1 : Forall (processable w1) queue) by done.
    destruct (worker_process_processable buffer metadata w1 c queue Hc Hentry1 Hall1)
      as (w2 & Hrun & Hc2 & Hq2 & Hflag2 & Hall2).
    destruct (IH {| shared := worker_relock w2; worker := AtQueueCheck;
                    callbacks := callbacks s; main := main s |} c)
      as (n & s' & Hn & Hpc' & Hflag' & Hcb' & Hmain'); simpl.
    { done. }
    { by rewrite Hq2. }
    { by rewrite Hc2. }
    { exact Hall2. }
    simpl in Hflag', Hcb', Hmain'.
    exists (3 + n)%nat, s'. split; [|by rewrite Hflag', Hflag2].
    change (replicate (3 + n) WorkerStep)
      with ([WorkerStep; WorkerStep; WorkerStep] ++ replicate n WorkerStep).
    erewrite run_app; [exact Hn|].
    simpl. unfold worker_step at 1, worker_pop. rewrite Hpc, Hq. simpl.
    unfold worker_step at 1. simpl. fold w1. rewrite Hrun.
    unfold worker_step. simpl. done.
Qed.

(** The same from wherever the worker is busy: taking the mutex, at the
    queue check, or drawing on an entry. *)
Lemma drain_when_busy s :
  busy (worker s) = true →
  drainable s →
  ∃ n s',
    run (replicate n WorkerStep) s = Some s' ∧
    worker s' = AtStopCheck ∧
    stop_processing (shared s') = stop_processing (shared s) ∧
    callbacks s' = callbacks s ∧ main s' = main s.
Proof.
  intros Hbusy [[c Hc] Hall].
  destruct (worker s) eqn:Hpc; try done; simpl in Hall.
  - (* taking the mutex *)
    destruct (drain_from_queue_check (processing_queue (shared s))
                {| shared := worker_relock (shared s); worker := AtQueueCheck;
                   callbacks := callbacks s; main := main s |} c)
      as (n & s' & Hn & Hrest); simpl; [done | done | done | exact Hall |].
    exists (1 + n)%nat, s'. split; [|done].
    simpl. unfold worker_step at 1. by rewrite Hpc.
  - (* at the queue check *)
    by apply (drain_from_queue_check (processing_queue (shared s)) s c).
  - (* drawing on an entry *)
    apply Forall_cons in Hall as [Hentry Hall].
    destruct (worker_process_processable buffer metadata (shared s) c
                (processing_queue (shared s)) Hc Hentry Hall)
      as (w2 & Hrun & Hc2 & Hq2 & Hflag2 & Hall2).
    destruct (drain_from_queue_check (processing_queue (shared s))
                {| shared := worker_relock w2; worker := AtQueueCheck;
                   callbacks := callbacks s; main := main s |} c)
      as (n & s' & Hn & Hpc' & Hflag' & Hcb' & Hmain'); simpl.
    { done. }
    { done. }
    { by rewrite Hc2. }
    { exact Hall2. }
    simpl in Hflag', Hcb', Hmain'.
    exists (2 + n)%nat, s'. split; [|by rewrite Hflag', Hflag2].
    change (replicate (2 + n) WorkerStep)
      with ([WorkerStep; WorkerStep] ++ replicate n WorkerStep).
    erewrite run_app; [exact Hn|].
    simpl. unfold worker_step at 1. rewrite Hpc, Hrun.
    unfold worker_step. simpl. done.
Qed.

(** Deadlock freedom of the shutdown: once the stop flag is set, the
    notification of the main thread (if the worker is waiting) and the
    worker's own steps take the worker to its return. *)
Lemma shutdown_completes s :
  reachable s →
  stop_processing (shared s) = true →
  drainable s →
  ∃ actions s',
    Forall shutdown_action actions ∧
    run actions s = Some s' ∧ worker s' = Returned.
Proof.
  intros Hreach Hflag Hdrain.
  pose proof (reachable_wakeups_pending s Hreach) as Hwake.
  assert (Hworker : ∀ n, Forall shutdown_action (replicate n WorkerStep)).
  { intros n. apply Forall_replicate. by right. }
  assert (Hfinish : ∀ s1, worker s1 = AtStopCheck →
            stop_processing (shared s1) = true →
            ∃ s', run [WorkerStep] s1 = Some s' ∧ worker s' = Returned).
  { intros s1 Hpc1 Hflag1. eexists. simpl. unfold worker_step.
    rewrite Hpc1, Hflag1. done. }
  destruct (busy (worker s)) eqn:Hbusy.
  - destruct (drain_when_busy s Hbusy Hdrain) as (n & s1 & Hn & Hpc1 & Hflag1 & _).
    destruct (Hfinish s1 Hpc1) as (s' & Hlast & Hret); [congruence|].
    exists (replicate n WorkerStep ++ [WorkerStep]), s'.
    split; [apply Forall_app; split; [done | apply Forall_singleton; by right]|].
    split; [|done]. by erewrite run_app.
  - destruct (worker s) eqn:Hpc; try done.
    + (* at the stop check *)
      destruct (Hfinish s Hpc Hflag) as (s' & Hlast & Hret).
      exists [WorkerStep], s'. split; [apply Forall_singleton; by right | done].
    + (* waiting: the notification is still to come *)
      pose proof (wake_for_stop s Hwake Hpc Hflag) as Hmain.
      set (s0 := {| shared := emit [NotifyAll] (shared s); worker := Relocking;
                    callbacks := callbacks s; main := Joining |}).
      assert (Hnotify : run [MainNotify] s = Some s0).
      { simpl. by rewrite Hmain, Hpc. }
      assert (Hdrain0 : drainable s0).
      { destruct Hdrain as [Hc Hall]. rewrite Hpc in Hall. by split. }
      destruct (drain_when_busy s0 eq_refl Hdrain0)
        as (n & s1 & Hn & Hpc1 & Hflag1 & _).
      destruct (Hfinish s1 Hpc1) as (s' & Hlast & Hret).
      { by rewrite Hflag1. }
      exists ([MainNotify] ++ replicate n WorkerStep ++ [WorkerStep]), s'.
      split.
      { apply Forall_app. split; [apply Forall_singleton; by left|].
        apply Forall_app. split; [done | apply Forall_singleton; by right]. }
      split; [|done].
      erewrite run_app; [|exact Hnotify]. by erewrite run_app.
    + (* returned already *)
      exists [], s. done.
Qed.

(** The steps of the consuming side add no entry. *)
Lemma consumer_step_enqueued a s s' :
  consumer_action a → step a s = Some s' →
  enqueued (events (shared s')) = enqueued (events (shared s)).
Proof.
  intros [-> | [k ->]] Hstep; simpl in Hstep.
  - unfold worker_step in Hstep. destruct (worker s); try done.
    + injection Hstep as <-. by apply (quiet_enqueued _ [Lock]).
    + unfold worker_pop in Hstep.
      destruct (processing_queue (shared s)) as [|[buffer metadata] rest];
        injection Hstep as <-; [done|].
      simpl. unfold enqueued. rewrite omap_app. simpl. by rewrite app_nil_r.
    + destruct (worker_process buffer metadata (shared s)) as [w|] eqn:Hrun; [|done].
      injection Hstep as <-.
      apply worker_process_frame in Hrun as (_ & _ & _ & c & Hev).
      simpl. rewrite Hev. unfold enqueued. rewrite omap_app. simpl.
      by rewrite app_nil_r.
    + destruct (stop_processing (shared s)); injection Hstep as <-; simpl;
        unfold enqueued; rewrite omap_app; simpl; by rewrite app_nil_r.
  - destruct (callbacks s !! k) as [[buffer metadata| |]|]; try done.
    injection Hstep as <-. by apply (quiet_enqueued _ [NotifyAll]).
Qed.

Lemma consumer_run_enqueued actions s s' :
  Forall consumer_action actions → run actions s = Some s' →
  enqueued (events (shared s')) = enqueued (events (shared s)).
Proof.
  intros Hall. revert s. induction Hall as [|a actions Ha Hall IH]; intros s Hrun.
  - simpl in Hrun. by simplify_eq.
  - simpl in Hrun. destruct (step a s) as [s1|] eqn:Hstep; [|done].
    rewrite (IH s1 Hrun). by apply (consumer_step_enqueued a).
Qed.

(** No entry is skipped: as long as the worker has not returned, its own
    steps, after a notification still to come if it is waiting, take the
    worker through every entry enqueued so far. *)
Lemma queue_gets_processed s :
  reachable s →
  worker s ≠ Returned →
  drainable s →
  ∃ actions s',
    Forall consumer_action actions ∧
    run actions s = Some s' ∧
    enqueued (events (shared s')) = enqueued (events (shared s)) ∧
    processed (events (shared s')) = enqueued (events (shared s)) ∧
    forwarded (events (shared s')) = enqueued (events (shared s)).
Proof.
  intros Hreach Hpc Hdrain.
  pose proof (reachable_invariant s Hreach) as Hinv.
  pose proof (reachable_wakeups_pending s Hreach) as Hwake.
  assert (Hworker : ∀ n, Forall consumer_action (replicate n WorkerStep)).
  { intros n. apply Forall_replicate. by left. }
  (* a state at the stop check has everything forwarded *)
  assert (Hidle : ∀ actions s',
            Forall consumer_action actions → run actions s = Some s' →
            in_flight (worker s') = [] → processing_queue (shared s') = [] →
            enqueued (events (shared s')) = enqueued (events (shared s)) ∧
            processed (events (shared s')) = enqueued (events (shared s)) ∧
            forwarded (events (shared s')) = enqueued (events (shared s))).
  { intros actions s' Hall Hrun Hfl Hq.
    pose proof (reachable_invariant s' (run_reachable _ _ _ Hreach Hrun)) as Hinv'.
    pose proof (inv_conserved s' Hinv') as Hcons.
    pose proof (inv_processed s' Hinv') as Hproc.
    rewrite Hfl, Hq, app_nil_r in Hcons. rewrite Hfl, app_nil_r in Hproc.
    rewrite <- (consumer_run_enqueued actions s s' Hall Hrun).
    by rewrite Hproc, Hcons. }
  destruct (busy (worker s)) eqn:Hbusy.
  - destruct (drain_when_busy s Hbusy Hdrain) as (n & s' & Hn & Hpc' & _).
    pose proof (reachable_invariant s' (run_reachable _ _ _ Hreach Hn)) as Hinv'.
    exists (replicate n WorkerStep), s'. split; [done|]. split; [done|].
    apply (Hidle _ _ (Hworker n) Hn); [by rewrite Hpc'|].
    by apply (inv_stop_check s').
  - destruct (worker s) eqn:Hpc0; try done.
    + (* at the stop check: nothing is left *)
      exists [], s. split; [done|]. split; [done|].
      apply (Hidle [] s); [done | done | by rewrite Hpc0 | by apply Hinv].
    + (* waiting *)
      destruct (processing_queue (shared s)) as [|entry queue] eqn:Hq.
      * exists [], s. split; [done|]. split; [done|].
        apply (Hidle [] s); [done | done | by rewrite Hpc0 | done].
      * destruct (wake_for_entry s Hwake Hpc0) as [k Hk]; [by rewrite Hq|].
        set (s0 := {| shared := callback_notify (shared s); worker := Relocking;
                      callbacks := <[k := Finished]> (callbacks s);
                      main := main s |}).
        assert (Hnotify : run [CallbackNotify k] s = Some s0).
        { simpl. by rewrite Hk, Hpc0. }
        assert (Hdrain0 : drainable s0).
        { destruct Hdrain as [Hc Hall]. rewrite Hpc0 in Hall. by split. }
        destruct (drain_when_busy s0 eq_refl Hdrain0) as (n & s' & Hn & Hpc' & _).
        assert (Hrun : run ([CallbackNotify k] ++ replicate n WorkerStep) s = Some s').
        { by erewrite run_app. }
        assert (Hall : Forall consumer_action
                         ([CallbackNotify k] ++ replicate n WorkerStep)).
        { apply Forall_app. split; [|done].
          apply Forall_singleton. right. by exists k. }
        pose proof (reachable_invariant s' (run_reachable _ _ _ Hreach Hrun))
          as Hinv'.
        exists ([CallbackNotify k] ++ replicate n WorkerStep), s'.
        split; [done|]. split; [done|].
        apply (Hidle _ _ Hall Hrun); [by rewrite Hpc'|].
        by apply (inv_stop_check s').
Qed.

Lemma sample_run : run sample_actions sample_system = Some sample_final.
Proof. vm_compute. reflexivity. Qed.

Lemma sample_run_midway :
  run (take 5 sample_actions) sample_system = Some sample_midway.
Proof. vm_compute. reflexivity. Qed.

Lemma sample_midway_reachable : reachable sample_midway.
Proof.
  apply (run_reachable (take 5 sample_actions) sample_system);
    [|exact sample_run_midway].
  apply reachable_boot.
Qed.

Lemma sample_midway_drainable : drainable sample_midway.
Proof.
  split.
  - by exists 0%nat.
  - apply Forall_singleton. split; [|split].
    + unfold metadata_wf, u32. simpl. lia.
    + simpl. unfold bpp. lia.
    + exists [1; 2; 3; 4; 5; 6; 16; 17]. split; [done|]. simpl. unfold bpp. lia.
Qed.

Lemma pair_run : run pair_actions pair_system = Some pair_state.
Proof. vm_compute. reflexivity. Qed.

Lemma pair_state_reachable : reachable pair_state.
Proof.
  apply (run_reachable pair_actions pair_system); [|exact pair_run].
  apply reachable_boot.
Qed.

Lemma pair_state_drainable : drainable pair_state.
Proof.
  split.
  - by exists 0%nat.
  - apply Forall_singleton. split; [|split].
    + unfold metadata_wf, u32. simpl. lia.
    + simpl. unfold bpp. lia.
    + exists [1; 2; 3; 4; 5; 6; 16; 17]. split; [done|]. simpl. unfold bpp. lia.
Qed.

Lemma sample_final_drainable : drainable sample_final.
Proof. split; [by exists 0%nat | by apply Forall_nil]. Qed.

Lemma sample_final_reachable : reachable sample_final.
Proof.
  apply (run_reachable sample_actions sample_system); [|exact sample_run].
  apply reachable_boot.
Qed.

(** C1. In every interleaving of the worker with the callbacks and the
    main thread: all entries enqueued before the worker returns have been
    forwarded to the import chain before it returns, and the stop flag was
    set before; whenever the worker is at the stop check the queue is empty
    (line 149 is reached only from a false line 117, under the same lock);
    the worker gets to [Returned] only by its own step from the stop
    check, with the queue empty and the flag set; and it does get there:
    once the flag is set and the entries it holds are processable, the
    main thread's notification and its own steps take it to its return. *)
Theorem drain_on_shutdown s :
  reachable s →
  (∀ pre post, events (shared s) = pre ++ WorkerReturn :: post →
     forwarded pre = enqueued pre ∧ SetStop ∈ pre) ∧
  (worker s = AtStopCheck → processing_queue (shared s) = []) ∧
  (∀ a s', step a s = Some s' → worker s ≠ Returned → worker s' = Returned →
     a = WorkerStep ∧ worker s = AtStopCheck ∧
     processing_queue (shared s) = [] ∧ stop_processing (shared s) = true ∧
     forwarded (events (shared s)) = enqueued (events (shared s))) ∧
  (stop_processing (shared s) = true → drainable s →
     ∃ actions s',
       Forall shutdown_action actions ∧
       run actions s = Some s' ∧ worker s' = Returned).
Proof.
  intros Hreach. pose proof (reachable_invariant s Hreach) as Hinv.
  split; [apply Hinv|]. split; [apply Hinv|].
  split; [|by apply shutdown_completes].
  intros a s' Hstep Hbefore Hafter.
  destruct a; simpl in Hstep.
  - destruct (callback_lease _ _ _ _ _) as [[p w]|]; [|done].
    injection Hstep as <-. done.
  - destruct (callbacks s !! k) as [[buffer metadata| |]|]; try done.
    destruct (holds_mutex (worker s)); [done|].
    injection Hstep as <-. done.
  - destruct (callbacks s !! k) as [[buffer metadata| |]|]; try done.
    injection Hstep as <-. simpl in Hafter. by destruct (worker s).
  - destruct (main s); try done.
    destruct (holds_mutex (worker s)); [done|].
    injection Hstep as <-. done.
  - destruct (main s); try done.
    injection Hstep as <-. simpl in Hafter. by destruct (worker s).
  - destruct (main s); try done. by destruct (worker s).
  - unfold worker_step in Hstep.
    destruct (worker s) eqn:Hpc; try done.
    + by injection Hstep as <-.
    + destruct (worker_pop (shared s)) as [[[buffer metadata] w]|];
        by injection Hstep as <-.
    + destruct (worker_process buffer metadata (shared s)); [|done].
      by injection Hstep as <-.
    + pose proof (inv_stop_check s Hinv Hpc) as Hq.
      pose proof (inv_conserved s Hinv) as Hcons.
      rewrite Hpc, Hq in Hcons. simpl in Hcons. rewrite app_nil_r in Hcons.
      destruct (stop_processing (shared s)); [done|].
      by injection Hstep as <-.
  - destruct (worker s); try done. by injection Hstep as <-.
Qed.

Lemma drain_on_shutdown_witness :
  run sample_actions sample_system = Some sample_final ∧
  worker sample_final = Returned ∧
  (∀ pre post, events (shared sample_final) = pre ++ WorkerReturn :: post →
     forwarded pre = enqueued pre ∧ SetStop ∈ pre) ∧
  (worker sample_final = AtStopCheck →
     processing_queue (shared sample_final) = []) ∧
  (∀ a s', step a sample_final = Some s' →
     worker sample_final ≠ Returned → worker s' = Returned →
     a = WorkerStep ∧ worker sample_final = AtStopCheck ∧
     processing_queue (shared sample_final) = [] ∧
     stop_processing (shared sample_final) = true ∧
     forwarded (events (shared sample_final))
       = enqueued (events (shared sample_final))) ∧
  (∃ actions s',
     Forall shutdown_action actions ∧
     run actions sample_final = Some s' ∧ worker s' = Returned).
Proof.
  split; [exact sample_run|]. split; [reflexivity|].
  destruct (drain_on_shutdown sample_final sample_final_reachable)
    as (Hdrained & Hcheck & Hreturn & Hprogress).
  split; [exact Hdrained|]. split; [exact Hcheck|]. split; [exact Hreturn|].
  apply Hprogress; [reflexivity | exact sample_final_drainable].
Defined.

(** C2. In every interleaving, the entries the worker has taken from the
    queue are, position by position, the entries put into it: the i-th
    entry processed is the i-th entry enqueued, and the entries forwarded
    are the entries processed, in the same order, but for the one still
    being drawn on. None is skipped: as long as the worker has not returned
    and the entries it holds are processable, its own steps (after a
    notification still to come, if it is waiting) take it through all the
    entries enqueued so far. *)
Theorem processed_in_enqueue_order s :
  reachable s →
  (∀ i entry, processed (events (shared s)) !! i = Some entry →
     enqueued (events (shared s)) !! i = Some entry) ∧
  processed (events (shared s)) `prefix_of` enqueued (events (shared s)) ∧
  processed (events (shared s))
    = forwarded (events (shared s)) ++ in_flight (worker s) ∧
  (worker s ≠ Returned → drainable s →
     ∃ actions s',
       Forall consumer_action actions ∧
       run actions s = Some s' ∧
       enqueued (events (shared s')) = enqueued (events (shared s)) ∧
       processed (events (shared s')) = enqueued (events (shared s)) ∧
       forwarded (events (shared s')) = enqueued (events (shared s))).
Proof.
  intros Hreach. pose proof (reachable_invariant s Hreach) as Hinv.
  pose proof (inv_conserved s Hinv) as Hcons.
  pose proof (inv_processed s Hinv) as Hproc.
  assert (Hprefix : processed (events (shared s))
                      `prefix_of` enqueued (events (shared s))).
  { exists (processing_queue (shared s)). by rewrite Hcons, Hproc, <- app_assoc. }
  split; [|split; [done|split; [done|]]].
  - intros i entry Hi. by apply (prefix_lookup_Some _ _ _ _ Hi).
  - by apply queue_gets_processed.
Qed.

Lemma processed_in_enqueue_order_witness :
  run pair_actions pair_system = Some pair_state ∧
  enqueued (events (shared pair_state))
    = [(2%positive, second_metadata); (1%positive, sample_metadata)] ∧
  processed (events (shared pair_state))
    = [(2%positive, second_metadata); (1%positive, sample_metadata)] ∧
  forwarded (events (shared pair_state)) = [(2%positive, second_metadata)] ∧
  (∀ i entry, processed (events (shared pair_state)) !! i = Some entry →
     enqueued (events (shared pair_state)) !! i = Some entry) ∧
  processed (events (shared pair_state))
    `prefix_of` enqueued (events (shared pair_state)) ∧
  processed (events (shared pair_state))
    = forwarded (events (shared pair_state)) ++ in_flight (worker pair_state) ∧
  (∃ actions s',
     Forall consumer_action actions ∧
     run actions pair_state = Some s' ∧
     enqueued (events (shared s')) = enqueued (events (shared pair_state)) ∧
     processed (events (shared s')) = enqueued (events (shared pair_state)) ∧
     forwarded (events (shared s')) = enqueued (events (shared pair_state))).
Proof.
  split; [exact pair_run|].
  split; [reflexivity|]. split; [reflexivity|]. split; [reflexivity|].
  destruct (processed_in_enqueue_order pair_state pair_state_reachable)
    as (Hlookup & Hprefix & Hsplit & Hprogress).
  split; [exact Hlookup|]. split; [exact Hprefix|]. split; [exact Hsplit|].
  apply Hprogress; [discriminate | exact pair_state_drainable].
Defined.

End WorkerFacts.

Module StartupFacts.
Import Json Handoff Startup.

Lemma rejected_check_config input :
  rejected input ↔ ∃ message, check_config input = inl message.
Proof.
  destruct input as [what|config]; simpl.
  - split; [|done]. intros _. by eexists.
  - destruct (find "chains" config) as [it_chains|] eqn:Hchains.
    + destruct (is_array it_chains) eqn:Harray; simpl.
      * destruct (empty it_chains) eqn:Hempty.
        -- split; [by eexists|]. intros _. right. left. eauto.
        -- destruct (find "IFF" config) as [it_iff|] eqn:Hiff.
           ++ split; [|by intros [? [=]]].
              intros [[=] | [(c & [= <-] & [Hc | Hc]) | [=]]]; congruence.
           ++ split; [by eexists|]. intros _. by right; right.
      * split; [by eexists|]. intros _. right. left. eauto.
    + split; [by eexists|]. intros _. by left.
Qed.

Lemma check_config_message input message :
  check_config input = inl message →
  ∃ reason,
    message = "Invalid configuration provided: " +:+ reason +:+ newline ∧
    (input = ParseError reason ∨ reason ∈ config_faults).
Proof.
  unfold config_faults.
  destruct input as [what|config]; simpl.
  - intros [= <-]. exists what. split; [done | by left].
  - destruct (find "chains" config) as [it_chains|].
    + destruct (is_array it_chains); simpl.
      * destruct (empty it_chains).
        -- intros [= <-]. exists "section `chains` must not be empty".
           split; [done|]. right. rewrite !elem_of_cons. tauto.
        -- destruct (find "IFF" config); [done|].
           intros [= <-]. exists "missing `IFF` section".
           split; [done|]. right. rewrite !elem_of_cons. tauto.
      * intros [= <-]. exists "section `chains` must be an array".
        split; [done|]. right. rewrite !elem_of_cons. tauto.
    + intros [= <-]. exists "missing `chains` section".
      split; [done|]. right. rewrite !elem_of_cons. tauto.
Qed.

(** What the checks let through: a parsed object with an [IFF] member and
    a [chains] member that is an array with a first element. *)
Lemma check_config_accepted input it_iff it_chains :
  check_config input = inr (it_iff, it_chains) →
  ∃ config first rest,
    input = Parsed config ∧
    find "IFF" config = Some it_iff ∧
    find "chains" config = Some it_chains ∧
    it_chains = JArray (first :: rest).
Proof.
  destruct input as [what|config]; [done|]. simpl.
  destruct (find "chains" config) as [chains|] eqn:Hchains; [|done].
  destruct chains as [| | | |items|]; try done.
  destruct items as [|first rest]; [done|]. simpl.
  destruct (find "IFF" config) as [iff|] eqn:Hiff; [|done].
  intros [= <- <-]. by exists config, first, rest.
Qed.

(** The loop does nothing but construct chains and destroy some. *)
Lemma construct_chains_events configs n reg0 :
  Forall lifecycle_event (construct_chains configs n reg0).1.
Proof.
  revert n reg0. induction configs as [|chain_config configs IH]; intros n reg0;
    simpl; [done|].
  destruct (get_string "id" chain_config) as [id|].
  - specialize (IH (S n)). unfold emplace.
    destruct (reg0 !! id);
      [specialize (IH reg0) | specialize (IH (<[id := Some n]> reg0))];
      destruct (construct_chains configs (S n) _) as [evs result]; simpl in *.
    + apply Forall_cons. split; [left; eauto|].
      apply Forall_cons. split; [right; eauto | done].
    + apply Forall_cons. split; [left; eauto | done].
  - apply Forall_singleton. left. eauto.
Qed.

(** An event that is neither a construction nor a destruction is none of
    the events of the loop. *)
Lemma not_lifecycle e evs :
  Forall lifecycle_event evs →
  (∀ c cfg, e ≠ ChainCreate c cfg) → (∀ c, e ≠ ChainDestroy c) → e ∉ evs.
Proof.
  intros Hall Hcreate Hdestroy Hin. rewrite Forall_forall in Hall.
  destruct (Hall e Hin) as [(c & cfg & ->) | (c & ->)];
    [by apply (Hcreate c cfg) | by apply (Hdestroy c)].
Qed.

(** The loop begins with the construction of a chain for the first
    definition. *)
Lemma construct_chains_first first rest :
  ∃ later, (construct_chains (first :: rest) 0 ∅).1 = ChainCreate 0%nat first :: later.
Proof.
  simpl. destruct (get_string "id" first) as [id|]; [|by eexists].
  destruct (emplace id 0%nat ∅) as [reg1 gone].
  destruct (construct_chains rest 1 reg1) as [evs result]. by eexists.
Qed.

(** What the main thread does once the registry is built. *)
Lemma serve_cases order registry :
  (registry !! "export" ≠ None ∧ (∀ exporter, registry !! "export" ≠ Some (Some exporter))
     ∨ registry !! "export" = None) ∧ serve order registry
       = {| trace := [ThreadStart]; ending_of := Aborted |} ∨
  ∃ exporter,
    registry !! "export" = Some (Some exporter) ∧
    serve order registry =
      {| trace :=
           [ThreadStart;
            SetExportCallback exporter "exporter";
            Execute exporter (exporter_command "on");
            Log info "imagefiltercpp" "Press Enter to terminate the program";
            Getchar;
            Execute exporter (exporter_command "off");
            Lock; SetStop; Unlock; NotifyAll; ThreadJoin]
           ++ clear order registry ++ [Finalize];
         ending_of := Exited EXIT_SUCCESS |}.
Proof.
  unfold serve. destruct (registry !! "export") as [[exporter|]|].
  - right. by exists exporter.
  - left. split; [|done]. left. split; [done|]. by intros exporter.
  - left. split; [|done]. by right.
Qed.

Lemma stderr_not_in_serve order registry message :
  Stderr message ∉ trace (serve order registry).
Proof.
  destruct (serve_cases order registry) as [[_ ->] | (exporter & _ & ->)]; simpl.
  - rewrite list_elem_of_singleton. done.
  - rewrite !elem_of_cons, elem_of_app, list_elem_of_singleton.
    unfold clear. rewrite list_elem_of_fmap.
    intros Hin.
    repeat (destruct Hin as [Hin | Hin]; [discriminate|]).
    destruct Hin as [(c & [=] & _) | [=]].
Qed.

(** C9. Each of the five faults has its own message, and the checks are
    made in this order: a configuration that cannot be parsed (the
    message carries the text of the parser's exception), has no [chains]
    member, has a [chains] that is not an array, has an empty [chains], or
    has no [IFF] member. In each case the only thing the program does is
    write "Invalid configuration provided: " and the message to the error
    stream, and it returns [EXIT_FAILURE], which is not 0: the SDK is not
    initialized and no chain is constructed. Every other configuration is
    a parsed object with an [IFF] member and a non-empty [chains] array:
    the program writes nothing to the error stream, it initializes the SDK
    with the [IFF] section and then constructs a chain for the first
    definition; if [main] returns, it returns 0, having started the
    worker, waited for the line of input, joined the worker and, last of
    all, finalized the SDK; and it does return 0 when every definition has
    a string id and one of them is "export". *)
Theorem config_errors_are_fatal order input :
  (∀ what, input = ParseError what →
     main order input
       = failed ("Invalid configuration provided: " +:+ what +:+ newline)) ∧
  (∀ config, input = Parsed config →
     find "chains" config = None →
     main order input
       = failed ("Invalid configuration provided: missing `chains` section"
                   +:+ newline)) ∧
  (∀ config it_chains, input = Parsed config →
     find "chains" config = Some it_chains →
     is_array it_chains = false →
     main order input
       = failed ("Invalid configuration provided: section `chains` must be an array"
                   +:+ newline)) ∧
  (∀ config it_chains, input = Parsed config →
     find "chains" config = Some it_chains →
     is_array it_chains = true → empty it_chains = true →
     main order input
       = failed ("Invalid configuration provided: section `chains` must not be empty"
                   +:+ newline)) ∧
  (∀ config it_chains, input = Parsed config →
     find "chains" config = Some it_chains →
     is_array it_chains = true → empty it_chains = false →
     find "IFF" config = None →
     main order input
       = failed ("Invalid configuration provided: missing `IFF` section"
                   +:+ newline)) ∧
  (rejected input →
     ∃ reason,
       main order input
         = failed ("Invalid configuration provided: " +:+ reason +:+ newline) ∧
       (input = ParseError reason ∨ reason ∈ config_faults)) ∧
  EXIT_FAILURE ≠ 0 ∧
  (¬ rejected input →
     ∃ config it_iff first rest later,
       input = Parsed config ∧
       find "IFF" config = Some it_iff ∧
       find "chains" config = Some (JArray (first :: rest)) ∧
       trace (main order input)
         = Initialize it_iff :: ChainCreate 0%nat first :: later ∧
       (∀ message, Stderr message ∉ trace (main order input)) ∧
       (∀ status, ending_of (main order input) = Exited status →
          status = 0 ∧
          ThreadStart ∈ trace (main order input) ∧
          Getchar ∈ trace (main order input) ∧
          ThreadJoin ∈ trace (main order input) ∧
          last (trace (main order input)) = Some Finalize) ∧
       (∀ registry exporter,
          registry_of input = Some registry →
          registry !! "export" = Some (Some exporter) →
          ending_of (main order input) = Exited 0)).
Proof.
  split; [|split; [|split; [|split; [|split; [|split; [|split]]]]]].
  - intros what ->. done.
  - intros config -> Hchains. unfold main. simpl. by rewrite Hchains.
  - intros config it_chains -> Hchains Harray. unfold main. simpl.
    by rewrite Hchains, Harray.
  - intros config it_chains -> Hchains Harray Hempty. unfold main. simpl.
    by rewrite Hchains, Harray, Hempty.
  - intros config it_chains -> Hchains Harray Hempty Hiff. unfold main. simpl.
    by rewrite Hchains, Harray, Hempty, Hiff.
  - intros Hrej. apply rejected_check_config in Hrej as [message Hmsg].
    destruct (check_config_message _ _ Hmsg) as (reason & -> & Hreason).
    exists reason. unfold main. by rewrite Hmsg.
  - done.
  - intros Hacc.
    destruct (check_config input) as [message|[it_iff it_chains]] eqn:Hcheck.
    { exfalso. apply Hacc. apply rejected_check_config. by eexists. }
    destruct (check_config_accepted _ _ _ Hcheck)
      as (config & first & rest & -> & Hiff & Hchains & ->).
    pose proof (construct_chains_events (first :: rest) 0 ∅) as Hall.
    destruct (construct_chains_first first rest) as [later Hfirst].
    unfold main, registry_of. rewrite Hcheck.
    change (items_of (JArray (first :: rest))) with (first :: rest).
    destruct (construct_chains (first :: rest) 0 ∅) as [evs result].
    simpl in Hall, Hfirst. subst evs.
    exists config, it_iff, first, rest.
    destruct result as [registry|].
    + exists (later ++ trace (serve order registry)).
      split; [done|]. split; [done|]. split; [done|]. split; [done|].
      split; [|split].
      * intros message Hin. apply elem_of_cons in Hin as [[=] | Hin].
        apply elem_of_app in Hin as [Hin | Hin].
        -- by apply (not_lifecycle (Stderr message) _ Hall).
        -- by apply (stderr_not_in_serve order registry message).
      * cbn [trace ending_of].
        destruct (serve_cases order registry) as [[_ ->] | (exporter & _ & ->)];
          cbn [trace ending_of]; intros status [= <-].
        split; [done|].
        split; [|split; [|split]].
        -- right. apply elem_of_app. right. left.
        -- right. apply elem_of_app. right. apply elem_of_app. left.
           rewrite !elem_of_cons. tauto.
        -- right. apply elem_of_app. right. apply elem_of_app. left.
           rewrite !elem_of_cons. tauto.
        -- rewrite last_cons, !app_assoc, last_snoc. done.
      * cbn [trace ending_of]. intros registry' exporter [= <-] Hexp.
        unfold serve. by rewrite Hexp.
    + exists later.
      split; [done|]. split; [done|]. split; [done|]. split; [done|].
      split; [|split].
      * intros message Hin. apply elem_of_cons in Hin as [[=] | Hin].
        by apply (not_lifecycle (Stderr message) _ Hall).
      * by intros status [=].
      * by intros registry' exporter [=].
Qed.

Lemma config_errors_are_fatal_witness :
  main reverse unparseable
    = failed ("Invalid configuration provided: syntax error" +:+ newline) ∧
  main reverse no_chains
    = failed ("Invalid configuration provided: missing `chains` section"
                +:+ newline) ∧
  main reverse chains_not_array
    = failed ("Invalid configuration provided: section `chains` must be an array"
                +:+ newline) ∧
  main reverse chains_empty
    = failed ("Invalid configuration provided: section `chains` must not be empty"
                +:+ newline) ∧
  main reverse no_iff
    = failed ("Invalid configuration provided: missing `IFF` section"
                +:+ newline) ∧
  (∃ config it_iff first rest later,
     twice_export = Parsed config ∧
     find "IFF" config = Some it_iff ∧
     find "chains" config = Some (JArray (first :: rest)) ∧
     trace (main reverse twice_export)
       = Initialize it_iff :: ChainCreate 0%nat first :: later ∧
     (∀ message, Stderr message ∉ trace (main reverse twice_export)) ∧
     (∀ status, ending_of (main reverse twice_export) = Exited status →
        status = 0 ∧
        ThreadStart ∈ trace (main reverse twice_export) ∧
        Getchar ∈ trace (main reverse twice_export) ∧
        ThreadJoin ∈ trace (main reverse twice_export) ∧
        last (trace (main reverse twice_export)) = Some Finalize) ∧
     (∀ registry exporter,
        registry_of twice_export = Some registry →
        registry !! "export" = Some (Some exporter) →
        ending_of (main reverse twice_export) = Exited 0)) ∧
  ending_of (main reverse twice_export) = Exited 0.
Proof.
  split; [|split; [|split; [|split; [|split; [|split]]]]].
  - destruct (config_errors_are_fatal reverse unparseable) as (H & _).
    exact (H "syntax error" eq_refl).
  - destruct (config_errors_are_fatal reverse no_chains) as (_ & H & _).
    exact (H _ eq_refl eq_refl).
  - destruct (config_errors_are_fatal reverse chains_not_array) as (_ & _ & H & _).
    exact (H _ _ eq_refl eq_refl eq_refl).
  - destruct (config_errors_are_fatal reverse chains_empty) as (_ & _ & _ & H & _).
    exact (H _ _ eq_refl eq_refl eq_refl eq_refl).
  - destruct (config_errors_are_fatal reverse no_iff) as (_ & _ & _ & _ & H & _).
    exact (H _ _ eq_refl eq_refl eq_refl eq_refl eq_refl).
  - destruct (config_errors_are_fatal reverse twice_export)
      as (_ & _ & _ & _ & _ & _ & _ & H).
    apply H. intros [[=] | [(it_chains & [= <-] & [[=] | [=]]) | [=]]].
  - vm_compute. reflexivity.
Defined.

(** *** The registry the loop builds *)

Lemma emplace_fresh id c registry :
  registry !! id = None → emplace id c registry = (<[id := Some c]> registry, []).
Proof. intros H. unfold emplace. by rewrite H. Qed.

Lemma emplace_taken id c registry :
  is_Some (registry !! id) → emplace id c registry = (registry, [ChainDestroy c]).
Proof. intros [v H]. unfold emplace. by rewrite H. Qed.

(** The loop started on chain number [n] with the registry [reg0], when
    every definition has a string id: every chain is constructed; entries
    present before stay; an id not present before is registered with the
    first chain defined under it; an id defined nowhere stays absent; and
    a chain whose id is taken when its turn comes is destroyed right after
    its construction. *)
Lemma construct_chains_spec configs ids n reg0 :
  ids_of configs ids →
  ∃ evs registry,
    construct_chains configs n reg0 = (evs, Some registry) ∧
    (∀ i chain_config, configs !! i = Some chain_config →
       ChainCreate (n + i) chain_config ∈ evs) ∧
    (∀ key v, reg0 !! key = Some v → registry !! key = Some v) ∧
    (∀ key i, reg0 !! key = None → ids !! i = Some key →
       (∀ i', (i' < i)%nat → ids !! i' ≠ Some key) →
       registry !! key = Some (Some (n + i)%nat)) ∧
    (∀ key, reg0 !! key = None → key ∉ ids → registry !! key = None) ∧
    (∀ j key chain_config, ids !! j = Some key → configs !! j = Some chain_config →
       is_Some (reg0 !! key) ∨ (∃ i, (i < j)%nat ∧ ids !! i = Some key) →
       ∃ pre post,
         evs = pre ++ ChainCreate (n + j) chain_config
                        :: ChainDestroy (n + j) :: post).
Proof.
  intros Hids. revert n reg0.
  induction Hids as [|chain_config id configs ids Hid Hids IH]; intros n reg0.
  - exists [], reg0. split; [done|]. repeat split; try done.
  - simpl. rewrite Hid.
    destruct (reg0 !! id) as [v0|] eqn:Hreg0.
    + (* the id is taken: the new chain is destroyed at once *)
      rewrite emplace_taken by eauto.
      destruct (IH (S n) reg0) as (evs & registry & Hrun & Hall & Hkeep & Hfirst & Hnone & Hdup).
      rewrite Hrun.
      exists (ChainCreate n chain_config :: [ChainDestroy n] ++ evs), registry.
      split; [done|]. split; [|split; [|split; [|split]]].
      * intros [|i] c Hc; simpl in Hc.
        -- injection Hc as <-. rewrite Nat.add_0_r. left.
        -- right. right. rewrite Nat.add_succ_r. by apply Hall.
      * done.
      * intros key [|i] Hkey Hi Hmin; simpl in Hi.
        -- congruence.
        -- rewrite Nat.add_succ_r. apply (Hfirst key i Hkey Hi).
           intros i' Hlt. apply (Hmin (S i')). lia.
      * intros key Hkey Hnotin. apply Hnone; [done|].
        intros Hin. apply Hnotin. by right.
      * intros [|j] key c Hj Hc Hpre; simpl in Hj, Hc.
        -- injection Hj as <-. injection Hc as <-. rewrite Nat.add_0_r.
           by exists [], evs.
        -- destruct (Hdup j key c Hj Hc) as (pre & post & ->).
           { destruct Hpre as [Hpre | (i & Hlt & Hi)]; [by left|].
             destruct i as [|i]; simpl in Hi.
             - injection Hi as <-. left. eauto.
             - right. exists i. split; [lia | done]. }
           rewrite Nat.add_succ_r.
           by exists (ChainCreate n chain_config :: ChainDestroy n :: pre), post.
    + (* the id is free: the new chain is registered *)
      rewrite emplace_fresh by done.
      destruct (IH (S n) (<[id := Some n]> reg0))
        as (evs & registry & Hrun & Hall & Hkeep & Hfirst & Hnone & Hdup).
      rewrite Hrun.
      exists (ChainCreate n chain_config :: [] ++ evs), registry.
      split; [done|]. split; [|split; [|split; [|split]]].
      * intros [|i] c Hc; simpl in Hc.
        -- injection Hc as <-. rewrite Nat.add_0_r. left.
        -- right. rewrite Nat.add_succ_r. by apply Hall.
      * intros key v Hkey. apply Hkeep. rewrite lookup_insert_ne; [done|].
        intros <-. congruence.
      * intros key [|i] Hkey Hi Hmin; simpl in Hi.
        -- injection Hi as <-. rewrite Nat.add_0_r.
           apply Hkeep. apply lookup_insert_eq.
        -- rewrite Nat.add_succ_r. apply Hfirst.
           ++ rewrite lookup_insert_ne; [done|]. intros <-.
              apply (Hmin 0%nat); [lia | done].
           ++ done.
           ++ intros i' Hlt. apply (Hmin (S i')). lia.
      * intros key Hkey Hnotin. apply Hnone.
        -- rewrite lookup_insert_ne; [done|]. intros <-. apply Hnotin. left.
        -- intros Hin. apply Hnotin. by right.
      * intros [|j] key c Hj Hc Hpre; simpl in Hj, Hc.
        -- injection Hj as <-. exfalso.
           destruct Hpre as [[v Hv] | (i & Hlt & _)]; [congruence | lia].
        -- destruct (Hdup j key c Hj Hc) as (pre & post & ->).
           { destruct Hpre as [[v Hv] | (i & Hlt & Hi)].
             - left. exists v. rewrite lookup_insert_ne; [done|].
               intros <-. congruence.
             - destruct i as [|i]; simpl in Hi.
               + injection Hi as <-. left. rewrite lookup_insert_eq. eauto.
               + right. exists i. split; [lia | done]. }
           rewrite Nat.add_succ_r.
           by exists (ChainCreate n chain_config :: pre), post.
Qed.

(** When the loop runs to its end, every definition had a string id. *)
Lemma construct_chains_ids configs n reg0 evs registry :
  construct_chains configs n reg0 = (evs, Some registry) →
  ∃ ids, ids_of configs ids.
Proof.
  revert n reg0 evs.
  induction configs as [|chain_config configs IH]; intros n reg0 evs Hrun.
  - exists []. constructor.
  - simpl in Hrun.
    destruct (get_string "id" chain_config) as [id|] eqn:Hid; [|done].
    destruct (emplace id n reg0) as [reg1 destroyed].
    destruct (construct_chains configs (S n) reg1) as [evs' result] eqn:Hrest.
    injection Hrun as _ ->.
    destruct (IH _ _ _ Hrest) as [ids Hids].
    exists (id :: ids). by constructor.
Qed.

(** Every member of a list has a first position. *)
Lemma first_position (key : string) (ids : list string) :
  key ∈ ids →
  ∃ i, ids !! i = Some key ∧ ∀ i', (i' < i)%nat → ids !! i' ≠ Some key.
Proof.
  induction ids as [|id ids IH]; intros Hin.
  - by apply elem_of_nil in Hin.
  - destruct (decide (id = key)) as [->|Hne].
    + exists 0%nat. split; [done|]. intros i' Hlt. lia.
    + apply elem_of_cons in Hin as [->|Hin]; [done|].
      destruct (IH Hin) as (i & Hi & Hmin).
      exists (S i). split; [done|].
      intros [|i'] Hlt; simpl; [congruence|]. apply Hmin. lia.
Qed.

Lemma ids_of_elem configs ids key :
  ids_of configs ids →
  key ∈ ids ↔ ∃ chain_config, chain_config ∈ configs ∧
                              get_string "id" chain_config = Some key.
Proof.
  induction 1 as [|chain_config id configs ids Hid Hids IH].
  - split; [by intros ?%elem_of_nil | by intros (? & ?%elem_of_nil & _)].
  - rewrite elem_of_cons, IH. split.
    + intros [-> | (c & Hc & Hkey)].
      * exists chain_config. split; [left | done].
      * exists c. split; [by right | done].
    + intros (c & Hc & Hkey). apply elem_of_cons in Hc as [-> | Hc].
      * left. congruence.
      * right. by exists c.
Qed.

(** The registry of a loop started empty holds, under each id defined, the
    first chain defined under it, and nothing else. *)
Lemma registry_values configs ids evs registry key v :
  ids_of configs ids →
  construct_chains configs 0 ∅ = (evs, Some registry) →
  registry !! key = Some v →
  ∃ i, v = Some i ∧ ids !! i = Some key ∧
       ∀ i', (i' < i)%nat → ids !! i' ≠ Some key.
Proof.
  intros Hids Hrun Hv.
  destruct (construct_chains_spec configs ids 0 ∅ Hids)
    as (evs' & registry' & Hrun' & _ & _ & Hfirst & Hnone & _).
  rewrite Hrun in Hrun'. injection Hrun' as _ <-.
  destruct (decide (key ∈ ids)) as [Hin|Hnotin].
  - destruct (first_position key ids Hin) as (i & Hi & Hmin).
    exists i. rewrite (Hfirst key i) in Hv by done. by injection Hv as <-.
  - rewrite Hnone in Hv by done. done.
Qed.

(** C10. When every definition has a string id, the loop constructs a
    chain for every definition; for two definitions [i < j] with the same
    id, [i] being the first with that id, the registry holds chain [i]
    under the id, holds chain [j] under no key, and chain [j] is destroyed
    right after its construction. *)
Theorem duplicate_ids_keep_first configs ids :
  ids_of configs ids →
  ∃ evs registry,
    construct_chains configs 0 ∅ = (evs, Some registry) ∧
    (∀ i chain_config, configs !! i = Some chain_config →
       ChainCreate i chain_config ∈ evs) ∧
    (∀ i j id chain_config,
       (i < j)%nat → ids !! i = Some id → ids !! j = Some id →
       (∀ i', (i' < i)%nat → ids !! i' ≠ Some id) →
       configs !! j = Some chain_config →
       registry !! id = Some (Some i) ∧
       (∀ key, registry !! key ≠ Some (Some j)) ∧
       ∃ pre post,
         evs = pre ++ ChainCreate j chain_config :: ChainDestroy j :: post).
Proof.
  intros Hids.
  destruct (construct_chains_spec configs ids 0 ∅ Hids)
    as (evs & registry & Hrun & Hall & _ & Hfirst & _ & Hdup).
  exists evs, registry. split; [done|]. split.
  - intros i c Hc. by apply (Hall i c).
  - intros i j id c Hlt Hi Hj Hmin Hc. split; [|split].
    + by apply (Hfirst id i).
    + intros key Hkey.
      destruct (registry_values _ _ _ _ _ _ Hids Hrun Hkey)
        as (j' & [= <-] & Hj' & Hmin').
      assert (key = id) as -> by congruence.
      by apply (Hmin' i).
    + apply (Hdup j id c Hj Hc). right. by exists i.
Qed.

Lemma duplicate_ids_keep_first_witness :
  ∃ evs registry,
    construct_chains (chain_definitions twice_export) 0 ∅ = (evs, Some registry) ∧
    (∀ i chain_config, chain_definitions twice_export !! i = Some chain_config →
       ChainCreate i chain_config ∈ evs) ∧
    (∀ i j id chain_config,
       (i < j)%nat →
       ["export"; "import"; "export"] !! i = Some id →
       ["export"; "import"; "export"] !! j = Some id →
       (∀ i', (i' < i)%nat → ["export"; "import"; "export"] !! i' ≠ Some id) →
       chain_definitions twice_export !! j = Some chain_config →
       registry !! id = Some (Some i) ∧
       (∀ key, registry !! key ≠ Some (Some j)) ∧
       ∃ pre post,
         evs = pre ++ ChainCreate j chain_config :: ChainDestroy j :: post).
Proof.
  apply (duplicate_ids_keep_first (chain_definitions twice_export)
           ["export"; "import"; "export"]).
  repeat constructor.
Defined.

(** C7, as amended. After the construction of the chains from an accepted
    configuration the registry has an entry, never null, for exactly the
    ids defined in [chains]. The program does not look for "import" or
    "export" before going on: it starts the worker in every case; when an
    "export" entry exists it registers the callback, issues the start
    command and runs to its normal end, whether or not an "import" entry
    exists; when none exists it ends abnormally right after starting the
    worker. *)
Theorem registry_holds_defined_ids order input registry :
  registry_of input = Some registry →
  (∀ key, is_Some (registry !! key) ↔
          ∃ chain_config, chain_config ∈ chain_definitions input ∧
                          get_string "id" chain_config = Some key) ∧
  (∀ key, registry !! key ≠ Some None) ∧
  ThreadStart ∈ trace (main order input) ∧
  (∀ exporter, registry !! "export" = Some (Some exporter) →
     SetExportCallback exporter "exporter" ∈ trace (main order input) ∧
     Execute exporter (exporter_command "on") ∈ trace (main order input) ∧
     ending_of (main order input) = Exited EXIT_SUCCESS) ∧
  (registry !! "export" = None →
     last (trace (main order input)) = Some ThreadStart ∧
     ending_of (main order input) = Aborted).
Proof.
  unfold registry_of, chain_definitions, main.
  destruct (check_config input) as [message|[it_iff it_chains]]; [done|].
  destruct (construct_chains (items_of it_chains) 0 ∅) as [evs result] eqn:Hrun.
  simpl. intros ->.
  destruct (construct_chains_ids _ _ _ _ _ Hrun) as [ids Hids].
  destruct (construct_chains_spec _ ids 0 ∅ Hids)
    as (evs' & registry' & Hrun' & _ & _ & Hfirst & Hnone & _).
  rewrite Hrun in Hrun'. injection Hrun' as _ <-.
  split; [|split; [|split; [|split]]].
  - intros key. rewrite <- (ids_of_elem _ ids key Hids). split.
    + intros [v Hv].
      destruct (registry_values _ _ _ _ _ _ Hids Hrun Hv) as (i & _ & Hi & _).
      by apply list_elem_of_lookup_2 in Hi.
    + intros Hin. destruct (first_position key ids Hin) as (i & Hi & Hmin).
      rewrite (Hfirst key i) by done. eauto.
  - intros key Hkey.
    by destruct (registry_values _ _ _ _ _ _ Hids Hrun Hkey) as (i & [=] & _).
  - simpl. right. apply elem_of_app. right. unfold serve.
    destruct (registry !! "export") as [[exporter|]|]; simpl; left.
  - intros exporter Hexp. unfold serve. rewrite Hexp. simpl.
    repeat split.
    + right. apply elem_of_app. right. right. left.
    + right. apply elem_of_app. right. right. right. left.
  - intros Hexp. unfold serve. rewrite Hexp. simpl. split; [|done].
    rewrite last_cons, last_app. simpl. done.
Qed.

Lemma registry_holds_defined_ids_witness :
  ∃ registry,
    registry_of twice_export = Some registry ∧
    (∀ key, is_Some (registry !! key) ↔
            ∃ chain_config, chain_config ∈ chain_definitions twice_export ∧
                            get_string "id" chain_config = Some key) ∧
    (∀ key, registry !! key ≠ Some None) ∧
    ThreadStart ∈ trace (main reverse twice_export) ∧
    (∀ exporter, registry !! "export" = Some (Some exporter) →
       SetExportCallback exporter "exporter" ∈ trace (main reverse twice_export) ∧
       Execute exporter (exporter_command "on") ∈ trace (main reverse twice_export) ∧
       ending_of (main reverse twice_export) = Exited EXIT_SUCCESS) ∧
    (registry !! "export" = None →
       last (trace (main reverse twice_export)) = Some ThreadStart ∧
       ending_of (main reverse twice_export) = Aborted).
Proof.
  exists {[ "export" := Some 0%nat; "import" := Some 1%nat ]}.
  assert (Hreg : registry_of twice_export
                 = Some {[ "export" := Some 0%nat; "import" := Some 1%nat ]}).
  { vm_compute. reflexivity. }
  split; [exact Hreg|].
  apply (registry_holds_defined_ids reverse twice_export). exact Hreg.
Defined.

(** C7 as stated fails: with an export chain and no import chain the
    registry has no "import" entry, and the program still starts the
    worker, registers the callback and issues the start command. *)
Lemma export_only_proceeds :
  registry_of export_only = Some {[ "export" := Some 0%nat ]} ∧
  ({[ "export" := Some 0%nat ]} : gmap string (option nat)) !! "import" = None ∧
  ThreadStart ∈ trace (main reverse export_only) ∧
  SetExportCallback 0%nat "exporter" ∈ trace (main reverse export_only) ∧
  Execute 0%nat (exporter_command "on") ∈ trace (main reverse export_only).
Proof.
  split; [vm_compute; reflexivity|]. split; [reflexivity|].
  assert (Htrace : ∃ rest,
    trace (main reverse export_only) =
      Initialize (JObject []) :: ChainCreate 0%nat (JObject [("id", JString "export")])
        :: ThreadStart :: SetExportCallback 0%nat "exporter"
        :: Execute 0%nat (exporter_command "on") :: rest).
  { eexists. vm_compute. reflexivity. }
  destruct Htrace as [rest ->].
  rewrite !elem_of_cons. tauto.
Qed.

End StartupFacts.

(** * Further properties of the code *)

Module TransformCoverage.
Import Machine MachineFacts Transform TransformFacts Samples.

Lemma bar_frame_wf : metadata_wf bar_frame.
Proof. unfold metadata_wf, u32, bar_frame; simpl; lia. Qed.

Lemma bar_frame_fits :
  height bar_frame * (width bar_frame * bpp + padding bar_frame) ≤ 2 ^ 64.
Proof. unfold bar_frame, bpp; simpl; lia. Qed.

Lemma bar_frame_crosshair y x :
  in_crosshair bar_frame y x ↔ 0 ≤ y < 200 ∧ 2 ≤ x < 6.
Proof.
  unfold in_crosshair, in_vertical_bar, in_horizontal_bar, bar_frame. simpl.
  change (200 / 2) with 100. change (8 / 2) with 4. lia.
Qed.

(** [run_stores] is defined exactly when every store is inside the buffer. *)
Lemma run_stores_defined ops buf :
  is_Some (run_stores ops buf) ↔
  Forall (λ op, 0 ≤ op.1 < Z.of_nat (length buf)) ops.
Proof.
  split.
  - revert buf. induction ops as [|op ops IH]; intros buf [out Hrun]; [done|].
    simpl in Hrun. destruct (store buf op) as [buf1|] eqn:Hst; [|done].
    apply store_inv in Hst as [Hop ->]. constructor; [done|].
    rewrite <- (length_insert buf (Z.to_nat op.1) op.2). apply IH. eauto.
  - intros Hall. destruct (run_stores_Some ops buf Hall) as (out & Hrun & _). eauto.
Qed.

Lemma run_stores_same_length ops buf out :
  run_stores ops buf = Some out → length out = length buf.
Proof.
  intros Hrun.
  assert (Hall : Forall (λ op, 0 ≤ op.1 < Z.of_nat (length buf)) ops).
  { apply run_stores_defined. eauto. }
  destruct (run_stores_Some ops buf Hall) as (out' & Hrun' & Hlen). congruence.
Qed.

(** All stores to one byte carry the same value, in a frame that fits in the
    address space. *)
Lemma crosshair_stores_agree md i v v' :
  metadata_wf md →
  height md * (width md * bpp + padding md) ≤ 2 ^ 64 →
  (i, v) ∈ crosshair_stores md → (i, v') ∈ crosshair_stores md → v = v'.
Proof.
  intros Hwf Hfit Hv Hv'.
  apply elem_of_crosshair_stores_exact in Hv
    as (y & x & c & Hcross & Hc & Hi & ->); [|done..].
  apply elem_of_crosshair_stores_exact in Hv'
    as (y' & x' & c' & Hcross' & Hc' & Hi' & ->); [|done..].
  destruct (crosshair_inside_frame md y x Hwf Hcross) as [Hy Hx].
  destruct (crosshair_inside_frame md y' x' Hwf Hcross') as [Hy' Hx'].
  rewrite Hi in Hi'.
  apply pixel_offset_inj in Hi' as (_ & _ & ->); (done || lia).
Qed.

(** X1. A frame too small for either bar is left as it is, whatever the buffer
    (even an empty one): with [height < 200] or [width < 4] the vertical bar
    is not drawn, with [width < 200] or [height < 4] the horizontal one is
    not; and only such frames get no store at all. *)
Theorem small_frame_untouched md :
  metadata_wf md →
  (crosshair_stores md = [] ↔
   (height md < 200 ∨ width md < 4) ∧ (width md < 200 ∨ height md < 4)) ∧
  (crosshair_stores md = [] → ∀ buf, draw_crosshair md buf = Some buf).
Proof.
  intros Hwf. split.
  2:{ intros Hnil buf. unfold draw_crosshair. rewrite Hnil. reflexivity. }
  pose proof Hwf as (Hw & Hh & Hp). unfold u32 in Hw, Hh.
  pose proof (Z.div_mod (height md) 2 ltac:(lia)).
  pose proof (Z.mod_pos_bound (height md) 2 ltac:(lia)).
  pose proof (Z.div_mod (width md) 2 ltac:(lia)).
  pose proof (Z.mod_pos_bound (width md) 2 ltac:(lia)).
  split.
  - intros Hnil.
    assert (Hnone : ∀ y x, ¬ in_crosshair md y x).
    { intros y x Hcross.
      assert (Hin : (index md y x 0, 0) ∈ crosshair_stores md).
      { apply elem_of_crosshair_stores; [done|]. exists y, x. split; [done|].
        apply elem_of_cell. by left. }
      rewrite Hnil in Hin. by apply elem_of_nil in Hin. }
    split.
    + destruct (decide (height md < 200 ∨ width md < 4)) as [|Hbig]; [done|].
      exfalso. apply (Hnone (height md / 2 - 100) (width md / 2 - 2)).
      left. unfold in_vertical_bar. lia.
    + destruct (decide (width md < 200 ∨ height md < 4)) as [|Hbig]; [done|].
      exfalso. apply (Hnone (height md / 2 - 2) (width md / 2 - 100)).
      right. unfold in_horizontal_bar. lia.
  - intros [Hv Hh'].
    destruct (crosshair_stores md) as [|op ops] eqn:Hops; [done|]. exfalso.
    assert (Hin : op ∈ crosshair_stores md) by (rewrite Hops; left).
    apply elem_of_crosshair_stores in Hin as (y & x & Hcross & _); [|done].
    destruct Hcross as [Hbar|Hbar].
    + unfold in_vertical_bar in Hbar. lia.
    + unfold in_horizontal_bar in Hbar. lia.
Qed.

Lemma small_frame_untouched_witness :
  metadata_wf {| width := 199; height := 199; padding := 5 |} ∧
  draw_crosshair {| width := 199; height := 199; padding := 5 |} [1; 2; 3]
    = Some [1; 2; 3].
Proof.
  assert (Hwf : metadata_wf {| width := 199; height := 199; padding := 5 |}).
  { unfold metadata_wf, u32; simpl; lia. }
  split; [exact Hwf|].
  destruct (small_frame_untouched _ Hwf) as [Hiff Hdraw].
  apply Hdraw. apply Hiff. simpl. lia.
Defined.

(** X2. The transform is defined exactly when every byte of every crosshair
    pixel, at the subscript the code computes, is inside the buffer; the
    rest of the frame need not be. *)
Theorem draw_crosshair_defined md buf :
  metadata_wf md →
  is_Some (draw_crosshair md buf) ↔
  ∀ y x c, in_crosshair md y x → 0 ≤ c < bpp →
           index md y x c < Z.of_nat (length buf).
Proof.
  intros Hwf. unfold draw_crosshair. rewrite run_stores_defined, Forall_forall.
  split.
  - intros Hall y x c Hcross Hc.
    assert (Hin : ∃ v, (index md y x c, v) ∈ crosshair_stores md) .
    { unfold bpp in Hc.
      assert (c = 0 ∨ c = 1 ∨ c = 2) as [-> | [-> | ->]] by lia;
        eexists; apply elem_of_crosshair_stores; try done;
        exists y, x; (split; [done|]); apply elem_of_cell; eauto. }
    destruct Hin as [v Hin]. apply (Hall _ Hin).
  - intros Hall [i v] Hin. simpl.
    apply elem_of_crosshair_stores in Hin as (y & x & Hcross & Hcell); [|done].
    assert (∃ c, 0 ≤ c < bpp ∧ i = index md y x c) as (c & Hc & ->).
    { apply elem_of_cell in Hcell as [H|[H|H]]; inversion H; subst;
        [exists 0 | exists 1 | exists 2]; unfold bpp; split; (lia || done). }
    split; [|by apply Hall]. rewrite index_wrap. apply wrap64_range.
Qed.

Lemma bar_buffer_drawn : is_Some (draw_crosshair bar_frame bar_buffer).
Proof.
  apply run_stores_defined, Forall_forall. intros [i v] Hin.
  pose proof (crosshair_stores_in_frame _ _ _ bar_frame_wf Hin) as Hi.
  unfold bar_buffer. rewrite length_replicate.
  unfold bar_frame, bpp in Hi. simpl in *. lia.
Qed.

Lemma draw_crosshair_defined_witness :
  metadata_wf bar_frame ∧
  ¬ is_Some (draw_crosshair bar_frame (take 4000 bar_buffer)).
Proof.
  split; [exact bar_frame_wf|].
  intros Hsome.
  pose proof (proj1 (draw_crosshair_defined _ _ bar_frame_wf) Hsome 199 5 2) as Hlt.
  assert (Hidx : index bar_frame 199 5 2 = 4992) by (vm_compute; reflexivity).
  assert (Hlen : Z.of_nat (length (take 4000 bar_buffer)) = 4000)
    by (vm_compute; reflexivity).
  rewrite Hidx, Hlen in Hlt.
  assert (4992 < 4000); [|lia].
  apply Hlt; [|unfold bpp; lia].
  apply bar_frame_crosshair. lia.
Defined.

(** X3. What the transform leaves in the buffer, whenever it is defined, for a
    frame that fits in the address space: the length is kept, each byte of
    a crosshair pixel holds the overlay colour of its channel (0, 0, 255),
    and every other byte of the buffer, in the frame or beyond it, is as it
    was. *)
Theorem draw_crosshair_overlay md buf out :
  metadata_wf md →
  height md * (width md * bpp + padding md) ≤ 2 ^ 64 →
  draw_crosshair md buf = Some out →
  length out = length buf ∧
  (∀ y x c, in_crosshair md y x → 0 ≤ c < bpp →
     out !! Z.to_nat (y * (width md * bpp + padding md) + x * bpp + c)
       = Some (colour c)) ∧
  (∀ n : nat,
     (∀ y x c, in_crosshair md y x → 0 ≤ c < bpp →
        Z.of_nat n ≠ y * (width md * bpp + padding md) + x * bpp + c) →
     out !! n = buf !! n).
Proof.
  intros Hwf Hfit Hrun. unfold draw_crosshair in Hrun.
  split; [by apply (run_stores_same_length _ _ _ Hrun)|]. split.
  - intros y x c Hcross Hc.
    apply (run_stores_written _ _ _ _ _ Hrun).
    + apply elem_of_crosshair_stores_exact; [done..|]. by exists y, x, c.
    + intros v' Hin. symmetry.
      apply (crosshair_stores_agree md
               (y * (width md * bpp + padding md) + x * bpp + c)
               (colour c) v' Hwf Hfit); [|exact Hin].
      apply elem_of_crosshair_stores_exact; [done..|]. by exists y, x, c.
  - intros n Hnot. rewrite <- (Nat2Z.id n).
    apply (run_stores_unwritten _ _ _ _ Hrun); [lia|].
    intros v Hin.
    apply elem_of_crosshair_stores_exact in Hin
      as (y & x & c & Hcross & Hc & Heq & _); [|done..].
    by apply (Hnot y x c).
Qed.

Lemma draw_crosshair_overlay_witness :
  ∃ out,
    draw_crosshair bar_frame bar_buffer = Some out ∧
    length out = length bar_buffer ∧
    out !! Z.to_nat (199 * (width bar_frame * bpp + padding bar_frame) + 5 * bpp + 2)
      = Some (colour 2) ∧
    out !! 0%nat = bar_buffer !! 0%nat.
Proof.
  destruct bar_buffer_drawn as [out Hrun].
  exists out. split; [exact Hrun|].
  destruct (draw_crosshair_overlay _ _ _ bar_frame_wf bar_frame_fits Hrun)
    as (Hlen & Hpaint & Hkeep).
  split; [exact Hlen|]. split.
  - apply (Hpaint 199 5 2); [|unfold bpp; lia].
    apply bar_frame_crosshair. lia.
  - apply (Hkeep 0%nat).
    intros y x c Hcross Hc. apply bar_frame_crosshair in Hcross.
    unfold bar_frame, bpp in *. cbn [width height padding]. lia.
Defined.

(** X4. Drawing the crosshair a second time changes nothing. *)
Theorem draw_crosshair_idempotent md buf out :
  metadata_wf md →
  height md * (width md * bpp + padding md) ≤ 2 ^ 64 →
  draw_crosshair md buf = Some out →
  draw_crosshair md out = Some out.
Proof.
  intros Hwf Hfit Hrun. unfold draw_crosshair in *.
  pose proof (run_stores_same_length _ _ _ Hrun) as Hlen.
  assert (Hall : Forall (λ op, 0 ≤ op.1 < Z.of_nat (length out)) (crosshair_stores md)).
  { rewrite Hlen. apply run_stores_defined. eauto. }
  destruct (run_stores_Some _ _ Hall) as (out' & Hrun' & Hlen').
  rewrite Hrun'. f_equal. apply list_eq. intros n.
  destruct (decide (Z.of_nat n ∈ (crosshair_stores md).*1)) as [Hin|Hnotin].
  - apply list_elem_of_fmap in Hin as ([i v] & Hi & Hin). simpl in Hi. subst i.
    assert (Hsame : ∀ v', (Z.of_nat n, v') ∈ crosshair_stores md → v' = v).
    { intros v' Hin'.
      by apply (crosshair_stores_agree md (Z.of_nat n) v' v Hwf Hfit). }
    rewrite <- (Nat2Z.id n).
    rewrite (run_stores_written _ _ _ _ _ Hrun' Hin Hsame).
    by rewrite (run_stores_written _ _ _ _ _ Hrun Hin Hsame).
  - rewrite <- (Nat2Z.id n).
    apply (run_stores_unwritten _ _ _ _ Hrun'); [lia|].
    intros v Hin. apply Hnotin. apply list_elem_of_fmap. by exists (Z.of_nat n, v).
Qed.

Lemma draw_crosshair_idempotent_witness :
  ∃ out,
    draw_crosshair bar_frame bar_buffer = Some out ∧
    draw_crosshair bar_frame out = Some out.
Proof.
  destruct bar_buffer_drawn as [out Hrun].
  exists out. split; [exact Hrun|].
  exact (draw_crosshair_idempotent _ _ _ bar_frame_wf bar_frame_fits Hrun).
Defined.

End TransformCoverage.

Module HandoffCoverage.
Import Machine MachineFacts Transform TransformFacts Json Handoff HandoffFacts.
Import Worker Further Samples.

Lemma memcpy_length dst src n filled :
  memcpy dst src n = Some filled → length filled = length dst.
Proof.
  unfold memcpy. case_decide as Hn; [|done]. intros [= <-].
  rewrite length_app, length_take, length_drop. lia.
Qed.

(** X5. What an invocation of the callback can change, whatever its inputs: it
    never touches the registry or the stop flag; it appends to the queue the
    leased buffer when the frame fits and nothing otherwise, and removes
    nothing; the only buffer whose bytes can change is the leased one; and
    no buffer changes its size. *)
Theorem export_callback_frame lease data size metadata w w' :
  export_callback lease data size metadata w = Done w' →
  chains w' = chains w ∧
  stop_processing w' = stop_processing w ∧
  processing_queue w' = processing_queue w ++ accepted lease size metadata ∧
  (∀ b, (∀ capacity, lease ≠ Some (b, capacity)) → heap w' !! b = heap w !! b) ∧
  (∀ b, length <$> heap w' !! b = length <$> heap w !! b).
Proof.
  unfold export_callback, callback_lease, chain_at, accepted. intros Hrun.
  destruct (chains w !! "import") as [[c|]|] eqn:Hc; simpl in Hrun; try done.
  destruct lease as [[buffer buffer_size]|]; simpl in Hrun.
  - case_decide as Hfit.
    + simpl in Hrun.
      destruct (memcpy (default [] (heap w !! buffer)) data size)
        as [filled|] eqn:Hcpy; [|done].
      simpl in Hrun. injection Hrun as <-. simpl.
      split; [done|]. split; [done|]. split; [done|]. split.
      * intros b Hb. apply lookup_alter_ne. intros <-. by apply (Hb buffer_size).
      * intros b. rewrite lookup_alter. case_decide as Hb; [|done]. subst b.
        destruct (heap w !! buffer) as [buf|] eqn:Hbuf; [|done]. simpl in *.
        f_equal. by apply (memcpy_length _ _ _ _ Hcpy).
    + simpl in Hrun. rewrite Hc in Hrun. simpl in Hrun.
      injection Hrun as <-. simpl. by rewrite app_nil_r.
  - injection Hrun as <-. simpl. by rewrite app_nil_r.
Qed.

Lemma export_callback_frame_witness :
  ∃ w',
    export_callback (Some (1%positive, 8)) [1; 2; 3; 4; 5; 6] 6 sample_metadata
      sample_world = Done w' ∧
    chains w' = chains sample_world ∧
    stop_processing w' = stop_processing sample_world ∧
    processing_queue w'
      = processing_queue sample_world
          ++ accepted (Some (1%positive, 8)) 6 sample_metadata ∧
    (∀ b, (∀ capacity, Some (1%positive, 8) ≠ Some (b, capacity)) →
          heap w' !! b = heap sample_world !! b) ∧
    (∀ b, length <$> heap w' !! b = length <$> heap sample_world !! b).
Proof.
  destruct (export_callback (Some (1%positive, 8)) [1; 2; 3; 4; 5; 6] 6
              sample_metadata sample_world) as [w'|f] eqn:Hrun.
  - exists w'. split; [reflexivity|].
    exact (export_callback_frame _ _ _ _ _ _ Hrun).
  - exfalso. revert Hrun. vm_compute. discriminate.
Defined.

(** X6. Without a registered import chain every invocation of the callback is
    a call through a null pointer, before anything else happens, and no
    worker iteration gets as far as forwarding a buffer. *)
Theorem no_import_chain_is_fatal w :
  (∀ c, chains w !! "import" ≠ Some (Some c)) →
  (∀ lease data size metadata,
     export_callback lease data size metadata w = Undefined (NullChain "import")) ∧
  (∀ buffer metadata w', worker_process buffer metadata w ≠ Done w').
Proof.
  intros Hnone. split.
  - intros lease data size metadata. unfold export_callback, callback_lease, chain_at.
    destruct (chains w !! "import") as [[c|]|] eqn:Hc; [|done..].
    by destruct (Hnone c).
  - intros buffer metadata w'. unfold worker_process, chain_at.
    destruct (draw_crosshair _ _); [|done]. simpl.
    destruct (chains w !! "import") as [[c|]|] eqn:Hc; [|done..].
    by destruct (Hnone c).
Qed.

Lemma no_import_chain_is_fatal_witness :
  (∀ lease data size metadata,
     export_callback lease data size metadata
       (set_heap (heap sample_world)
          {| chains := {[ "export" := Some 0%nat ]}; heap := ∅;
             processing_queue := []; stop_processing := false; events := [] |})
     = Undefined (NullChain "import")) ∧
  (∀ buffer metadata w',
     worker_process buffer metadata
       (set_heap (heap sample_world)
          {| chains := {[ "export" := Some 0%nat ]}; heap := ∅;
             processing_queue := []; stop_processing := false; events := [] |})
     ≠ Done w').
Proof.
  apply no_import_chain_is_fatal. intros c. simpl. rewrite lookup_singleton_ne; done.
Defined.

Lemma bar_buffer_length : Z.of_nat (length bar_buffer) = 5000.
Proof. unfold bar_buffer. rewrite length_replicate. lia. Qed.

Lemma bar_data_length : Z.of_nat (length bar_data) = 5000.
Proof. unfold bar_data. rewrite length_replicate. lia. Qed.

Lemma short_buffer_length : Z.of_nat (length (take 4000 bar_buffer)) = 4000.
Proof. unfold bar_buffer. rewrite length_take, length_replicate. lia. Qed.

(** X7. The whole path of one frame, for any metadata: when the frame the
    metadata describes is within the [S] bytes delivered and these fit the
    leased buffer, the buffer forwarded holds the delivered bytes with the
    crosshair drawn over them, followed by what the buffer held beyond
    [S]; no other buffer changes, and the queue is empty again. *)
Theorem deliver_overlay c buffer C S data metadata w buf :
  chains w !! "import" = Some (Some c) →
  heap w !! buffer = Some buf →
  Z.of_nat (length buf) = C →
  processing_queue w = [] →
  metadata_wf metadata →
  height metadata * (width metadata * bpp + padding metadata) ≤ S →
  S ≤ C → S ≤ Z.of_nat (length data) → S ≤ 2 ^ 64 →
  ∃ out w',
    deliver (Some (buffer, C)) data S metadata w = Done w' ∧
    draw_crosshair metadata (take (Z.to_nat S) data ++ drop (Z.to_nat S) buf)
      = Some out ∧
    heap w' = <[buffer := out]> (heap w) ∧
    processing_queue w' = [] ∧
    forwarded (events w') = forwarded (events w) ++ [(buffer, metadata)].
Proof.
  intros Hc Hbuf Hcap Hq Hwf Hframe HSC HSdata HS64.
  assert (0 ≤ height metadata * (width metadata * bpp + padding metadata)).
  { destruct Hwf as (Hw & Hh & Hp). unfold u32, bpp in *. nia. }
  destruct (callback_fill_run c buffer C S data metadata w buf)
    as (filled & Hlen & Htake & Hdrop & _ & Hcb); [done | done | done | lia | done |].
  assert (Hfilled : filled = take (Z.to_nat S) data ++ drop (Z.to_nat S) buf).
  { by rewrite <- (take_drop (Z.to_nat S) filled), Htake, Hdrop. }
  destruct (draw_crosshair_spec metadata filled)
    as (out & Hdraw & _); [done | lia | lia |].
  exists out. eexists. split; [|split; [|split; [|split]]].
  - unfold deliver. rewrite Hcb. simpl.
    unfold worker_iteration, worker_pop. simpl. rewrite Hq. simpl.
    unfold worker_process. simpl. rewrite lookup_insert_eq. simpl.
    rewrite Hdraw. simpl. unfold chain_at. simpl. rewrite Hc. simpl.
    reflexivity.
  - by rewrite <- Hfilled.
  - simpl. apply map_eq. intros k. rewrite lookup_alter, !lookup_insert. simpl.
    repeat case_decide; by simplify_eq.
  - done.
  - simpl. rewrite <- !app_assoc. unfold forwarded. by rewrite omap_app.
Qed.

Lemma deliver_overlay_witness :
  ∃ out w',
    deliver (Some (1%positive, 5000)) bar_data 5000 bar_frame bar_world = Done w' ∧
    draw_crosshair bar_frame
      (take (Z.to_nat 5000) bar_data ++ drop (Z.to_nat 5000) bar_buffer) = Some out ∧
    heap w' = <[1%positive := out]> (heap bar_world) ∧
    processing_queue w' = [] ∧
    forwarded (events w') = forwarded (events bar_world) ++ [(1%positive, bar_frame)].
Proof.
  apply (deliver_overlay 0%nat 1%positive 5000 5000 bar_data bar_frame bar_world
           bar_buffer).
  - reflexivity.
  - reflexivity.
  - exact bar_buffer_length.
  - reflexivity.
  - exact TransformCoverage.bar_frame_wf.
  - unfold bar_frame, bpp. cbn [width height padding]. lia.
  - lia.
  - rewrite bar_data_length. lia.
  - lia.
Defined.

(** X8. The callback compares the size of the frame with the capacity of the
    buffer but never with the metadata: a frame it accepts and enqueues
    whose metadata put a crosshair byte at or beyond the end of the buffer
    makes the worker store outside the buffer. *)
Theorem deliver_outruns_buffer c buffer C S data metadata w buf y x ch :
  chains w !! "import" = Some (Some c) →
  heap w !! buffer = Some buf →
  Z.of_nat (length buf) = C →
  processing_queue w = [] →
  metadata_wf metadata →
  0 ≤ S ≤ C → S ≤ Z.of_nat (length data) →
  in_crosshair metadata y x → 0 ≤ ch < bpp →
  C ≤ index metadata y x ch →
  (∃ w1, export_callback (Some (buffer, C)) data S metadata w = Done w1 ∧
         processing_queue w1 = [(buffer, metadata)]) ∧
  deliver (Some (buffer, C)) data S metadata w = Undefined (OutOfBounds buffer).
Proof.
  intros Hc Hbuf Hcap Hq Hwf HS Hdata Hcross Hch Hbeyond.
  destruct (callback_fill_run c buffer C S data metadata w buf)
    as (filled & Hlen & _ & _ & _ & Hcb); [done..|].
  split.
  { eexists. split; [exact Hcb|]. simpl. by rewrite Hq. }
  unfold deliver. rewrite Hcb. simpl.
  unfold worker_iteration, worker_pop. simpl. rewrite Hq. simpl.
  unfold worker_process. simpl. rewrite lookup_insert_eq. simpl.
  destruct (draw_crosshair metadata filled) as [out|] eqn:Hdraw; [|done].
  exfalso.
  assert (Hall : Forall (λ op, 0 ≤ op.1 < Z.of_nat (length filled))
                   (crosshair_stores metadata)).
  { apply TransformCoverage.run_stores_defined. unfold draw_crosshair in Hdraw. eauto. }
  rewrite Forall_forall in Hall.
  assert (Hin : ∃ v, (index metadata y x ch, v) ∈ crosshair_stores metadata).
  { unfold bpp in Hch.
    assert (ch = 0 ∨ ch = 1 ∨ ch = 2) as [-> | [-> | ->]] by lia;
      eexists; apply elem_of_crosshair_stores; try done;
      exists y, x; (split; [done|]); apply elem_of_cell; eauto. }
  destruct Hin as [v Hin]. specialize (Hall _ Hin). simpl in Hall. lia.
Qed.

Lemma deliver_outruns_buffer_witness :
  (∃ w1, export_callback (Some (1%positive, 4000)) bar_data 4000 bar_frame
           short_world = Done w1 ∧
         processing_queue w1 = [(1%positive, bar_frame)]) ∧
  deliver (Some (1%positive, 4000)) bar_data 4000 bar_frame short_world
    = Undefined (OutOfBounds 1%positive).
Proof.
  apply (deliver_outruns_buffer 0%nat 1%positive 4000 4000 bar_data bar_frame
           short_world (take 4000 bar_buffer) 199 5 2).
  - reflexivity.
  - reflexivity.
  - exact short_buffer_length.
  - reflexivity.
  - exact TransformCoverage.bar_frame_wf.
  - lia.
  - rewrite bar_data_length. lia.
  - apply TransformCoverage.bar_frame_crosshair. lia.
  - unfold bpp. lia.
  - vm_compute. discriminate.
Defined.

End HandoffCoverage.

Module WorkerCoverage.
Import Machine Transform Handoff HandoffFacts Worker WorkerFacts.
Import Further Samples.

Lemma mutex_trace_app evs new :
  mutex_trace (evs ++ new)
    = foldl (λ st e, held ← st; mutex_event held e) (mutex_trace evs) new.
Proof. apply foldl_app. Qed.

(** The events of the lease phase neither take nor need the mutex. *)
Lemma callback_lease_mutex lease data size metadata w p w' :
  callback_lease lease data size metadata w = Done (p, w') →
  mutex_trace (events w') = mutex_trace (events w).
Proof.
  unfold callback_lease, chain_at. intros Hrun.
  destruct (chains w !! "import") as [[c|]|] eqn:Hc; simpl in Hrun; try done.
  destruct lease as [[buffer buffer_size]|].
  - case_decide.
    + destruct (memcpy _ data size) as [filled|]; [|done].
      injection Hrun as <- <-. simpl. rewrite !mutex_trace_app. simpl.
      by destruct (mutex_trace (events w)).
    + simpl in Hrun. rewrite Hc in Hrun. simpl in Hrun.
      injection Hrun as <- <-. simpl. rewrite !mutex_trace_app. simpl.
      by destruct (mutex_trace (events w)).
  - injection Hrun as <- <-. simpl. rewrite !mutex_trace_app. simpl.
    by destruct (mutex_trace (events w)).
Qed.

(** X9. The locking discipline, in every interleaving: the mutex is never
    taken while held nor given up while free, every [emplace], [pop] and
    write of the stop flag happens with the mutex held, and the mutex is
    held exactly while the worker is at the queue check or the stop check;
    so the worker holds no lock while it draws, waits, or after it has
    returned. *)
Theorem lock_discipline s :
  reachable s →
  mutex_trace (events (shared s)) = Some (holds_mutex (worker s)).
Proof.
  induction 1 as [registry memory | s a s' _ IH Hstep]; [done|].
  destruct a; simpl in Hstep.
  - destruct (callback_lease _ _ _ _ _) as [[p w]|] eqn:Hlease; [|done].
    injection Hstep as <-. simpl.
    by rewrite (callback_lease_mutex _ _ _ _ _ _ _ Hlease).
  - destruct (callbacks s !! k) as [[buffer metadata| |]|]; try done.
    destruct (holds_mutex (worker s)) eqn:Hmutex; [done|].
    injection Hstep as <-. simpl.
    rewrite !mutex_trace_app, IH. simpl. by rewrite Hmutex.
  - destruct (callbacks s !! k) as [[buffer metadata| |]|]; try done.
    injection Hstep as <-. simpl.
    rewrite mutex_trace_app, IH. simpl. by destruct (worker s).
  - destruct (main s); try done.
    destruct (holds_mutex (worker s)) eqn:Hmutex; [done|].
    injection Hstep as <-. simpl.
    rewrite !mutex_trace_app, IH. simpl. by rewrite Hmutex.
  - destruct (main s); try done.
    injection Hstep as <-. simpl.
    rewrite mutex_trace_app, IH. simpl. by destruct (worker s).
  - destruct (main s); try done. destruct (worker s) eqn:Hpc; try done.
    injection Hstep as <-. simpl.
    by rewrite mutex_trace_app, IH.
  - unfold worker_step in Hstep. destruct (worker s) eqn:Hpc; try done.
    + injection Hstep as <-. simpl. by rewrite mutex_trace_app, IH.
    + unfold worker_pop in Hstep.
      destruct (processing_queue (shared s)) as [|[buffer metadata] rest];
        injection Hstep as <-; simpl; [done|].
      by rewrite mutex_trace_app, IH.
    + destruct (worker_process buffer metadata (shared s)) as [w|] eqn:Hrun; [|done].
      injection Hstep as <-.
      apply worker_process_frame in Hrun as (_ & _ & _ & c & Hev).
      simpl. by rewrite Hev, mutex_trace_app, IH.
    + destruct (stop_processing (shared s)); injection Hstep as <-; simpl;
        by rewrite mutex_trace_app, IH.
  - destruct (worker s) eqn:Hpc; try done. by injection Hstep as <-.
Qed.

Lemma lock_discipline_witness :
  mutex_trace (events (shared sample_midway))
    = Some (holds_mutex (worker sample_midway)) ∧
  mutex_trace (events (shared sample_final))
    = Some (holds_mutex (worker sample_final)).
Proof.
  split.
  - exact (lock_discipline sample_midway sample_midway_reachable).
  - exact (lock_discipline sample_final sample_final_reachable).
Defined.

(** Once the worker has returned no step takes an entry or forwards one. *)
Lemma returned_step a s s' :
  worker s = Returned → step a s = Some s' →
  worker s' = Returned ∧
  processed (events (shared s')) = processed (events (shared s)) ∧
  forwarded (events (shared s')) = forwarded (events (shared s)).
Proof.
  intros Hpc Hstep. destruct a; simpl in Hstep.
  - destruct (callback_lease _ _ _ _ _) as [[p w]|] eqn:Hlease; [|done].
    injection Hstep as <-. simpl.
    apply callback_lease_frame in Hlease as (_ & _ & _ & new & -> & Hquiet).
    by rewrite quiet_processed, quiet_forwarded.
  - destruct (callbacks s !! k) as [[buffer metadata| |]|]; try done.
    destruct (holds_mutex (worker s)); [done|].
    injection Hstep as <-. simpl. split; [done|].
    unfold processed, forwarded. rewrite !omap_app. simpl.
    by rewrite !app_nil_r.
  - destruct (callbacks s !! k) as [[buffer metadata| |]|]; try done.
    injection Hstep as <-. simpl. rewrite Hpc. split; [done|].
    by rewrite (quiet_processed _ [NotifyAll]), (quiet_forwarded _ [NotifyAll]).
  - destruct (main s); try done.
    destruct (holds_mutex (worker s)); [done|].
    injection Hstep as <-. simpl. split; [done|].
    unfold processed, forwarded. rewrite !omap_app. simpl.
    by rewrite !app_nil_r.
  - destruct (main s); try done.
    injection Hstep as <-. simpl. rewrite Hpc. split; [done|].
    by rewrite (quiet_processed _ [NotifyAll]), (quiet_forwarded _ [NotifyAll]).
  - destruct (main s); try done. rewrite Hpc in Hstep.
    injection Hstep as <-. simpl. split; [done|].
    by rewrite (quiet_processed _ [ThreadJoin]), (quiet_forwarded _ [ThreadJoin]).
  - unfold worker_step in Hstep. by rewrite Hpc in Hstep.
  - by rewrite Hpc in Hstep.
Qed.

(** X10. Nothing is processed after the worker has returned: whatever the
    threads do from then on, the worker stays returned, no entry is taken
    from the queue or forwarded, and every entry enqueued and not forwarded
    (each one enqueued after the return) is still in the queue. *)
Theorem stranded_after_return s actions s' :
  reachable s → worker s = Returned → run actions s = Some s' →
  worker s' = Returned ∧
  processed (events (shared s')) = processed (events (shared s)) ∧
  forwarded (events (shared s')) = forwarded (events (shared s)) ∧
  enqueued (events (shared s'))
    = forwarded (events (shared s)) ++ processing_queue (shared s').
Proof.
  intros Hreach Hpc Hrun.
  assert (Hkeep : worker s' = Returned ∧
            processed (events (shared s')) = processed (events (shared s)) ∧
            forwarded (events (shared s')) = forwarded (events (shared s))).
  { clear Hreach. revert s Hpc Hrun.
    induction actions as [|a actions IH]; intros s Hpc Hrun; simpl in Hrun.
    - by simplify_eq.
    - destruct (step a s) as [s1|] eqn:Hstep; [|done].
      destruct (returned_step a s s1 Hpc Hstep) as (Hpc1 & Hp1 & Hf1).
      destruct (IH s1 Hpc1 Hrun) as (Hpc' & Hp' & Hf').
      by rewrite Hp', Hf', Hp1, Hf1. }
  destruct Hkeep as (Hpc' & Hp' & Hf'). repeat split; try done.
  pose proof (reachable_invariant s' (run_reachable _ _ _ Hreach Hrun)) as Hinv.
  pose proof (inv_conserved s' Hinv) as Hcons.
  by rewrite Hpc', Hf' in Hcons.
Qed.

Lemma late_run : run late_actions sample_final = Some late_final.
Proof. vm_compute. reflexivity. Qed.

Lemma stranded_after_return_witness :
  processing_queue (shared late_final) = [(1%positive, sample_metadata)] ∧
  worker late_final = Returned ∧
  processed (events (shared late_final)) = processed (events (shared sample_final)) ∧
  forwarded (events (shared late_final)) = forwarded (events (shared sample_final)) ∧
  enqueued (events (shared late_final))
    = forwarded (events (shared sample_final)) ++ processing_queue (shared late_final).
Proof.
  split; [reflexivity|].
  exact (stranded_after_return sample_final late_actions late_final
           sample_final_reachable eq_refl late_run).
Defined.

(** X11. No wake-up is lost: whenever the worker is blocked in [cv.wait]
    while an entry is in the queue or the stop flag is set, a notification
    (line 172 or line 194) is still to be made, and it wakes the worker. *)
Theorem no_lost_wakeup s :
  reachable s → worker s = Waiting →
  processing_queue (shared s) ≠ [] ∨ stop_processing (shared s) = true →
  ∃ a s', notification a ∧ step a s = Some s' ∧ worker s' = Relocking.
Proof.
  intros Hreach Hpc Hwork.
  pose proof (reachable_wakeups_pending s Hreach) as [Hstop Hentry].
  destruct (stop_processing (shared s)) eqn:Hflag.
  - exists MainNotify. eexists. split; [by left|].
    simpl. rewrite (Hstop Hpc eq_refl), Hpc. done.
  - destruct Hwork as [Hq | [=]].
    destruct (Hentry Hpc Hq) as [k Hk].
    exists (CallbackNotify k). eexists. split; [right; by exists k|].
    simpl. rewrite Hk, Hpc. done.
Qed.

Lemma no_lost_wakeup_witness :
  worker sample_midway = Waiting ∧
  processing_queue (shared sample_midway) ≠ [] ∧
  ∃ a s', notification a ∧ step a sample_midway = Some s' ∧ worker s' = Relocking.
Proof.
  split; [reflexivity|]. split; [discriminate|].
  apply (no_lost_wakeup sample_midway sample_midway_reachable eq_refl).
  left. discriminate.
Defined.

(** Once the main thread has left line 193 the stop flag is set, for good. *)
Lemma stop_set_after_serving s :
  reachable s → main s ≠ Serving → stop_processing (shared s) = true.
Proof.
  induction 1 as [registry memory | s a s' _ IH Hstep]; [done|].
  destruct a; simpl in Hstep.
  - destruct (callback_lease _ _ _ _ _) as [[p w]|] eqn:Hlease; [|done].
    injection Hstep as <-. simpl.
    apply callback_lease_frame in Hlease as (_ & -> & _). done.
  - destruct (callbacks s !! k) as [[buffer metadata| |]|]; try done.
    destruct (holds_mutex (worker s)); [done|].
    by injection Hstep as <-.
  - destruct (callbacks s !! k) as [[buffer metadata| |]|]; try done.
    by injection Hstep as <-.
  - destruct (main s); try done.
    destruct (holds_mutex (worker s)); [done|].
    by injection Hstep as <-.
  - destruct (main s) eqn:Hmain; try done.
    injection Hstep as <-. simpl. intros _. by apply IH.
  - destruct (main s) eqn:Hmain; try done. destruct (worker s); try done.
    injection Hstep as <-. simpl. intros _. by apply IH.
  - unfold worker_step in Hstep. destruct (worker s) eqn:Hpc; try done.
    + by injection Hstep as <-.
    + unfold worker_pop in Hstep.
      destruct (processing_queue (shared s)) as [|[buffer metadata] rest];
        by injection Hstep as <-.
    + destruct (worker_process buffer metadata (shared s)) as [w|] eqn:Hrun; [|done].
      injection Hstep as <-. simpl.
      apply worker_process_frame in Hrun as (_ & -> & _). done.
    + destruct (stop_processing (shared s)) eqn:Hflag; injection Hstep as <-; simpl;
        rewrite ?Hflag; [done | exact IH].
  - destruct (worker s); try done. by injection Hstep as <-.
Qed.

(** X12. The join of line 195 returns: once the main thread has made its
    notification the stop flag is set and the worker is not, and will not
    be, blocked in [cv.wait]; the worker's own steps take it to its return,
    after which the join completes. *)
Theorem join_returns s :
  reachable s → main s = Joining →
  stop_processing (shared s) = true ∧
  worker s ≠ Waiting ∧
  (drainable s →
   ∃ n s', run (replicate n WorkerStep ++ [MainJoin]) s = Some s' ∧
           main s' = Joined ∧ worker s' = Returned ∧
           last (events (shared s')) = Some ThreadJoin).
Proof.
  intros Hreach Hmain.
  assert (Hflag : stop_processing (shared s) = true).
  { apply stop_set_after_serving; [done|]. by rewrite Hmain. }
  pose proof (reachable_wakeups_pending s Hreach) as [Hstop _].
  assert (Hawake : worker s ≠ Waiting).
  { intros Hpc. specialize (Hstop Hpc Hflag). congruence. }
  split; [done|]. split; [done|]. intros Hdrain.
  assert (Hjoin : ∀ s1, worker s1 = Returned → main s1 = Joining →
            ∃ s', run [MainJoin] s1 = Some s' ∧ main s' = Joined ∧
                  worker s' = Returned ∧
                  last (events (shared s')) = Some ThreadJoin).
  { intros s1 Hpc1 Hmain1. eexists. simpl. rewrite Hmain1, Hpc1.
    split; [done|]. simpl. by rewrite last_snoc. }
  assert (Hfinish : ∀ s1, worker s1 = AtStopCheck → main s1 = Joining →
            stop_processing (shared s1) = true →
            ∃ s', run ([WorkerStep] ++ [MainJoin]) s1 = Some s' ∧ main s' = Joined ∧
                  worker s' = Returned ∧
                  last (events (shared s')) = Some ThreadJoin).
  { intros s1 Hpc1 Hmain1 Hflag1. eexists. simpl. unfold worker_step.
    rewrite Hpc1, Hflag1. simpl. rewrite Hmain1.
    split; [done|]. simpl. by rewrite last_snoc. }
  destruct (busy (worker s)) eqn:Hbusy.
  - destruct (drain_when_busy s Hbusy Hdrain) as (n & s1 & Hn & Hpc1 & Hflag1 & _ & Hmain1).
    destruct (Hfinish s1 Hpc1) as (s' & Hlast & Hrest); [congruence | congruence |].
    exists (n + 1)%nat, s'. split; [|done].
    rewrite replicate_add, <- app_assoc. by erewrite run_app.
  - destruct (worker s) eqn:Hpc; try done.
    + destruct (Hfinish s Hpc Hmain Hflag) as (s' & Hlast & Hrest).
      by exists 1%nat, s'.
    + destruct (Hjoin s Hpc Hmain) as (s' & Hlast & Hrest).
      by exists 0%nat, s'.
Qed.

Lemma sample_run_joining :
  run (take 14 sample_actions) sample_system = Some sample_joining.
Proof. vm_compute. reflexivity. Qed.

Lemma sample_joining_reachable : reachable sample_joining.
Proof.
  apply (run_reachable (take 14 sample_actions) sample_system);
    [|exact sample_run_joining].
  apply reachable_boot.
Qed.

Lemma join_returns_witness :
  stop_processing (shared sample_joining) = true ∧
  worker sample_joining ≠ Waiting ∧
  ∃ n s', run (replicate n WorkerStep ++ [MainJoin]) sample_joining = Some s' ∧
          main s' = Joined ∧ worker s' = Returned ∧
          last (events (shared s')) = Some ThreadJoin.
Proof.
  destruct (join_returns sample_joining sample_joining_reachable eq_refl)
    as (Hflag & Hawake & Hjoin).
  split; [exact Hflag|]. split; [exact Hawake|].
  apply Hjoin. split; [by exists 0%nat | by apply Forall_nil].
Defined.

Lemma copied_app evs new : copied (evs ++ new) = copied evs ++ copied new.
Proof. apply omap_app. Qed.

Lemma enqueued_app evs new : enqueued (evs ++ new) = enqueued evs ++ enqueued new.
Proof. apply omap_app. Qed.

(** The lease phase either copies the frame into the leased buffer and
    hands the buffer on to the critical section, or copies nothing and is
    finished. *)
Lemma callback_lease_copied lease data size metadata w p w' :
  callback_lease lease data size metadata w = Done (p, w') →
  enqueued (events w') = enqueued (events w) ∧
  copied (events w') = copied (events w) ++ to_enqueue [p].
Proof.
  unfold callback_lease, chain_at. intros Hrun.
  destruct (chains w !! "import") as [[c|]|] eqn:Hc; simpl in Hrun; try done.
  destruct lease as [[buffer buffer_size]|].
  - case_decide.
    + destruct (memcpy _ data size) as [filled|]; [|done].
      injection Hrun as <- <-. simpl.
      rewrite !enqueued_app, !copied_app. simpl. by rewrite !app_nil_r.
    + simpl in Hrun. rewrite Hc in Hrun. simpl in Hrun.
      injection Hrun as <- <-. simpl.
      rewrite !enqueued_app, !copied_app. simpl. by rewrite !app_nil_r.
  - injection Hrun as <- <-. simpl.
    rewrite !enqueued_app, !copied_app. simpl. by rewrite !app_nil_r.
Qed.

Lemma to_enqueue_taken ps k buffer metadata :
  ps !! k = Some (ToEnqueue buffer metadata) →
  to_enqueue ps ≡ₚ buffer :: to_enqueue (<[k := ToNotify]> ps).
Proof.
  revert k. induction ps as [|p ps IH]; intros [|k] Hk; simpl in Hk; try done.
  - by injection Hk as ->.
  - simpl. destruct p as [b md| |]; simpl; rewrite (IH k Hk); [|done..].
    apply Permutation_swap.
Qed.

Lemma to_enqueue_notified ps k :
  ps !! k = Some ToNotify → to_enqueue (<[k := Finished]> ps) = to_enqueue ps.
Proof.
  revert k. induction ps as [|p ps IH]; intros [|k] Hk; simpl in Hk; try done.
  - by injection Hk as ->.
  - simpl. by rewrite (IH k Hk).
Qed.

(** X16. No frame is lost or duplicated between the copy and the queue, in
    every interleaving: the buffers the callback has copied a frame into
    are, each as often as it was copied into, the buffers enqueued so far
    together with those held by invocations that are about to enter the
    critical section. *)
Theorem copied_buffers_enqueued s :
  reachable s →
  ((enqueued (events (shared s))).*1 ++ to_enqueue (callbacks s))
    ≡ₚ copied (events (shared s)).
Proof.
  induction 1 as [registry memory | s a s' _ IH Hstep]; [done|].
  destruct a; simpl in Hstep.
  - destruct (callback_lease _ _ _ _ _) as [[p w]|] eqn:Hlease; [|done].
    injection Hstep as <-. simpl.
    apply callback_lease_copied in Hlease as [-> ->].
    unfold to_enqueue at 1. rewrite omap_app.
    fold (to_enqueue (callbacks s)). fold (to_enqueue [p]).
    by rewrite app_assoc, IH.
  - destruct (callbacks s !! k) as [[buffer metadata| |]|] eqn:Hk; try done.
    destruct (holds_mutex (worker s)); [done|].
    injection Hstep as <-. simpl.
    rewrite !enqueued_app, !copied_app. simpl. rewrite !app_nil_r.
    rewrite <- IH, (to_enqueue_taken _ _ _ _ Hk).
    rewrite fmap_app. simpl. by rewrite <- app_assoc.
  - destruct (callbacks s !! k) as [[buffer metadata| |]|] eqn:Hk; try done.
    injection Hstep as <-. simpl.
    rewrite enqueued_app, copied_app. simpl. rewrite !app_nil_r.
    by rewrite (to_enqueue_notified _ _ Hk).
  - destruct (main s); try done.
    destruct (holds_mutex (worker s)); [done|].
    injection Hstep as <-. simpl.
    rewrite !enqueued_app, !copied_app. simpl. by rewrite !app_nil_r.
  - destruct (main s); try done.
    injection Hstep as <-. simpl.
    rewrite enqueued_app, copied_app. simpl. by rewrite !app_nil_r.
  - destruct (main s); try done. destruct (worker s); try done.
    injection Hstep as <-. simpl.
    rewrite enqueued_app, copied_app. simpl. by rewrite !app_nil_r.
  - unfold worker_step in Hstep. destruct (worker s) eqn:Hpc; try done.
    + injection Hstep as <-. simpl.
      rewrite enqueued_app, copied_app. simpl. by rewrite !app_nil_r.
    + unfold worker_pop in Hstep.
      destruct (processing_queue (shared s)) as [|[buffer metadata] rest];
        injection Hstep as <-; simpl; [done|].
      rewrite enqueued_app, copied_app. simpl. by rewrite !app_nil_r.
    + destruct (worker_process buffer metadata (shared s)) as [w|] eqn:Hrun; [|done].
      injection Hstep as <-.
      apply worker_process_frame in Hrun as (_ & _ & _ & c & Hev).
      simpl. rewrite Hev, enqueued_app, copied_app. simpl. by rewrite !app_nil_r.
    + destruct (stop_processing (shared s)); injection Hstep as <-; simpl;
        rewrite enqueued_app, copied_app; simpl; by rewrite !app_nil_r.
  - destruct (worker s) eqn:Hpc; try done. by injection Hstep as <-.
Qed.

Lemma copied_buffers_enqueued_witness :
  copied (events (shared late_final)) = [1%positive; 1%positive] ∧
  (((enqueued (events (shared late_final))).*1 ++ to_enqueue (callbacks late_final))
     ≡ₚ copied (events (shared late_final))).
Proof.
  split; [reflexivity|].
  apply (copied_buffers_enqueued late_final).
  apply (run_reachable late_actions sample_final);
    [exact sample_final_reachable | exact late_run].
Defined.

End WorkerCoverage.

Module StartupCoverage.
Import Json Handoff Startup StartupFacts.
Import Further Samples.

Lemma created_destroys l : created (ChainDestroy <$> l) = [].
Proof. induction l as [|c l IH]; [done | exact IH]. Qed.

Lemma destroyed_destroys l : destroyed (ChainDestroy <$> l) = l.
Proof. induction l as [|c l IH]; [done|]. simpl. by rewrite <- IH at 2. Qed.

Lemma created_app evs new : created (evs ++ new) = created evs ++ created new.
Proof. apply omap_app. Qed.

Lemma destroyed_app evs new :
  destroyed (evs ++ new) = destroyed evs ++ destroyed new.
Proof. apply omap_app. Qed.

Lemma created_other e evs :
  (∀ c cfg, e ≠ ChainCreate c cfg) → created (e :: evs) = created evs.
Proof. intros He. destruct e; try done. by destruct (He c cfg). Qed.

Lemma destroyed_other e evs :
  (∀ c, e ≠ ChainDestroy c) → destroyed (e :: evs) = destroyed evs.
Proof. intros He. destruct e; try done. by destruct (He c). Qed.

Lemma owned_insert id c (registry : gmap string (option chain)) :
  registry !! id = None → owned (<[id := Some c]> registry) ≡ₚ c :: owned registry.
Proof.
  intros Hfresh. unfold owned.
  by rewrite (map_to_list_insert registry id (Some c) Hfresh).
Qed.

(** The loop constructs one chain per definition, numbered in order, and
    every chain it constructs ends up destroyed or owned by the registry,
    exactly once. *)
Lemma construct_chains_lifecycle configs n reg0 evs registry :
  construct_chains configs n reg0 = (evs, Some registry) →
  created evs = seq n (length configs) ∧
  (destroyed evs ++ owned registry) ≡ₚ (owned reg0 ++ seq n (length configs)) ∧
  Forall lifecycle_event evs.
Proof.
  revert n reg0 evs.
  induction configs as [|chain_config configs IH]; intros n reg0 evs Hrun;
    simpl in Hrun.
  - injection Hrun as <- <-. simpl. by rewrite app_nil_r.
  - destruct (get_string "id" chain_config) as [id|]; [|done].
    unfold emplace in Hrun.
    destruct (reg0 !! id) as [v|] eqn:Hreg0.
    + destruct (construct_chains configs (S n) reg0) as [evs' result] eqn:Hrest.
      injection Hrun as <- ->.
      destruct (IH _ _ _ Hrest) as (Hc & Hd & Hall).
      split; [|split].
      * simpl. by rewrite Hc.
      * simpl. rewrite Hd. by rewrite Permutation_middle.
      * apply Forall_cons. split; [left; eauto|].
        apply Forall_cons. split; [right; eauto | done].
    + destruct (construct_chains configs (S n) (<[id := Some n]> reg0))
        as [evs' result] eqn:Hrest.
      injection Hrun as <- ->.
      destruct (IH _ _ _ Hrest) as (Hc & Hd & Hall).
      split; [|split].
      * simpl. by rewrite Hc.
      * simpl. rewrite Hd, owned_insert by done. simpl.
        by rewrite Permutation_middle.
      * apply Forall_cons. split; [left; eauto | done].
Qed.

(** X13. The life of the chains in a run that ends normally, whatever the
    order in which [chains.clear()] destroys the chains it owns: the SDK is
    initialized first and finalized last; one chain is constructed per
    definition; the chains the registry owns, and only these, are
    destroyed between the join of the worker thread and the finalization;
    and every chain constructed is destroyed exactly once. *)
Theorem chains_destroyed_once order input :
  rearranges order →
  ending_of (main order input) = Exited EXIT_SUCCESS →
  ∃ it_iff before cleared registry,
    registry_of input = Some registry ∧
    trace (main order input)
      = Initialize it_iff :: before ++ ThreadJoin
          :: (ChainDestroy <$> cleared) ++ [Finalize] ∧
    (cleared ≡ₚ owned registry) ∧
    (ThreadJoin ∉ before) ∧ (Finalize ∉ before) ∧
    created (trace (main order input)) = seq 0 (length (chain_definitions input)) ∧
    (destroyed (trace (main order input)) ≡ₚ created (trace (main order input))).
Proof.
  intros Horder. unfold main, registry_of, chain_definitions.
  destruct (check_config input) as [message|[it_iff it_chains]]; [done|].
  destruct (construct_chains (items_of it_chains) 0 ∅) as [evs [registry|]] eqn:Hrun;
    [|done].
  unfold serve. destruct (registry !! "export") as [[exporter|]|]; try done.
  simpl. intros _.
  destruct (construct_chains_lifecycle _ _ _ _ _ Hrun) as (Hc & Hd & Hall).
  exists it_iff.
  exists (evs ++ [ThreadStart; SetExportCallback exporter "exporter";
                  Execute exporter (exporter_command "on");
                  Log info "imagefiltercpp" "Press Enter to terminate the program";
                  Getchar; Execute exporter (exporter_command "off");
                  Lock; SetStop; Unlock; NotifyAll]).
  exists (order (owned registry)), registry.
  split; [done|]. split; [by rewrite <- app_assoc|].
  split; [apply Horder|].
  split; [|split; [|split]].
  - rewrite elem_of_app. intros [Hin | Hin].
    + by apply (not_lifecycle ThreadJoin evs).
    + rewrite !elem_of_cons, elem_of_nil in Hin.
      repeat (destruct Hin as [Hin | Hin]; [discriminate|]). done.
  - rewrite elem_of_app. intros [Hin | Hin].
    + by apply (not_lifecycle Finalize evs).
    + rewrite !elem_of_cons, elem_of_nil in Hin.
      repeat (destruct Hin as [Hin | Hin]; [discriminate|]). done.
  - change (clear order registry) with (ChainDestroy <$> order (owned registry)).
    rewrite created_app, !created_other by done.
    rewrite created_app, created_destroys, Hc. simpl. by rewrite !app_nil_r.
  - change (clear order registry) with (ChainDestroy <$> order (owned registry)).
    rewrite created_app, !created_other by done.
    rewrite created_app, created_destroys, Hc.
    rewrite destroyed_app, !destroyed_other by done.
    rewrite destroyed_app, destroyed_destroys. simpl.
    rewrite !app_nil_r, (Horder (owned registry)), Hd.
    unfold owned. by rewrite map_to_list_empty.
Qed.

Lemma chains_destroyed_once_witness :
  destroyed (trace (main reverse twice_export)) = [2%nat; 1%nat; 0%nat] ∧
  ∃ it_iff before cleared registry,
    registry_of twice_export = Some registry ∧
    trace (main reverse twice_export)
      = Initialize it_iff :: before ++ ThreadJoin
          :: (ChainDestroy <$> cleared) ++ [Finalize] ∧
    (cleared ≡ₚ owned registry) ∧
    (ThreadJoin ∉ before) ∧ (Finalize ∉ before) ∧
    created (trace (main reverse twice_export))
      = seq 0 (length (chain_definitions twice_export)) ∧
    (destroyed (trace (main reverse twice_export))
       ≡ₚ created (trace (main reverse twice_export))).
Proof.
  split; [vm_compute; reflexivity|].
  apply (chains_destroyed_once reverse twice_export).
  - intros cs. apply reverse_Permutation.
  - vm_compute. reflexivity.
Defined.

(** The loop stops at the first definition without a string id, the chain
    for it constructed already. *)
Lemma construct_chains_stops configs j chain_config n reg0 :
  configs !! j = Some chain_config →
  get_string "id" chain_config = None →
  (∀ i c, (i < j)%nat → configs !! i = Some c → is_Some (get_string "id" c)) →
  ∃ evs,
    construct_chains configs n reg0 = (evs, None) ∧
    last evs = Some (ChainCreate (n + j) chain_config) ∧
    created evs = seq n (S j) ∧
    Forall lifecycle_event evs.
Proof.
  revert j n reg0.
  induction configs as [|c0 configs IH]; intros j n reg0 Hj Hnone Hbefore;
    [done|].
  destruct j as [|j]; simpl in Hj.
  - injection Hj as ->. simpl. rewrite Hnone.
    eexists. split; [done|]. rewrite Nat.add_0_r. split; [done|].
    split; [done|]. apply Forall_singleton. left. eauto.
  - destruct (Hbefore 0%nat c0) as [id Hid]; [lia | done |].
    simpl. rewrite Hid.
    destruct (emplace id n reg0) as [reg1 gone] eqn:Hemplace.
    destruct (IH j (S n) reg1 Hj Hnone) as (evs & Hrun & Hlast & Hc & Hall).
    { intros i c Hlt Hc. apply (Hbefore (S i) c); [lia | done]. }
    rewrite Hrun. eexists. split; [done|].
    assert (Hgone : gone = [] ∨ gone = [ChainDestroy n]).
    { unfold emplace in Hemplace.
      destruct (reg0 !! id); injection Hemplace as _ <-; eauto. }
    split; [|split].
    + rewrite last_cons, last_app, Hlast. by rewrite Nat.add_succ_r.
    + unfold created in *. simpl. rewrite omap_app, Hc.
      by destruct Hgone as [-> | ->].
    + apply Forall_cons. split; [left; eauto|].
      apply Forall_app. split; [|done].
      destruct Hgone as [-> | ->]; [done|].
      apply Forall_singleton. right. eauto.
Qed.

(** X14. A chain definition without a string [id] ends the program
    abnormally, in the middle of the construction loop: the SDK has been
    initialized and a chain constructed for every definition up to and
    including the faulty one, which is the last thing that happens; the
    worker is never started and the SDK is not finalized. *)
Theorem definition_without_id_aborts order input it_iff it_chains j chain_config :
  check_config input = inr (it_iff, it_chains) →
  items_of it_chains !! j = Some chain_config →
  get_string "id" chain_config = None →
  (∀ i c, (i < j)%nat → items_of it_chains !! i = Some c →
          is_Some (get_string "id" c)) →
  ending_of (main order input) = Aborted ∧
  registry_of input = None ∧
  head (trace (main order input)) = Some (Initialize it_iff) ∧
  last (trace (main order input)) = Some (ChainCreate j chain_config) ∧
  created (trace (main order input)) = seq 0 (S j) ∧
  (ThreadStart ∉ trace (main order input)) ∧
  (Finalize ∉ trace (main order input)).
Proof.
  intros Hcheck Hj Hnone Hbefore.
  destruct (construct_chains_stops _ j chain_config 0 ∅ Hj Hnone Hbefore)
    as (evs & Hrun & Hlast & Hc & Hall).
  unfold main, registry_of. rewrite Hcheck, Hrun. simpl.
  split; [done|]. split; [done|]. split; [done|].
  split; [|split; [|split]].
  - rewrite last_cons, Hlast. done.
  - done.
  - intros Hin. apply elem_of_cons in Hin as [[=] | Hin].
    by apply (not_lifecycle ThreadStart evs).
  - intros Hin. apply elem_of_cons in Hin as [[=] | Hin].
    by apply (not_lifecycle Finalize evs).
Qed.

Lemma definition_without_id_aborts_witness :
  ending_of (main reverse numeric_id) = Aborted ∧
  registry_of numeric_id = None ∧
  head (trace (main reverse numeric_id)) = Some (Initialize (JObject [])) ∧
  last (trace (main reverse numeric_id))
    = Some (ChainCreate 1%nat (JObject [("id", JNumber 7)])) ∧
  created (trace (main reverse numeric_id)) = seq 0 2 ∧
  (ThreadStart ∉ trace (main reverse numeric_id)) ∧
  (Finalize ∉ trace (main reverse numeric_id)).
Proof.
  apply (definition_without_id_aborts reverse numeric_id (JObject [])
           (JArray [JObject [("id", JString "export")];
                    JObject [("id", JNumber 7)];
                    JObject [("id", JString "import")]])
           1%nat (JObject [("id", JNumber 7)])).
  - reflexivity.
  - reflexivity.
  - reflexivity.
  - intros i c Hlt Hc. assert (i = 0%nat) as -> by lia.
    simpl in Hc. injection Hc as <-. by eexists.
Defined.

(** X15. A configuration that gets through the checks and the loop has a
    [chains] array with a first definition, and the chain constructed for
    it, right after the initialization of the SDK, is registered under its
    id: the registry is never empty when the worker is started. *)
Theorem first_definition_registered order input registry :
  registry_of input = Some registry →
  ∃ config it_iff first rest id later,
    input = Parsed config ∧
    find "IFF" config = Some it_iff ∧
    find "chains" config = Some (JArray (first :: rest)) ∧
    get_string "id" first = Some id ∧
    registry !! id = Some (Some 0%nat) ∧
    trace (main order input) = Initialize it_iff :: ChainCreate 0%nat first :: later.
Proof.
  unfold registry_of, main.
  destruct (check_config input) as [message|[it_iff it_chains]] eqn:Hcheck; [done|].
  apply check_config_accepted in Hcheck
    as (config & first & rest & -> & Hiff & Hchains & ->).
  simpl.
  destruct (get_string "id" first) as [id|] eqn:Hid; [|done].
  rewrite emplace_fresh by done.
  destruct (construct_chains rest 1 (<[id := Some 0%nat]> ∅)) as [evs result] eqn:Hrun.
  simpl. intros ->.
  destruct (construct_chains_ids _ _ _ _ _ Hrun) as [ids Hids].
  destruct (construct_chains_spec rest ids 1 (<[id := Some 0%nat]> ∅) Hids)
    as (evs' & registry' & Hrun' & _ & Hkeep & _).
  rewrite Hrun in Hrun'. injection Hrun' as _ <-.
  exists config, it_iff, first, rest, id. eexists.
  split; [done|]. split; [done|]. split; [done|]. split; [done|].
  split; [apply Hkeep, lookup_insert_eq | done].
Qed.

Lemma first_definition_registered_witness :
  ∃ config it_iff first rest id later,
    twice_export = Parsed config ∧
    find "IFF" config = Some it_iff ∧
    find "chains" config = Some (JArray (first :: rest)) ∧
    get_string "id" first = Some id ∧
    ({[ "export" := Some 0%nat; "import" := Some 1%nat ]}
       : gmap string (option nat)) !! id = Some (Some 0%nat) ∧
    trace (main reverse twice_export) = Initialize it_iff :: ChainCreate 0%nat first :: later.
Proof.
  apply (first_definition_registered reverse twice_export). vm_compute. reflexivity.
Defined.

End StartupCoverage.
